(** * GLYPH codec: canonical writer and JSON bridge

A shallow embedding of [src/c/glyph-codec/src/glyph.c] and
[src/c/glyph-codec/src/json.c] and the properties of the canonical
form established on it.

Conventions of the embedding.
- A C string ([char *], NUL terminated) is a [string]; its bytes are
  [ascii] characters read as [unsigned char] through [nat_of_ascii].
  A pointer that may be [NULL] is an [option].
- A growing output buffer ([strbuf_t], [json_buf_t]) is the [string]
  written so far; every writer returns the text it appends.
- [int64_t] and [size_t] values are [Z]; a [double] is a sign, a
  mantissa and a binary exponent, or a signed zero, infinity or NaN.
- Allocation ([malloc], [calloc], [realloc]) is taken to succeed.  Where
  the output depends on the addresses [malloc] returns (the order of the
  columns of a table), the writer takes them as a parameter. *)

From Stdlib Require Import ZArith List String Ascii Bool Lia.
From Stdlib Require Import Permutation Sorted.
Import ListNotations.
Local Open Scope string_scope.
Local Open Scope Z_scope.

(** ** C strings and <ctype.h> *)

Module CStr.

(** [(unsigned char) c] *)
Definition uchar (c : ascii) : Z := Z.of_nat (nat_of_ascii c).

(** The C string stored in a buffer: the bytes before the first NUL. *)
Fixpoint c_str (s : string) : string :=
  match s with
  | EmptyString => EmptyString
  | String c t => if (uchar c =? 0) then EmptyString else String c (c_str t)
  end.

Fixpoint all_bytes (ok : ascii -> bool) (s : string) : bool :=
  match s with
  | EmptyString => true
  | String c t => if ok c then all_bytes ok t else false
  end.

(** A text that is a C string as it stands: no byte of it is NUL. *)
Definition is_c_str (s : string) : bool :=
  all_bytes (fun c => negb (uchar c =? 0)) s.

(** [strdup_safe]: a copy of the C string, [NULL] for [NULL]. *)
Definition strdup_safe (s : option string) : option string :=
  match s with
  | None => None
  | Some s => Some (c_str s)
  end.

(** [strcmp]: difference of the first bytes that differ, as unsigned
    chars; the terminating NUL counts as byte 0. *)
Fixpoint strcmp (a b : string) : Z :=
  match a, b with
  | EmptyString, EmptyString => 0
  | EmptyString, String cb _ => 0 - uchar cb
  | String ca _, EmptyString => uchar ca
  | String ca ta, String cb tb =>
      if uchar ca =? uchar cb then strcmp ta tb else uchar ca - uchar cb
  end.

Definition isdigit (c : ascii) : bool :=
  (48 <=? uchar c) && (uchar c <=? 57).

Definition isupper (c : ascii) : bool :=
  (65 <=? uchar c) && (uchar c <=? 90).

Definition islower (c : ascii) : bool :=
  (97 <=? uchar c) && (uchar c <=? 122).

Definition isalnum (c : ascii) : bool :=
  isdigit c || isupper c || islower c.

(** [isspace] in the C locale: space, [\t \n \v \f \r]. *)
Definition isspace (c : ascii) : bool :=
  (uchar c =? 32) || ((9 <=? uchar c) && (uchar c <=? 13)).

(** The character of a byte value. *)
Definition chr (n : Z) : ascii := ascii_of_nat (Z.to_nat (n mod 256)).

Definition digit_char (d : Z) : ascii := chr (48 + d).

(** Text written for a character, [strbuf_append_char]. *)
Definition str1 (c : ascii) : string := String c EmptyString.

End CStr.
Import CStr.

(** ** Formatted output of integers ([snprintf]) *)

Module Printf.

(** Decimal digits of a non-negative number, most significant first. *)
Fixpoint dec_digits (fuel : nat) (n : Z) (acc : string) : string :=
  match fuel with
  | O => acc
  | S fuel' =>
      let acc' := String (digit_char (n mod 10)) acc in
      if n <? 10 then acc' else dec_digits fuel' (n / 10) acc'
  end.

(** ["%zu"], ["%lu"] *)
Definition fmt_lu (n : Z) : string :=
  dec_digits (S (Z.to_nat (Z.log2 n))) n EmptyString.

(** [(long) x] on an LP64 target: reduction to 64 bits, two's complement. *)
Definition to_long (x : Z) : Z :=
  (x + 2 ^ 63) mod 2 ^ 64 - 2 ^ 63.

(** ["%ld"] *)
Definition fmt_ld (n : Z) : string :=
  if n <? 0 then String "-" (fmt_lu (- n)) else fmt_lu n.

Definition hex_char (d : Z) : ascii :=
  if d <? 10 then chr (48 + d) else chr (87 + d).

(** ["\\u%04x"] of an [unsigned char] *)
Definition fmt_u04x (n : Z) : string :=
  String "\" (String "u"
    (String (hex_char ((n / 4096) mod 16))
      (String (hex_char ((n / 256) mod 16))
        (String (hex_char ((n / 16) mod 16))
          (String (hex_char (n mod 16)) EmptyString))))).

End Printf.
Import Printf.

(** ** IEEE-754 doubles

A [double] is a signed zero, a signed infinity, a NaN with its sign
bit, or [S754_finite s m e] standing for [(-1)^s * m * 2^e].  The
operations below are the ones the codec applies to a [double]; the
comparisons are decided on the exact values, so that they do not depend
on the choice of [m] and [e] for a given number. *)

Module Double.

Inductive double :=
| S754_zero (s : bool)
| S754_infinity (s : bool)
| S754_nan (s : bool)
| S754_finite (s : bool) (m : positive) (e : Z).

(** Numerator and denominator of the magnitude of a finite double. *)
Definition mag_num (m : positive) (e : Z) : Z :=
  if 0 <=? e then Zpos m * 2 ^ e else Zpos m.
Definition mag_den (e : Z) : Z :=
  if 0 <=? e then 1 else 2 ^ (- e).

(** The 64-bit format: a mantissa of at most 53 bits and an exponent
    in the range of binary64. *)
Definition is_binary64 (d : double) : bool :=
  match d with
  | S754_finite _ m e => (Zpos m <? 2 ^ 53) && (-1074 <=? e) && (e <=? 971)
  | _ => true
  end.

(** The double holding the integer [n] exactly (for [|n| < 2^53]). *)
Definition of_Z (n : Z) : double :=
  match n with
  | Z0 => S754_zero false
  | Zpos p => S754_finite false p 0
  | Zneg p => S754_finite true p 0
  end.

Definition d_0 : double := S754_zero false.
Definition d_1e15 : double := of_Z (10 ^ 15).

Definition is_nan (d : double) : bool :=
  match d with S754_nan _ => true | _ => false end.

(** Sign and magnitude as an exact fraction, for finite values. *)
Definition signed_num (d : double) : Z :=
  match d with
  | S754_finite s m e => if s then - mag_num m e else mag_num m e
  | _ => 0
  end.
Definition den (d : double) : Z :=
  match d with
  | S754_finite _ _ e => mag_den e
  | _ => 1
  end.

(** [a < b] *)
Definition flt (a b : double) : bool :=
  match a, b with
  | S754_nan _, _ | _, S754_nan _ => false
  | S754_infinity sa, S754_infinity sb => sa && negb sb
  | S754_infinity sa, _ => sa
  | _, S754_infinity sb => negb sb
  | _, _ => signed_num a * den b <? signed_num b * den a
  end.

(** [a == b]: NaN differs from everything, [-0.0 == 0.0]. *)
Definition feq (a b : double) : bool :=
  match a, b with
  | S754_nan _, _ | _, S754_nan _ => false
  | S754_infinity sa, S754_infinity sb => Bool.eqb sa sb
  | S754_infinity _, _ | _, S754_infinity _ => false
  | _, _ => signed_num a * den b =? signed_num b * den a
  end.

Definition fabs (d : double) : double :=
  match d with
  | S754_zero _ => S754_zero false
  | S754_infinity _ => S754_infinity false
  | S754_nan _ => S754_nan false
  | S754_finite _ m e => S754_finite false m e
  end.

(** [floor]: the largest integral value not above the argument. *)
Definition floor (d : double) : double :=
  match d with
  | S754_finite s m e =>
      if 0 <=? e then d
      else
        let q := Zpos m / 2 ^ (- e) in
        let r := Zpos m mod 2 ^ (- e) in
        let q' := if s && negb (r =? 0) then q + 1 else q in
        match q' with
        | Zpos p => S754_finite s p 0
        | _ => S754_zero s
        end
  | _ => d
  end.

(** [(long) d]: truncation toward zero.  The conversion of a NaN, an
    infinity or a value outside the range of [long] is undefined in C;
    the codec only converts integral values below [1e15]. *)
Definition to_long (d : double) : Z :=
  match d with
  | S754_finite s m e =>
      let t := mag_num m e / mag_den e in
      Printf.to_long (if s then - t else t)
  | _ => 0
  end.

End Double.
Import Double.

(** ** Numbers as text: [snprintf "%.15g"], [strtoll], [strtod]

The C library's conversions, written out on exact integer arithmetic:
both directions round to nearest, ties to even, as the library does
in the default rounding mode. *)

Module NumText.

Definition round_half_even (a b : Z) : Z :=
  let q := a / b in
  let r := a mod b in
  if 2 * r <? b then q
  else if b <? 2 * r then q + 1
  else if Z.even q then q else q + 1.

(** [10^k <= n/d] *)
Definition ge_pow10 (n d k : Z) : bool :=
  if 0 <=? k then 10 ^ k * d <=? n else d <=? n * 10 ^ (- k).

Fixpoint log10_up (fuel : nat) (n d k : Z) : Z :=
  match fuel with
  | O => k
  | S fuel' => if ge_pow10 n d (k + 1) then log10_up fuel' n d (k + 1) else k
  end.

(** The decimal exponent of [n/d]: the [k] with [10^k <= n/d < 10^(k+1)]. *)
Definition log10_floor (n d : Z) : Z :=
  log10_up 6 n d (((Z.log2 n - Z.log2 d) * 30103) / 100000 - 2).

(** [n/d] rounded to 15 significant digits: the digits as a number in
    [10^14, 10^15) and the decimal exponent of the first one. *)
Definition sig15 (n d : Z) : Z * Z :=
  let x0 := log10_floor n d in
  let s := 14 - x0 in
  let D := if 0 <=? s then round_half_even (n * 10 ^ s) d
           else round_half_even n (d * 10 ^ (- s)) in
  if 10 ^ 15 <=? D then (10 ^ 14, x0 + 1) else (D, x0).

(** Removal of trailing zeros, as [%g] does without the [#] flag. *)
Fixpoint strip_zeros (s : string) : string :=
  match s with
  | EmptyString => EmptyString
  | String c t =>
      match strip_zeros t with
      | EmptyString => if Ascii.eqb c "0" then EmptyString else str1 c
      | t' => String c t'
      end
  end.

Fixpoint zeros (n : nat) : string :=
  match n with
  | O => EmptyString
  | S n' => String "0" (zeros n')
  end.

Definition with_point (ip fp : string) : string :=
  match strip_zeros fp with
  | EmptyString => ip
  | fp' => ip ++ "." ++ fp'
  end.

Definition fmt_exp (x : Z) : string :=
  let a := Z.abs x in
  (if x <? 0 then "-" else "+") ++ (if a <? 10 then "0" else "") ++ fmt_lu a.

(** The magnitude [n/d > 0] in the style of [%.15g]. *)
Definition fmt_g15_mag (n d : Z) : string :=
  let '(D, x) := sig15 n d in
  let ds := fmt_lu D in
  if (x <? -4) || (15 <=? x) then
    with_point (substring 0 1 ds) (substring 1 14 ds) ++ "e" ++ fmt_exp x
  else if 0 <=? x then
    with_point (substring 0 (Z.to_nat (x + 1)) ds)
               (substring (Z.to_nat (x + 1)) (Z.to_nat (14 - x)) ds)
  else
    with_point "0" (zeros (Z.to_nat (- x - 1)) ++ ds).

(** [snprintf(num, sizeof num, "%.15g", f)] *)
Definition fmt_g15 (f : double) : string :=
  match f with
  | S754_nan s => if s then "-nan" else "nan"
  | S754_infinity s => if s then "-inf" else "inf"
  | S754_zero s => if s then "-0" else "0"
  | S754_finite s m e =>
      (if s then "-" else "") ++ fmt_g15_mag (mag_num m e) (mag_den e)
  end.

Fixpoint skip_space (s : string) : string :=
  match s with
  | String c t => if isspace c then skip_space t else s
  | EmptyString => s
  end.

(** The leading decimal digits of a text, as the number they spell with
    the accumulator in front, their count, and what follows them. *)
Fixpoint read_digits (s : string) (acc : Z) (cnt : Z) : Z * Z * string :=
  match s with
  | String c t =>
      if isdigit c then read_digits t (acc * 10 + (uchar c - 48)) (cnt + 1)
      else (acc, cnt, s)
  | EmptyString => (acc, cnt, s)
  end.

Definition read_sign (s : string) : bool * string :=
  match s with
  | String c t =>
      if Ascii.eqb c "-" then (true, t)
      else if Ascii.eqb c "+" then (false, t)
      else (false, s)
  | EmptyString => (false, s)
  end.

Definition LLONG_MAX : Z := 2 ^ 63 - 1.
Definition LLONG_MIN : Z := - 2 ^ 63.

(** [strtoll(start, &end, 10)]: [None] when no conversion is performed
    ([end == start]), otherwise the value, clamped to the range of
    [long long], and the text from [end] on. *)
Definition strtoll (start : string) : option (Z * string) :=
  let '(neg, s1) := read_sign (skip_space start) in
  let '(v, cnt, rest) := read_digits s1 0 0 in
  if cnt =? 0 then None
  else
    let v' := if neg then - v else v in
    Some (Z.max LLONG_MIN (Z.min LLONG_MAX v'), rest).

(** The double nearest to [a/b > 0]. *)
Definition round_binary64 (s : bool) (a b : Z) : double :=
  let l0 := Z.log2 a - Z.log2 b in
  let reaches := if 0 <=? l0 then b * 2 ^ l0 <=? a else b <=? a * 2 ^ (- l0) in
  let l := if reaches then l0 else l0 - 1 in
  let e := Z.max (l - 52) (-1074) in
  let m := if 0 <=? e then round_half_even a (b * 2 ^ e)
           else round_half_even (a * 2 ^ (- e)) b in
  let '(m, e) := if m =? 2 ^ 53 then (2 ^ 52, e + 1) else (m, e) in
  if 971 <? e then S754_infinity s
  else match m with
       | Zpos p => S754_finite s p e
       | _ => S754_zero s
       end.

Definition read_exponent (s : string) : Z * string :=
  match s with
  | String c t =>
      if Ascii.eqb c "e" || Ascii.eqb c "E" then
        let '(neg, t1) := read_sign t in
        let '(x, cnt, rest) := read_digits t1 0 0 in
        if cnt =? 0 then (0, s) else (if neg then - x else x, rest)
      else (0, s)
  | EmptyString => (0, s)
  end.

(** [strtod(start, &end)] on decimal text.  The parser calls it only
    where [strtoll] has just read digits followed by ['.'], ['e'] or
    ['E'], which rules out the hexadecimal, infinity and NaN forms.
    The digits [m] and the exponent [x10] stand for [m * 10^x10], and the
    result is the double nearest to it.  Two ranges are answered without
    the power of ten: from [10^309] on every number is beyond the largest
    double, and a number of [icnt + fcnt] digits with [icnt + x <= -324]
    is below [10^-324], less than half the smallest double. *)
Definition strtod (start : string) : option (double * string) :=
  let '(neg, s1) := read_sign (skip_space start) in
  let '(ip, icnt, r1) := read_digits s1 0 0 in
  let '(m, fcnt, r2) :=
    match r1 with
    | String c t => if Ascii.eqb c "." then read_digits t ip 0 else (ip, 0, r1)
    | EmptyString => (ip, 0, r1)
    end in
  if icnt + fcnt =? 0 then None
  else
    let '(x, rest) := read_exponent r2 in
    let x10 := x - fcnt in
    let d :=
      if m =? 0 then S754_zero neg
      else if 309 <=? x10 then S754_infinity neg
      else if icnt + x <=? -324 then S754_zero neg
      else if 0 <=? x10 then round_binary64 neg (m * 10 ^ x10) 1
      else round_binary64 neg m (10 ^ (- x10)) in
    Some (d, rest).

End NumText.
Import NumText.

(** ** [qsort], [gmtime] and [strftime] *)

Module CLib.

Section Qsort.
  Context {A : Type}.
  Variable compar : A -> A -> Z.

Fixpoint insert (x : A) (l : list A) : list A :=
  match l with
  | [] => [x]
  | y :: t => if compar x y <=? 0 then x :: l else y :: insert x t
  end.

(** [qsort(base, n, size, compar)]: the array in ascending order of
    [compar].  C leaves the algorithm open, and with it the order of
    elements that compare equal; this one is insertion sort. *)
Fixpoint qsort (l : list A) : list A :=
  match l with
  | [] => []
  | x :: t => insert x (qsort t)
  end.
End Qsort.

Record tm := mk_tm
  { tm_year : Z;  (* the calendar year itself, not the offset from 1900 *)
    tm_mon : Z;   (* 1..12 *)
    tm_mday : Z;
    tm_hour : Z;
    tm_min : Z;
    tm_sec : Z }.

(** [gmtime]: seconds since the epoch to a UTC calendar date
    (proleptic Gregorian calendar). *)
Definition gmtime (t : Z) : tm :=
  let days := t / 86400 in
  let secs := t mod 86400 in
  let z := days + 719468 in
  let era := z / 146097 in
  let doe := z - era * 146097 in
  let yoe := (doe - doe / 1460 + doe / 36524 - doe / 146096) / 365 in
  let doy := doe - (365 * yoe + yoe / 4 - yoe / 100) in
  let mp := (5 * doy + 2) / 153 in
  let d := doy - (153 * mp + 2) / 5 + 1 in
  let m := if mp <? 10 then mp + 3 else mp - 9 in
  let y := yoe + era * 400 + (if m <=? 2 then 1 else 0) in
  mk_tm y m d (secs / 3600) (secs mod 3600 / 60) (secs mod 60).

Definition fmt_02d (n : Z) : string :=
  (if n <? 10 then "0" else "") ++ fmt_lu n.

(** [strftime(ts, sizeof ts, "%Y-%m-%dT%H:%M:%SZ", tm)] *)
Definition strftime_iso (t : tm) : string :=
  fmt_ld (tm_year t) ++ "-" ++ fmt_02d (tm_mon t) ++ "-" ++ fmt_02d (tm_mday t)
  ++ "T" ++ fmt_02d (tm_hour t) ++ ":" ++ fmt_02d (tm_min t) ++ ":"
  ++ fmt_02d (tm_sec t) ++ "Z".

End CLib.
Import CLib.

(** ** The value model ([glyph.h]) *)

Module Glyph.

Inductive glyph_type_t :=
| GLYPH_NULL | GLYPH_BOOL | GLYPH_INT | GLYPH_FLOAT | GLYPH_STR
| GLYPH_BYTES | GLYPH_TIME | GLYPH_ID | GLYPH_LIST | GLYPH_MAP
| GLYPH_STRUCT | GLYPH_SUM.

Inductive glyph_null_style_t := GLYPH_NULL_UNDERSCORE | GLYPH_NULL_SYMBOL.

(** [struct glyph_value]: the tag and the member of the union it selects.
    A [glyph_map_entry_t] is a pair of a key and a value; an array with
    its count is a list. *)
#[local] Set Warnings "-register-all".
Inductive glyph_value_t :=
| VNull
| VBool (bool_val : bool)
| VInt (int_val : Z)
| VFloat (float_val : double)
| VStr (str_val : option string)
| VBytes (data : list Byte.byte)
| VTime (time_val : Z)
| VId (prefix : option string) (value : option string)
| VList (items : list glyph_value_t)
| VMap (entries : list (string * glyph_value_t))
| VStruct (type_name : option string) (fields : list (string * glyph_value_t))
| VSum (tag : option string) (value : option glyph_value_t).

Definition glyph_map_entry_t := (string * glyph_value_t)%type.

Definition type_of (v : glyph_value_t) : glyph_type_t :=
  match v with
  | VNull => GLYPH_NULL
  | VBool _ => GLYPH_BOOL
  | VInt _ => GLYPH_INT
  | VFloat _ => GLYPH_FLOAT
  | VStr _ => GLYPH_STR
  | VBytes _ => GLYPH_BYTES
  | VTime _ => GLYPH_TIME
  | VId _ _ => GLYPH_ID
  | VList _ => GLYPH_LIST
  | VMap _ => GLYPH_MAP
  | VStruct _ _ => GLYPH_STRUCT
  | VSum _ _ => GLYPH_SUM
  end.

Record glyph_canon_opts_t := mk_opts
  { auto_tabular : bool;
    min_rows : Z;
    max_cols : Z;
    allow_missing : bool;
    null_style : glyph_null_style_t }.

(** *** Constructors *)

Definition glyph_null : glyph_value_t := VNull.
Definition glyph_bool (val : bool) : glyph_value_t := VBool val.
Definition glyph_int (val : Z) : glyph_value_t := VInt val.
Definition glyph_float (val : double) : glyph_value_t := VFloat val.
Definition glyph_str (val : option string) : glyph_value_t :=
  VStr (strdup_safe val).
Definition glyph_bytes (data : list Byte.byte) : glyph_value_t := VBytes data.
Definition glyph_id (prefix value : option string) : glyph_value_t :=
  VId (strdup_safe (Some (match prefix with Some p => p | None => EmptyString end)))
      (strdup_safe value).
Definition glyph_list_new : glyph_value_t := VList [].
Definition glyph_map_new : glyph_value_t := VMap [].
Definition glyph_struct_new (type_name : option string) : glyph_value_t :=
  VStruct (strdup_safe type_name) [].
Definition glyph_sum (tag : option string) (value : option glyph_value_t)
  : glyph_value_t :=
  VSum (strdup_safe tag) value.

(** *** Mutators

A mutator works through a pointer to the container; here it takes
the object the pointer refers to ([None] for [NULL]) and returns
that object as the call leaves it. *)

Definition glyph_list_append (list item : option glyph_value_t)
  : option glyph_value_t :=
  match list, item with
  | Some (VList items), Some it => Some (VList (items ++ [it]))
  | _, _ => list
  end.

Definition glyph_map_set (map : option glyph_value_t) (key : option string)
    (value : option glyph_value_t) : option glyph_value_t :=
  match map, key, value with
  | Some (VMap entries), Some k, Some v => Some (VMap (entries ++ [(c_str k, v)]))
  | _, _, _ => map
  end.

Definition glyph_struct_set (s : option glyph_value_t) (key : option string)
    (value : option glyph_value_t) : option glyph_value_t :=
  match s, key, value with
  | Some (VStruct tn fields), Some k, Some v =>
      Some (VStruct tn (fields ++ [(c_str k, v)]))
  | _, _, _ => s
  end.

(** *** Accessors *)

Definition glyph_get_type (v : option glyph_value_t) : glyph_type_t :=
  match v with
  | Some v => type_of v
  | None => GLYPH_NULL
  end.

Definition glyph_as_bool (v : option glyph_value_t) : bool :=
  match v with Some (VBool b) => b | _ => false end.

Definition glyph_as_int (v : option glyph_value_t) : Z :=
  match v with Some (VInt n) => n | _ => 0 end.

Definition glyph_as_str (v : option glyph_value_t) : option string :=
  match v with Some (VStr s) => s | _ => None end.

Definition glyph_list_len (v : option glyph_value_t) : Z :=
  match v with Some (VList items) => Z.of_nat (List.length items) | _ => 0 end.

Definition glyph_list_get (v : option glyph_value_t) (index : Z)
  : option glyph_value_t :=
  match v with
  | Some (VList items) =>
      if (index <? 0) || (Z.of_nat (List.length items) <=? index) then None
      else nth_error items (Z.to_nat index)
  | _ => None
  end.

(** The first entry whose key is [key]. *)
Fixpoint find_entry {A : Type} (entries : list (string * A)) (key : string)
  : option A :=
  match entries with
  | [] => None
  | (k, v) :: t => if strcmp k key =? 0 then Some v else find_entry t key
  end.

Definition glyph_get (v : option glyph_value_t) (key : option string)
  : option glyph_value_t :=
  match v, key with
  | Some (VMap entries), Some k => find_entry entries k
  | Some (VStruct _ fields), Some k => find_entry fields k
  | _, _ => None
  end.

(** *** Canonicalization options *)

Definition glyph_canon_opts_default : glyph_canon_opts_t :=
  {| auto_tabular := true;
     min_rows := 3;
     max_cols := 64;
     allow_missing := true;
     null_style := GLYPH_NULL_UNDERSCORE |}.

Definition glyph_canon_opts_llm : glyph_canon_opts_t :=
  glyph_canon_opts_default.

Definition glyph_canon_opts_pretty : glyph_canon_opts_t :=
  let opts := glyph_canon_opts_default in
  {| auto_tabular := auto_tabular opts;
     min_rows := min_rows opts;
     max_cols := max_cols opts;
     allow_missing := allow_missing opts;
     null_style := GLYPH_NULL_SYMBOL |}.

Definition glyph_canon_opts_no_tabular : glyph_canon_opts_t :=
  let opts := glyph_canon_opts_default in
  {| auto_tabular := false;
     min_rows := min_rows opts;
     max_cols := max_cols opts;
     allow_missing := allow_missing opts;
     null_style := null_style opts |}.

(** *** Canonicalization helpers *)

Definition dquote : ascii := "034"%char.
Definition lf : ascii := "010"%char.
Definition cr : ascii := "013"%char.
Definition tab : ascii := "009"%char.
Definition backslash : ascii := "\"%char.

Definition or_empty (s : option string) : string :=
  match s with Some s => s | None => EmptyString end.

Definition canon_null (style : glyph_null_style_t) : string :=
  match style with
  | GLYPH_NULL_SYMBOL => "∅"
  | GLYPH_NULL_UNDERSCORE => "_"
  end.

Definition bare_byte (c : ascii) : bool :=
  isalnum c || Ascii.eqb c "_" || Ascii.eqb c "-" || Ascii.eqb c "."
  || Ascii.eqb c "/" || Ascii.eqb c "@" || Ascii.eqb c ":" || (127 <? uchar c).

Definition is_bare_safe (s : option string) : bool :=
  match s with
  | None | Some EmptyString => false
  | Some (String first _ as s) =>
      if isdigit first || Ascii.eqb first dquote || Ascii.eqb first "'"
         || Ascii.eqb first "-"
      then false
      else if (strcmp s "t" =? 0) || (strcmp s "f" =? 0)
              || (strcmp s "true" =? 0) || (strcmp s "false" =? 0)
              || (strcmp s "null" =? 0) || (strcmp s "_" =? 0)
      then false
      else all_bytes bare_byte s
  end.

Definition ref_bare_byte (c : ascii) : bool :=
  isalnum c || Ascii.eqb c "_" || Ascii.eqb c "-" || Ascii.eqb c "."
  || (127 <? uchar c).

Definition is_ref_bare_safe (s : option string) : bool :=
  match s with
  | None | Some EmptyString => false
  | Some s => all_bytes ref_bare_byte s
  end.

(** The text one byte contributes between the quotes. *)
Definition quoted_byte (c : ascii) : string :=
  if Ascii.eqb c backslash then String backslash (str1 backslash)
  else if Ascii.eqb c dquote then String backslash (str1 dquote)
  else if Ascii.eqb c lf then String backslash "n"
  else if Ascii.eqb c cr then String backslash "r"
  else if Ascii.eqb c tab then String backslash "t"
  else if uchar c <? 32 then fmt_u04x (uchar c)
  else str1 c.

Fixpoint quoted_body (s : string) : string :=
  match s with
  | EmptyString => EmptyString
  | String c t => quoted_byte c ++ quoted_body t
  end.

Definition write_quoted_string (s : string) : string :=
  str1 dquote ++ quoted_body s ++ str1 dquote.

Definition write_canon_string (s : string) : string :=
  if is_bare_safe (Some s) then s else write_quoted_string s.

Definition b64 : string :=
  "ABCDEFGHIJKLMNOPQRSTUVWXYZabcdefghijklmnopqrstuvwxyz0123456789+/".

Definition b64_at (i : Z) : ascii :=
  match String.get (Z.to_nat i) b64 with
  | Some c => c
  | None => "="%char
  end.

Definition byte_val (b : Byte.byte) : Z := Z.of_N (Byte.to_N b).

(** The Base64 loop, three bytes of input to four characters. *)
Fixpoint base64 (data : list Byte.byte) : string :=
  match data with
  | [] => EmptyString
  | [x] =>
      let n := Z.shiftl (byte_val x) 16 in
      String (b64_at (Z.land (Z.shiftr n 18) 63))
        (String (b64_at (Z.land (Z.shiftr n 12) 63)) "==")
  | [x; y] =>
      let n := Z.lor (Z.shiftl (byte_val x) 16) (Z.shiftl (byte_val y) 8) in
      String (b64_at (Z.land (Z.shiftr n 18) 63))
        (String (b64_at (Z.land (Z.shiftr n 12) 63))
          (String (b64_at (Z.land (Z.shiftr n 6) 63)) "="))
  | x :: y :: z :: t =>
      let n := Z.lor (Z.lor (Z.shiftl (byte_val x) 16) (Z.shiftl (byte_val y) 8))
                     (byte_val z) in
      String (b64_at (Z.land (Z.shiftr n 18) 63))
        (String (b64_at (Z.land (Z.shiftr n 12) 63))
          (String (b64_at (Z.land (Z.shiftr n 6) 63))
            (String (b64_at (Z.land n 63)) (base64 t))))
  end.

(** *** Containers

The container writers are written once for any type [A] of entry
payload and any way [render] of writing one, so that they serve both
the recursion of [write_canon_value] and the statements about it. *)

(** The entries of a Map, the fields of a Struct. *)
Definition item_entries (item : glyph_value_t)
  : option (list (string * glyph_value_t)) :=
  match item with
  | VMap entries => Some entries
  | VStruct _ fields => Some fields
  | _ => None
  end.

Section Containers.
  Context {A : Type}.
  Variable render : A -> string.
  Variable opts : glyph_canon_opts_t.

  (** Where [malloc] puts the copy [strdup_safe] makes of the [k]-th
      column key of a table: the rank of the pointer to it in the order
      in which [strcmp] leaves the bytes of two pointers (see
      [check_homogeneous]). *)
  Variable place : nat -> Z.

Definition compare_entries (ea eb : string * A) : Z :=
  strcmp (fst ea) (fst eb).

Definition write_entry (e : string * A) : string :=
  write_canon_string (fst e) ++ "=" ++ render (snd e).

Definition write_canon_map (entries : list (string * A)) : string :=
  "{" ++ concat " " (map write_entry (qsort compare_entries entries)) ++ "}".

Definition has_key (entries : list (string * A)) (key : string) : bool :=
  existsb (fun e => strcmp (fst e) key =? 0) entries.

Definition known_key (all_keys : list string) (key : string) : bool :=
  existsb (fun k => strcmp k key =? 0) all_keys.

(** First pass of [check_homogeneous], one item: its keys not seen so
    far are added at the end of [all_keys]. *)
Fixpoint add_keys (entries : list (string * A)) (all_keys : list string)
  : list string :=
  match entries with
  | [] => all_keys
  | (key, _) :: t =>
      add_keys t (if known_key all_keys key then all_keys
                  else all_keys ++ [key])
  end.

(** First pass, all items; an item that is neither Map nor Struct
    ends the test ([None]). *)
Fixpoint collect_keys (items : list (option (list (string * A))))
    (all_keys : list string) : option (list string) :=
  match items with
  | [] => Some all_keys
  | None :: _ => None
  | Some entries :: t => collect_keys t (add_keys entries all_keys)
  end.

Definition in_all (items : list (option (list (string * A))))
    (key : string) : bool :=
  forallb (fun item => match item with
                       | Some entries => has_key entries key
                       | None => false
                       end) items.

Definition common_count (items : list (option (list (string * A))))
    (all_keys : list string) : Z :=
  Z.of_nat (List.length (filter (in_all items) all_keys)).

(** The comparator [qsort] is given in [check_homogeneous]: [strcmp]
    cast to the type of a comparator.  [qsort] hands it the addresses of
    two elements of [all_keys], so that [strcmp] compares the bytes of
    the two stored pointers, and not the keys they point to.  An element
    is a key together with the rank of the pointer to it. *)
Definition compare_pointers (a b : string * Z) : Z := snd a - snd b.

(** The call of [qsort] on [all_keys] with that comparator: the keys in
    the order of the pointers to their copies. *)
Definition sort_columns (all_keys : list string) : list string :=
  map fst (qsort compare_pointers
             (combine all_keys (map place (seq 0 (List.length all_keys))))).

(** [check_homogeneous]: [Some cols] for [true] with [*out_cols = cols]. *)
Definition check_homogeneous (items : list (option (list (string * A))))
  : option (list string) :=
  if Z.of_nat (List.length items) <? min_rows opts then None
  else
    match collect_keys items [] with
    | None => None
    | Some all_keys =>
        let all_keys_count := Z.of_nat (List.length all_keys) in
        if (all_keys_count =? 0) || (max_cols opts <? all_keys_count)
        then None
        else if common_count items all_keys * 2 <? all_keys_count then None
        else Some (sort_columns all_keys)
    end.

Definition write_cell (entries : list (string * A)) (col : string) : string :=
  match find_entry entries col with
  | Some cell_val => render cell_val
  | None => canon_null (null_style opts)
  end ++ "|".

Definition write_row (cols : list string)
    (item : option (list (string * A))) : string :=
  let entries := match item with Some entries => entries | None => [] end in
  "|" ++ concat "" (map (write_cell entries) cols) ++ str1 lf.

Definition write_tabular (items : list (option (list (string * A))))
    (cols : list string) : string :=
  "@tab _ rows=" ++ fmt_lu (Z.of_nat (List.length items))
  ++ " cols=" ++ fmt_lu (Z.of_nat (List.length cols)) ++ " ["
  ++ concat " " (map write_canon_string cols) ++ "]" ++ str1 lf
  ++ concat "" (map (write_row cols) items)
  ++ "@end".

Context {B : Type}.
Variable render_item : B -> string.
Variable view : B -> option (list (string * A)).

Definition write_canon_list (items : list B) : string :=
  match (if auto_tabular opts then check_homogeneous (map view items)
         else None) with
  | Some cols => write_tabular (map view items) cols
  | None => "[" ++ concat " " (map render_item items) ++ "]"
  end.
End Containers.

(** *** The writer

[write_canon_value] below is the [switch] of the C function, for a
pointer that is not [NULL]; [write_canon_value_at] adds the test for
[NULL] in front.  The children of a container are written first and
the container writers then work on their texts.

One call of [glyph_canonicalize_loose] may write several tables, each
with copies of its keys of its own.  A [placement] tells for every
table where the copies are: it takes the path from the value being
written to the list (the positions of the children passed on the way)
and the number of the key.  [below pl i] is the placement seen from the
[i]-th child. *)

Definition placement := list nat -> nat -> Z.

Definition below (pl : placement) (i : nat) : placement :=
  fun path => pl (i :: path).

(** The same layout of the copies for every table. *)
Definition uniform (place : nat -> Z) : placement := fun _ => place.

(** The copies at increasing addresses, in the order of their allocation. *)
Definition ascending : placement := uniform Z.of_nat.

(** The copies at decreasing addresses. *)
Definition descending : placement := uniform (fun k => - Z.of_nat k).

Section MapFrom.
  Context {A B : Type}.
  Variable f : nat -> A -> B.

(** [f i x] for every element [x] with its position [i], counted from [i0]. *)
Fixpoint map_from (i0 : nat) (l : list A) : list B :=
  match l with
  | [] => []
  | x :: t => f i0 x :: map_from (S i0) t
  end.
End MapFrom.

Fixpoint write_canon_value (pl : placement) (opts : glyph_canon_opts_t)
    (v : glyph_value_t) : string :=
  match v with
  | VNull => canon_null (null_style opts)
  | VBool bool_val => if bool_val then "t" else "f"
  | VInt int_val => fmt_ld (Printf.to_long int_val)
  | VFloat float_val =>
      let f := if feq float_val d_0 then d_0 else float_val in
      if feq f (floor f) && flt (fabs f) d_1e15
      then fmt_ld (Double.to_long f)
      else fmt_g15 f
  | VStr str_val => write_canon_string (or_empty str_val)
  | VBytes data => "b64" ++ str1 dquote ++ base64 data ++ str1 dquote
  | VTime time_val => strftime_iso (gmtime (Z.quot time_val 1000))
  | VId prefix value =>
      "^"
      ++ match prefix with
         | Some (String _ _ as p) => p ++ ":"
         | _ => EmptyString
         end
      ++ (if is_ref_bare_safe value then or_empty value
          else write_quoted_string (or_empty value))
  | VList items =>
      write_canon_list (fun s : string => s) opts (pl []) snd fst
        (map_from
           (fun i item =>
              (match item with
               | VMap entries =>
                   Some (map_from
                           (fun j e =>
                              (fst e,
                               write_canon_value (below (below pl i) j) opts (snd e)))
                           0 entries)
               | VStruct _ fields =>
                   Some (map_from
                           (fun j e =>
                              (fst e,
                               write_canon_value (below (below pl i) j) opts (snd e)))
                           0 fields)
               | _ => None
               end,
               write_canon_value (below pl i) opts item))
           0 items)
  | VMap entries =>
      write_canon_map (fun s : string => s)
        (map_from (fun j e => (fst e, write_canon_value (below pl j) opts (snd e)))
                  0 entries)
  | VStruct type_name fields =>
      or_empty type_name
      ++ write_canon_map (fun s : string => s)
           (map_from (fun j e => (fst e, write_canon_value (below pl j) opts (snd e)))
                     0 fields)
  | VSum tag value =>
      or_empty tag ++ "("
      ++ match value with
         | Some inner => write_canon_value (below pl 0) opts inner
         | None => EmptyString
         end
      ++ ")"
  end.

Definition write_canon_value_at (pl : placement) (opts : glyph_canon_opts_t)
    (v : option glyph_value_t) : string :=
  match v with
  | None => canon_null (null_style opts)
  | Some v => write_canon_value pl opts v
  end.

(** *** Public canonicalization functions

Each takes, in front of the arguments of the C function, the placement
of the call; two calls have two placements. *)

Definition glyph_canonicalize_loose_with_opts (pl : placement)
    (v : option glyph_value_t) (opts : glyph_canon_opts_t) : option string :=
  Some (write_canon_value_at pl opts v).

Definition glyph_canonicalize_loose (pl : placement) (v : option glyph_value_t)
  : option string :=
  glyph_canonicalize_loose_with_opts pl v glyph_canon_opts_default.

Definition glyph_canonicalize_loose_no_tabular (pl : placement)
    (v : option glyph_value_t) : option string :=
  glyph_canonicalize_loose_with_opts pl v glyph_canon_opts_no_tabular.

Definition glyph_fingerprint_loose (pl : placement) (v : option glyph_value_t)
  : option string :=
  glyph_canonicalize_loose pl v.


End Glyph.
Import Glyph.


(** ** The JSON bridge ([json.c]) *)

Module Json.

(** The state of a [json_parser_t] is the part of the input that is still
    to be read, [input + pos] up to [len].  A parsing function returns the
    value it built together with the input left, fails ([NULL]), or stops
    for lack of fuel, the bound that stands for the nesting and the loops
    of the C functions; [glyph_from_json] supplies enough of it. *)
Inductive parse_result (A : Type) :=
| Parsed (a : A) (rest : string)
| Failed
| OutOfFuel.
Arguments Parsed {A} a rest.
Arguments Failed {A}.
Arguments OutOfFuel {A}.

Definition skip_whitespace (p : string) : string := skip_space p.

(** [peek]: the next character after white space, NUL at the end. *)
Definition peek (p : string) : ascii * string :=
  let p := skip_whitespace p in
  match p with
  | String c _ => (c, p)
  | EmptyString => ("000"%char, p)
  end.

(** [next]: as [peek], and the character is consumed. *)
Definition next (p : string) : ascii * string :=
  let p := skip_whitespace p in
  match p with
  | String c t => (c, t)
  | EmptyString => ("000"%char, p)
  end.

Fixpoint strip_prefix (s p : string) : option string :=
  match s, p with
  | EmptyString, _ => Some p
  | String a s', String b p' => if Ascii.eqb a b then strip_prefix s' p' else None
  | String _ _, EmptyString => None
  end.

(** [match]: [Some] of the input after [s] when the input continues with
    [s] (after white space), [None] for [false]. *)
Definition match_ (p s : string) : option string :=
  strip_prefix s (skip_whitespace p).

Definition hex_value (c : ascii) : option Z :=
  if isdigit c then Some (uchar c - 48)
  else if (97 <=? uchar c) && (uchar c <=? 102) then Some (uchar c - 87)
  else if (65 <=? uchar c) && (uchar c <=? 70) then Some (uchar c - 55)
  else None.

Fixpoint read_hex (s : string) (acc : Z) : Z :=
  match s with
  | String c t =>
      match hex_value c with
      | Some d => read_hex t (acc * 16 + d)
      | None => acc
      end
  | EmptyString => acc
  end.

(** [strtoul(hex, NULL, 16)] stored into an [unsigned int]: white space and
    a sign are accepted, and a [0x] in front of a hexadecimal digit. *)
Definition strtoul16 (hex : string) : Z :=
  let '(neg, s) := read_sign (skip_space hex) in
  let digits :=
    match s with
    | String "0" (String x (String h t)) =>
        if (Ascii.eqb x "x" || Ascii.eqb x "X")
           && match hex_value h with Some _ => true | None => false end
        then String h t else s
    | _ => s
    end in
  let v := read_hex digits 0 in
  ((if neg then 2 ^ 64 - v else v) mod 2 ^ 64) mod 2 ^ 32.

(** The bytes a [\uXXXX] escape stores: the UTF-8 form of the code. *)
Definition utf8_bytes (code : Z) : string :=
  if code <? 128 then str1 (chr code)
  else if code <? 2048 then
    String (chr (Z.lor 192 (Z.shiftr code 6)))
           (str1 (chr (Z.lor 128 (Z.land code 63))))
  else
    String (chr (Z.lor 224 (Z.shiftr code 12)))
      (String (chr (Z.lor 128 (Z.land (Z.shiftr code 6) 63)))
         (str1 (chr (Z.lor 128 (Z.land code 63))))).

Definition unescape (c : ascii) : ascii :=
  if Ascii.eqb c "n" then lf
  else if Ascii.eqb c "r" then cr
  else if Ascii.eqb c "t" then tab
  else c.

Definition push (s : string) (r : option (string * string))
  : option (string * string) :=
  match r with
  | Some (body, rest) => Some (s ++ body, rest)
  | None => None
  end.

(** The loop of [parse_string], from the character after the opening
    quote: the bytes stored into [str] and the input after the closing
    quote, [None] when the input ends first. *)
Fixpoint parse_string_loop (p : string) : option (string * string) :=
  match p with
  | EmptyString => None
  | String c t =>
      if Ascii.eqb c dquote then Some (EmptyString, t)
      else if Ascii.eqb c backslash then
        match t with
        | EmptyString => None
        | String e t' =>
            if Ascii.eqb e "u" then
              match t' with
              | String h1 (String h2 (String h3 (String h4 rest))) =>
                  push (utf8_bytes
                          (strtoul16 (String h1 (String h2 (String h3 (str1 h4))))))
                       (parse_string_loop rest)
              | _ => push "u" (parse_string_loop t')
              end
            else push (str1 (unescape e)) (parse_string_loop t')
        end
      else push (str1 c) (parse_string_loop t)
  end.

Definition parse_string (p : string) : option (string * string) :=
  let '(c, p) := next p in
  if Ascii.eqb c dquote then parse_string_loop p else None.

Definition is_float_mark (s : string) : bool :=
  match s with
  | String c _ => Ascii.eqb c "." || Ascii.eqb c "e" || Ascii.eqb c "E"
  | EmptyString => false
  end.

Definition parse_number (p : string) : parse_result glyph_value_t :=
  let start := skip_whitespace p in
  match strtoll start with
  | Some (int_val, end_) =>
      if is_float_mark end_ then
        match strtod start with
        | Some (float_val, end_) => Parsed (glyph_float float_val) end_
        | None => Parsed (glyph_float d_0) start
        end
      else Parsed (glyph_int int_val) end_
  | None => Failed
  end.

(** What a parsing function returns for the container it has built. *)
Definition ret (v : option glyph_value_t) (p : string) : parse_result glyph_value_t :=
  match v with
  | Some v => Parsed v p
  | None => Failed
  end.

Section Containers.
(** [parse_value] at the nesting depth below the container. *)
Variable parse_value : string -> parse_result glyph_value_t.

(** The [while (1)] of [parse_array], at most [n] rounds. *)
Fixpoint parse_array_loop (n : nat) (list : option glyph_value_t) (p : string)
  : parse_result glyph_value_t :=
  match n with
  | O => OutOfFuel
  | S n' =>
      match parse_value p with
      | Parsed item p =>
          let list := glyph_list_append list (Some item) in
          let '(c, p) := peek (skip_whitespace p) in
          if Ascii.eqb c "]" then ret list (snd (next p))
          else if negb (Ascii.eqb c ",") then Failed
          else parse_array_loop n' list (snd (next p))
      | Failed => Failed
      | OutOfFuel => OutOfFuel
      end
  end.

Definition parse_array (n : nat) (p : string) : parse_result glyph_value_t :=
  let '(c, p) := next p in
  if negb (Ascii.eqb c "[") then Failed
  else
    let list := Some glyph_list_new in
    let '(c, p) := peek (skip_whitespace p) in
    if Ascii.eqb c "]" then ret list (snd (next p))
    else parse_array_loop n list p.

(** The [while (1)] of [parse_object], at most [n] rounds. *)
Fixpoint parse_object_loop (n : nat) (map : option glyph_value_t) (p : string)
  : parse_result glyph_value_t :=
  match n with
  | O => OutOfFuel
  | S n' =>
      let '(c, p) := peek (skip_whitespace p) in
      if negb (Ascii.eqb c dquote) then Failed
      else
        match parse_string p with
        | None => Failed
        | Some (key, p) =>
            let '(c, p) := next (skip_whitespace p) in
            if negb (Ascii.eqb c ":") then Failed
            else
              match parse_value p with
              | Parsed value p =>
                  let map := glyph_map_set map (Some key) (Some value) in
                  let '(c, p) := peek (skip_whitespace p) in
                  if Ascii.eqb c "}" then ret map (snd (next p))
                  else if negb (Ascii.eqb c ",") then Failed
                  else parse_object_loop n' map (snd (next p))
              | Failed => Failed
              | OutOfFuel => OutOfFuel
              end
        end
  end.

Definition parse_object (n : nat) (p : string) : parse_result glyph_value_t :=
  let '(c, p) := next p in
  if negb (Ascii.eqb c "{") then Failed
  else
    let map := Some glyph_map_new in
    let '(c, p) := peek (skip_whitespace p) in
    if Ascii.eqb c "}" then ret map (snd (next p))
    else parse_object_loop n map p.
End Containers.

Fixpoint parse_value (fuel : nat) (p : string) : parse_result glyph_value_t :=
  match fuel with
  | O => OutOfFuel
  | S fuel' =>
      let '(c, p) := peek (skip_whitespace p) in
      match (if Ascii.eqb c "n" then match_ p "null" else None) with
      | Some p => Parsed glyph_null p
      | None =>
      match (if Ascii.eqb c "t" then match_ p "true" else None) with
      | Some p => Parsed (glyph_bool true) p
      | None =>
      match (if Ascii.eqb c "f" then match_ p "false" else None) with
      | Some p => Parsed (glyph_bool false) p
      | None =>
          if Ascii.eqb c dquote then
            match parse_string p with
            | None => Failed
            | Some (s, p) => Parsed (glyph_str (Some s)) p
            end
          else if Ascii.eqb c "[" then parse_array (parse_value fuel') fuel' p
          else if Ascii.eqb c "{" then parse_object (parse_value fuel') fuel' p
          else if Ascii.eqb c "-" || isdigit c then parse_number p
          else Failed
      end end end
  end.

(** Enough fuel for an input: it has no more levels of nesting and no
    more elements in a container than it has bytes. *)
Definition fuel_for (input : string) : nat := S (String.length input).

Definition glyph_from_json (json : option string) : option glyph_value_t :=
  match json with
  | None => None
  | Some json =>
      let input := c_str json in
      match parse_value (fuel_for input) input with
      | Parsed v _ => Some v
      | _ => None
      end
  end.

(** *** Serialization *)

(** [write_json_string] has the loop of [write_quoted_string]. *)
Definition write_json_string (s : string) : string :=
  str1 dquote ++ quoted_body s ++ str1 dquote.

Definition write_json_entry (f : glyph_value_t -> string)
    (e : string * glyph_value_t) : string :=
  write_json_string (fst e) ++ ":" ++ f (snd e).

Fixpoint write_json_value (v : glyph_value_t) : string :=
  match v with
  | VNull => "null"
  | VBool bool_val => if bool_val then "true" else "false"
  | VInt int_val => fmt_ld (Printf.to_long int_val)
  | VFloat float_val => fmt_g15 float_val
  | VStr str_val => write_json_string (or_empty str_val)
  | VBytes data => str1 dquote ++ base64 data ++ str1 dquote
  | VId prefix value =>
      str1 dquote ++ "^"
      ++ match prefix with
         | Some (String _ _ as p) => p ++ ":"
         | _ => EmptyString
         end
      ++ or_empty value ++ str1 dquote
  | VList items => "[" ++ concat "," (map write_json_value items) ++ "]"
  | VMap entries =>
      "{" ++ concat "," (map (write_json_entry write_json_value) entries) ++ "}"
  | VStruct type_name fields =>
      "{" ++ str1 dquote ++ "_type" ++ str1 dquote ++ ":"
      ++ write_json_string (or_empty type_name)
      ++ concat "" (map (fun e => "," ++ write_json_entry write_json_value e) fields)
      ++ "}"
  | VSum tag value =>
      "{" ++ str1 dquote ++ "_tag" ++ str1 dquote ++ ":"
      ++ write_json_string (or_empty tag)
      ++ match value with
         | Some inner =>
             "," ++ str1 dquote ++ "_value" ++ str1 dquote ++ ":"
             ++ write_json_value inner
         | None => EmptyString
         end
      ++ "}"
  | VTime time_val =>
      str1 dquote ++ strftime_iso (gmtime (Z.quot time_val 1000)) ++ str1 dquote
  end.

Definition glyph_to_json (v : option glyph_value_t) : option string :=
  Some match v with
       | None => "null"
       | Some v => write_json_value v
       end.

End Json.
Import Json.

(** ** Well-formed JSON

    The grammar of RFC 8259, as a recognizer: each function returns the
    input that follows what it recognizes, [None] when the input does not
    begin with it. *)

Module Rfc8259.

(** ws = *( %x20 / %x09 / %x0A / %x0D ) *)
Definition is_ws_char (c : ascii) : bool :=
  (uchar c =? 32) || (uchar c =? 9) || (uchar c =? 10) || (uchar c =? 13).

Fixpoint ws (p : string) : string :=
  match p with
  | String c t => if is_ws_char c then ws t else p
  | EmptyString => p
  end.

Definition is_hexdig (c : ascii) : bool :=
  match hex_value c with Some _ => true | None => false end.

Definition is_escape (c : ascii) : bool :=
  Ascii.eqb c dquote || Ascii.eqb c backslash || Ascii.eqb c "/"
  || Ascii.eqb c "b" || Ascii.eqb c "f" || Ascii.eqb c "n" || Ascii.eqb c "r"
  || Ascii.eqb c "t".

(** string = quotation-mark *char quotation-mark, from the first char on:
    unescaped bytes from %x20 on except the quote and the backslash, the
    two-character escapes, and [\u] with four hexadecimal digits. *)
Fixpoint chars (p : string) : option string :=
  match p with
  | EmptyString => None
  | String c t =>
      if Ascii.eqb c dquote then Some t
      else if Ascii.eqb c backslash then
        match t with
        | String e t' =>
            if is_escape e then chars t'
            else if Ascii.eqb e "u" then
              match t' with
              | String h1 (String h2 (String h3 (String h4 rest))) =>
                  if is_hexdig h1 && is_hexdig h2 && is_hexdig h3 && is_hexdig h4
                  then chars rest else None
              | _ => None
              end
            else None
        | EmptyString => None
        end
      else if uchar c <? 32 then None
      else chars t
  end.

Fixpoint digits (p : string) : string :=
  match p with
  | String c t => if isdigit c then digits t else p
  | EmptyString => p
  end.

(** 1*DIGIT *)
Definition digits1 (p : string) : option string :=
  match p with
  | String c t => if isdigit c then Some (digits t) else None
  | EmptyString => None
  end.

(** int = zero / ( digit1-9 *DIGIT ) *)
Definition int_part (p : string) : option string :=
  match p with
  | String c t =>
      if Ascii.eqb c "0" then Some t
      else if isdigit c then Some (digits t)
      else None
  | EmptyString => None
  end.

(** [ frac ], frac = decimal-point 1*DIGIT: a point that no digit follows
    is not part of the number. *)
Definition frac_part (q : string) : string :=
  match q with
  | String c t =>
      if Ascii.eqb c "." then
        match digits1 t with Some r => r | None => q end
      else q
  | EmptyString => q
  end.

(** [ exp ], exp = e [ minus / plus ] 1*DIGIT: an exponent mark that no
    digits follow is not part of the number. *)
Definition exp_part (q : string) : string :=
  match q with
  | String c t =>
      if Ascii.eqb c "e" || Ascii.eqb c "E" then
        match digits1 (match t with
                       | String s t' =>
                           if Ascii.eqb s "-" || Ascii.eqb s "+" then t' else t
                       | EmptyString => t
                       end) with
        | Some r => r
        | None => q
        end
      else q
  | EmptyString => q
  end.

(** number = [ minus ] int [ frac ] [ exp ]: the longest number at the
    start of the input. *)
Definition number (p : string) : option string :=
  let p := match p with
           | String c t => if Ascii.eqb c "-" then t else p
           | EmptyString => p
           end in
  match int_part p with
  | Some q => Some (exp_part (frac_part q))
  | None => None
  end.

Section Containers.
Variable value : string -> option string.

(** value *( ws "," value ) ws "]", from the first value on *)
Fixpoint elements (n : nat) (p : string) : option string :=
  match n with
  | O => None
  | S n' =>
      match value p with
      | Some p =>
          match ws p with
          | String c t =>
              if Ascii.eqb c "]" then Some t
              else if Ascii.eqb c "," then elements n' t
              else None
          | EmptyString => None
          end
      | None => None
      end
  end.

(** member *( ws "," ws member ) ws "}", member = string ws ":" value *)
Fixpoint members (n : nat) (p : string) : option string :=
  match n with
  | O => None
  | S n' =>
      match ws p with
      | String q t =>
          if Ascii.eqb q dquote then
            match chars t with
            | Some p =>
                match ws p with
                | String c t =>
                    if Ascii.eqb c ":" then
                      match value t with
                      | Some p =>
                          match ws p with
                          | String c t =>
                              if Ascii.eqb c "}" then Some t
                              else if Ascii.eqb c "," then members n' t
                              else None
                          | EmptyString => None
                          end
                      | None => None
                      end
                    else None
                | EmptyString => None
                end
            | None => None
            end
          else None
      | EmptyString => None
      end
  end.
End Containers.

(** ws value, with [fuel] levels of nesting *)
Fixpoint value (fuel : nat) (p : string) : option string :=
  match fuel with
  | O => None
  | S fuel' =>
      match ws p with
      | String c t as p =>
          if Ascii.eqb c "n" then strip_prefix "null" p
          else if Ascii.eqb c "t" then strip_prefix "true" p
          else if Ascii.eqb c "f" then strip_prefix "false" p
          else if Ascii.eqb c dquote then chars t
          else if Ascii.eqb c "[" then
            match ws t with
            | String c' t' as q =>
                if Ascii.eqb c' "]" then Some t' else elements (value fuel') fuel' q
            | EmptyString => None
            end
          else if Ascii.eqb c "{" then
            match ws t with
            | String c' t' as q =>
                if Ascii.eqb c' "}" then Some t' else members (value fuel') fuel' q
            | EmptyString => None
            end
          else number p
      | EmptyString => None
      end
  end.

(** The input has a well-formed JSON value at its start. *)
Definition well_formed_prefix (input : string) : bool :=
  match value (S (String.length input)) input with
  | Some _ => true
  | None => false
  end.

End Rfc8259.

(** * Properties *)

(** ** Texts *)

Lemma append_nil_r (s : string) : s ++ "" = s.
Proof. induction s as [|c s IH]; simpl; [reflexivity | now rewrite IH]. Qed.

Lemma append_assoc (a b c : string) : (a ++ b) ++ c = a ++ (b ++ c).
Proof. induction a as [|x a IH]; simpl; [reflexivity | now rewrite IH]. Qed.

Lemma append_length (a b : string) :
  String.length (a ++ b) = (String.length a + String.length b)%nat.
Proof. induction a as [|x a IH]; simpl; [reflexivity | now rewrite IH]. Qed.

Lemma append_inv_head (a b c : string) : a ++ b = a ++ c -> b = c.
Proof.
  induction a as [|x a IH]; simpl; intros H; [assumption|].
  injection H as H. now apply IH.
Qed.

(** [s] begins with [p]; [s] ends with [q]. *)
Definition begins_with (p s : string) : Prop := exists t, s = p ++ t.
Definition ends_with (q s : string) : Prop := exists t, s = t ++ q.

Lemma begins_with_append (p a b : string) :
  begins_with p a -> begins_with p (a ++ b).
Proof. intros [t ->]. exists (t ++ b). apply append_assoc. Qed.

Lemma ends_with_append (q a b : string) :
  ends_with q b -> ends_with q (a ++ b).
Proof. intros [t ->]. exists (a ++ t). symmetry. apply append_assoc. Qed.

Lemma begins_with_first (p s : string) (c d : ascii) :
  begins_with (String c p) (String d s) -> c = d.
Proof. intros [t H]. simpl in H. now injection H. Qed.

(** ** [strcmp] is a total order on texts *)

Lemma uchar_inj (a b : ascii) : uchar a = uchar b -> a = b.
Proof.
  unfold uchar. intros H. apply Nat2Z.inj in H.
  rewrite <- (ascii_nat_embedding a), <- (ascii_nat_embedding b). now rewrite H.
Qed.

Lemma uchar_range (c : ascii) : 0 <= uchar c < 256.
Proof.
  unfold uchar. pose proof (nat_ascii_bounded c). lia.
Qed.

(** Brings the range of every byte in sight into the context. *)
Ltac uchar_bounds :=
  repeat match goal with
         | u : ascii |- _ =>
             lazymatch goal with
             | _ : 0 <= uchar u < 256 |- _ => fail
             | _ => pose proof (uchar_range u)
             end
         end.

Lemma strcmp_refl (a : string) : strcmp a a = 0.
Proof. induction a as [|c a IH]; simpl; [reflexivity|]. now rewrite Z.eqb_refl. Qed.

Lemma is_c_str_cons (c : ascii) (s : string) :
  is_c_str (String c s) = true <-> uchar c <> 0 /\ is_c_str s = true.
Proof.
  unfold is_c_str. simpl. destruct (Z.eqb_spec (uchar c) 0); simpl; intuition congruence.
Qed.

Lemma strcmp_eq (a b : string) :
  is_c_str a = true -> is_c_str b = true -> strcmp a b = 0 -> a = b.
Proof.
  revert b. induction a as [|c a IH]; intros [|d b] Ha Hb; simpl; intros H.
  - reflexivity.
  - apply is_c_str_cons in Hb. lia.
  - apply is_c_str_cons in Ha. lia.
  - apply is_c_str_cons in Ha. apply is_c_str_cons in Hb.
    destruct (Z.eqb_spec (uchar c) (uchar d)) as [E|E].
    + apply uchar_inj in E. subst d. f_equal. now apply IH.
    + lia.
Qed.

Lemma strcmp_antisym (a b : string) : Z.sgn (strcmp b a) = - Z.sgn (strcmp a b).
Proof.
  revert b. induction a as [|c a IH]; intros [|d b]; simpl; uchar_bounds;
    try lia.
  rewrite (Z.eqb_sym (uchar d)).
  destruct (Z.eqb_spec (uchar c) (uchar d)); [apply IH | lia].
Qed.

Lemma strcmp_trans (a b c : string) :
  is_c_str a = true -> is_c_str b = true -> is_c_str c = true ->
  strcmp a b <= 0 -> strcmp b c <= 0 -> strcmp a c <= 0.
Proof.
  revert b c. induction a as [|x a IH]; intros [|y b] [|z c] Ha Hb Hc;
    try apply is_c_str_cons in Ha; try apply is_c_str_cons in Hb;
    try apply is_c_str_cons in Hc; simpl; intros H1 H2;
    uchar_bounds; try lia.
  repeat match goal with
         | |- context [ ?u =? ?v ] => destruct (Z.eqb_spec u v)
         | H : context [ ?u =? ?v ] |- _ => destruct (Z.eqb_spec u v)
         end; try lia.
  eapply IH; try eassumption; tauto.
Qed.

Lemma strcmp_total (a b : string) : strcmp a b <= 0 \/ strcmp b a <= 0.
Proof. pose proof (strcmp_antisym a b). lia. Qed.

(** ** Lists *)

Lemma existsb_map {A B : Type} (f : A -> B) (p : B -> bool) (l : list A) :
  existsb p (map f l) = existsb (fun x => p (f x)) l.
Proof. induction l as [|x t IH]; simpl; [reflexivity | now rewrite IH]. Qed.

Lemma forallb_map {A B : Type} (f : A -> B) (p : B -> bool) (l : list A) :
  forallb p (map f l) = forallb (fun x => p (f x)) l.
Proof. induction l as [|x t IH]; simpl; [reflexivity | now rewrite IH]. Qed.

Lemma forallb_ext {A : Type} (p q : A -> bool) (l : list A) :
  (forall x, p x = q x) -> forallb p l = forallb q l.
Proof. intros H. induction l as [|x t IH]; simpl; [reflexivity | now rewrite H, IH]. Qed.

Lemma Forall_map_ext {A B : Type} (f g : A -> B) (l : list A) :
  Forall (fun x => f x = g x) l -> map f l = map g l.
Proof. induction 1; simpl; congruence. Qed.

(** ** [qsort] *)

Section SortFacts.
Context {A : Type}.
Variable cmp : A -> A -> Z.
(** The elements on which [cmp] is known to be an order. *)
Variable ok : A -> Prop.
Hypothesis cmp_total : forall a b, ok a -> ok b -> cmp a b <= 0 \/ cmp b a <= 0.
Hypothesis cmp_trans :
  forall a b c, ok a -> ok b -> ok c -> cmp a b <= 0 -> cmp b c <= 0 -> cmp a c <= 0.

Definition cmp_le (a b : A) : Prop := ok a /\ ok b /\ cmp a b <= 0.

Lemma insert_perm (x : A) (l : list A) : Permutation (x :: l) (insert cmp x l).
Proof.
  induction l as [|y t IH]; simpl; [reflexivity|].
  destruct (cmp x y <=? 0); [reflexivity|].
  rewrite perm_swap. now apply perm_skip.
Qed.

Lemma qsort_perm (l : list A) : Permutation l (qsort cmp l).
Proof.
  induction l as [|x t IH]; simpl; [reflexivity|].
  rewrite <- insert_perm. now apply perm_skip.
Qed.

Lemma insert_sorted (x : A) (l : list A) :
  ok x -> Forall ok l -> StronglySorted cmp_le l ->
  StronglySorted cmp_le (insert cmp x l).
Proof.
  intros Hx Hl Hs. induction Hs as [|y t Hs IH Hy]; simpl.
  - repeat constructor.
  - inversion Hl as [|? ? Hoy Hot]; subst.
    destruct (Z.leb_spec (cmp x y) 0) as [Hle|Hgt].
    + constructor; [now constructor|]. constructor; [now repeat split|].
      rewrite Forall_forall in Hy, Hot |- *. intros z Hz.
      destruct (Hy z Hz) as (_ & Hoz & Hyz).
      repeat split; trivial. now apply (cmp_trans x y z).
    + constructor; [now apply IH|].
      apply (Permutation_Forall (insert_perm x t)). constructor; [|assumption].
      repeat split; trivial. destruct (cmp_total x y Hx Hoy); lia.
Qed.

Lemma qsort_sorted (l : list A) :
  Forall ok l -> StronglySorted cmp_le (qsort cmp l).
Proof.
  induction 1 as [|x t Hx Ht IH]; simpl; [constructor|].
  apply insert_sorted; trivial.
  now apply (Permutation_Forall (qsort_perm t)).
Qed.


End SortFacts.

Lemma qsort_map {A B : Type} (f : A -> B) (cmpA : A -> A -> Z) (cmpB : B -> B -> Z)
    (l : list A) :
  (forall a b, cmpB (f a) (f b) = cmpA a b) ->
  qsort cmpB (map f l) = map f (qsort cmpA l).
Proof.
  intros Hf. induction l as [|x t IH]; simpl; [reflexivity|].
  rewrite IH. generalize (qsort cmpA t). intros l.
  induction l as [|y u IHu]; simpl; [reflexivity|].
  rewrite Hf. destruct (cmpA x y <=? 0); simpl; [reflexivity | now rewrite IHu].
Qed.

(** ** The writer in the shape of the C functions

    [write_canon_value] hands the container writers the texts of the
    children.  The equations below restate it with the container writers
    working on the children themselves, as in the C source. *)

(** The columns of a table as [check_homogeneous] has them before the
    call of [qsort]: the keys in the order of their first occurrence. *)
Definition table_keys {A : Type} (opts : glyph_canon_opts_t)
    (items : list (option (list (string * A)))) : option (list string) :=
  if Z.of_nat (List.length items) <? min_rows opts then None
  else
    match collect_keys items [] with
    | None => None
    | Some all_keys =>
        let all_keys_count := Z.of_nat (List.length all_keys) in
        if (all_keys_count =? 0) || (max_cols opts <? all_keys_count)
        then None
        else if common_count items all_keys * 2 <? all_keys_count then None
        else Some all_keys
    end.

Lemma check_homogeneous_columns {A : Type} (opts : glyph_canon_opts_t)
    (place : nat -> Z) (items : list (option (list (string * A)))) :
  check_homogeneous opts place items
  = option_map (sort_columns place) (table_keys opts items).
Proof.
  unfold check_homogeneous, table_keys.
  destruct (_ <? _); [reflexivity|].
  destruct (collect_keys items []) as [all_keys|]; [|reflexivity].
  cbv zeta. destruct (_ || _); [reflexivity|]. now destruct (_ <? _).
Qed.

Section MappedEntries.
Context {A B : Type}.
(** A change of payload, [h], and a way of writing the new payload, [g]. *)
Variable h : A -> B.
Variable g : B -> string.
Variable opts : glyph_canon_opts_t.
Variable place : nat -> Z.

Definition map_payload (e : string * A) : string * B := (fst e, h (snd e)).

Definition map_view (item : option (list (string * A)))
  : option (list (string * B)) :=
  option_map (map map_payload) item.

Lemma write_canon_map_mapped (entries : list (string * A)) :
  write_canon_map g (map map_payload entries)
  = write_canon_map (fun a => g (h a)) entries.
Proof.
  unfold write_canon_map.
  rewrite (qsort_map map_payload compare_entries compare_entries) by reflexivity.
  now rewrite map_map.
Qed.

Lemma has_key_mapped (entries : list (string * A)) (key : string) :
  has_key (map map_payload entries) key = has_key entries key.
Proof. unfold has_key. now rewrite existsb_map. Qed.

Lemma add_keys_mapped (entries : list (string * A)) (all_keys : list string) :
  add_keys (map map_payload entries) all_keys = add_keys entries all_keys.
Proof.
  revert all_keys. induction entries as [|[k v] t IH]; intros all_keys; simpl;
    [reflexivity | apply IH].
Qed.

Lemma collect_keys_mapped (items : list (option (list (string * A))))
    (all_keys : list string) :
  collect_keys (map map_view items) all_keys = collect_keys items all_keys.
Proof.
  revert all_keys. induction items as [|[es|] t IH]; intros all_keys; simpl;
    [reflexivity | | reflexivity].
  now rewrite add_keys_mapped, IH.
Qed.

Lemma in_all_mapped (items : list (option (list (string * A)))) (key : string) :
  in_all (map map_view items) key = in_all items key.
Proof.
  unfold in_all. rewrite forallb_map. apply forallb_ext.
  intros [es|]; simpl; [apply has_key_mapped | reflexivity].
Qed.

Lemma table_keys_mapped (items : list (option (list (string * A)))) :
  table_keys opts (map map_view items) = table_keys opts items.
Proof.
  unfold table_keys, common_count.
  rewrite length_map, collect_keys_mapped.
  destruct (_ <? _); [reflexivity|].
  destruct (collect_keys items []) as [all_keys|]; [|reflexivity].
  now rewrite (filter_ext _ _ (in_all_mapped items)).
Qed.

Lemma check_homogeneous_mapped (items : list (option (list (string * A)))) :
  check_homogeneous opts place (map map_view items)
  = check_homogeneous opts place items.
Proof. now rewrite !check_homogeneous_columns, table_keys_mapped. Qed.

Lemma find_entry_mapped (entries : list (string * A)) (col : string) :
  find_entry (map map_payload entries) col = option_map h (find_entry entries col).
Proof.
  induction entries as [|[k v] t IH]; simpl; [reflexivity|].
  now destruct (strcmp k col =? 0).
Qed.

Lemma write_row_mapped (cols : list string) (item : option (list (string * A))) :
  write_row g opts cols (map_view item)
  = write_row (fun a => g (h a)) opts cols item.
Proof.
  unfold write_row. do 3 f_equal. apply map_ext. intros col.
  unfold write_cell.
  destruct item as [es|]; simpl; [|reflexivity].
  rewrite find_entry_mapped. now destruct (find_entry es col).
Qed.

Lemma write_tabular_mapped (items : list (option (list (string * A))))
    (cols : list string) :
  write_tabular g opts (map map_view items) cols
  = write_tabular (fun a => g (h a)) opts items cols.
Proof.
  unfold write_tabular. rewrite length_map, map_map.
  now rewrite (map_ext _ _ (write_row_mapped cols)).
Qed.
End MappedEntries.

(** *** The children with their positions

    A child is written under the placement seen from its position.  The
    entries of a Map come with their positions in [positions], the items
    of a List in [numbered], and the cells of the rows of a table with
    the position of the row and that of the entry in [row_entries]. *)

Definition numbered_from {A : Type} (i0 : nat) (l : list A) : list (nat * A) :=
  map_from (fun i x => (i, x)) i0 l.

Definition numbered {A : Type} (l : list A) : list (nat * A) := numbered_from 0 l.

Definition positions_from {A : Type} (i0 : nat) (entries : list (string * A))
  : list (string * (nat * A)) :=
  map_from (fun j e => (fst e, (j, snd e))) i0 entries.

Definition positions {A : Type} (entries : list (string * A))
  : list (string * (nat * A)) :=
  positions_from 0 entries.

Definition write_child (pl : placement) (opts : glyph_canon_opts_t)
    (c : nat * glyph_value_t) : string :=
  write_canon_value (below pl (fst c)) opts (snd c).

Definition write_cell_value (pl : placement) (opts : glyph_canon_opts_t)
    (c : nat * (nat * glyph_value_t)) : string :=
  write_child (below pl (fst c)) opts (snd c).

Definition row_entries (r : nat * glyph_value_t)
  : option (list (string * (nat * (nat * glyph_value_t)))) :=
  option_map (fun entries => map (map_payload (pair (fst r))) (positions entries))
             (item_entries (snd r)).

Lemma map_from_numbered {A B : Type} (f : nat -> A -> B) (i0 : nat) (l : list A) :
  map_from f i0 l = map (fun c => f (fst c) (snd c)) (numbered_from i0 l).
Proof.
  revert i0. induction l as [|x t IH]; intros i0; simpl; [reflexivity|].
  now rewrite IH.
Qed.

Lemma map_from_positions {A B : Type} (f : nat -> A -> B) (i0 : nat)
    (entries : list (string * A)) :
  map_from (fun j e => (fst e, f j (snd e))) i0 entries
  = map (map_payload (fun c => f (fst c) (snd c))) (positions_from i0 entries).
Proof.
  revert i0. induction entries as [|e t IH]; intros i0; simpl; [reflexivity|].
  now rewrite IH.
Qed.

Lemma map_from_ext {A B : Type} (f g : nat -> A -> B) (i0 : nat) (l : list A) :
  (forall i x, f i x = g i x) -> map_from f i0 l = map_from g i0 l.
Proof.
  intros H. revert i0. induction l as [|x t IH]; intros i0; simpl; [reflexivity|].
  now rewrite H, IH.
Qed.

Lemma map_from_const {A B : Type} (f : A -> B) (i0 : nat) (l : list A) :
  map_from (fun _ x => f x) i0 l = map f l.
Proof.
  revert i0. induction l as [|x t IH]; intros i0; simpl; [reflexivity|].
  now rewrite IH.
Qed.

(** The positions put aside, the entries are the ones of the array. *)
Lemma positions_from_forget {A : Type} (i0 : nat) (entries : list (string * A)) :
  map (map_payload snd) (positions_from i0 entries) = entries.
Proof.
  unfold positions_from. revert i0.
  induction entries as [|[k v] t IH]; intros i0; cbn [map_from map];
    [reflexivity|].
  now rewrite IH.
Qed.

Lemma positions_forget {A : Type} (entries : list (string * A)) :
  map (map_payload snd) (positions entries) = entries.
Proof. apply positions_from_forget. Qed.

Lemma positions_keys {A : Type} (entries : list (string * A)) :
  map fst (positions entries) = map fst entries.
Proof.
  rewrite <- (positions_forget entries) at 2. rewrite map_map.
  apply map_ext. now intros [k c].
Qed.

Lemma numbered_from_forget {A : Type} (i0 : nat) (l : list A) :
  map snd (numbered_from i0 l) = l.
Proof.
  unfold numbered_from. revert i0.
  induction l as [|x t IH]; intros i0; cbn [map_from map]; [reflexivity|].
  now rewrite IH.
Qed.

Lemma numbered_forget {A : Type} (l : list A) : map snd (numbered l) = l.
Proof. apply numbered_from_forget. Qed.

Lemma numbered_length {A : Type} (l : list A) :
  List.length (numbered l) = List.length l.
Proof. rewrite <- (numbered_forget l) at 2. now rewrite length_map. Qed.

Lemma write_canon_value_VMap (pl : placement) (opts : glyph_canon_opts_t)
    (entries : list glyph_map_entry_t) :
  write_canon_value pl opts (VMap entries)
  = write_canon_map (write_child pl opts) (positions entries).
Proof.
  cbn [write_canon_value].
  rewrite (map_from_positions (fun j v => write_canon_value (below pl j) opts v)).
  apply (write_canon_map_mapped (write_child pl opts) (fun s => s)).
Qed.

Lemma write_canon_value_VStruct (pl : placement) (opts : glyph_canon_opts_t)
    (type_name : option string) (fields : list glyph_map_entry_t) :
  write_canon_value pl opts (VStruct type_name fields)
  = or_empty type_name ++ write_canon_map (write_child pl opts) (positions fields).
Proof.
  cbn [write_canon_value]. f_equal.
  rewrite (map_from_positions (fun j v => write_canon_value (below pl j) opts v)).
  apply (write_canon_map_mapped (write_child pl opts) (fun s => s)).
Qed.

Lemma write_canon_value_VList (pl : placement) (opts : glyph_canon_opts_t)
    (items : list glyph_value_t) :
  write_canon_value pl opts (VList items)
  = write_canon_list (write_cell_value pl opts) opts (pl []) (write_child pl opts)
      row_entries (numbered items).
Proof.
  cbn [write_canon_value]. rewrite map_from_numbered.
  fold (numbered items).
  unfold write_canon_list. rewrite !map_map. cbn [fst snd].
  assert (map (fun r : nat * glyph_value_t =>
                 match snd r with
                 | VMap entries =>
                     Some (map_from
                             (fun j e =>
                                (fst e,
                                 write_canon_value (below (below pl (fst r)) j) opts
                                   (snd e)))
                             0 entries)
                 | VStruct _ fields =>
                     Some (map_from
                             (fun j e =>
                                (fst e,
                                 write_canon_value (below (below pl (fst r)) j) opts
                                   (snd e)))
                             0 fields)
                 | _ => None
                 end) (numbered items)
          = map (map_view (write_cell_value pl opts))
                (map row_entries (numbered items))) as ->.
  { rewrite map_map. apply map_ext. intros [i item]. unfold row_entries. cbn [fst snd].
    destruct item; cbn [item_entries option_map map_view]; try reflexivity;
      rewrite (map_from_positions
                 (fun j v => write_canon_value (below (below pl i) j) opts v));
      rewrite map_map; f_equal. }
  rewrite check_homogeneous_mapped.
  destruct (if auto_tabular opts then _ else _); [|reflexivity].
  apply (write_tabular_mapped (write_cell_value pl opts) (fun s => s)).
Qed.

(** *** Under a uniform placement

    The placement is then the same at every child, and the container
    writers work on the children as they are. *)


Lemma row_entries_forget (r : nat * glyph_value_t) :
  item_entries (snd r)
  = map_view (fun c : nat * (nat * glyph_value_t) => snd (snd c)) (row_entries r).
Proof.
  unfold row_entries. destruct (item_entries (snd r)) as [entries|]; [|reflexivity].
  cbn [option_map map_view]. f_equal. rewrite map_map.
  rewrite <- (positions_forget entries) at 1. apply map_ext. now intros [k [j v]].
Qed.


Lemma write_canon_value_uniform_VStruct (place : nat -> Z)
    (opts : glyph_canon_opts_t) (type_name : option string)
    (fields : list glyph_map_entry_t) :
  write_canon_value (uniform place) opts (VStruct type_name fields)
  = or_empty type_name
    ++ write_canon_map (write_canon_value (uniform place) opts) fields.
Proof.
  rewrite write_canon_value_VStruct. f_equal.
  rewrite <- (positions_forget fields) at 2.
  symmetry. apply (write_canon_map_mapped snd (write_canon_value (uniform place) opts)).
Qed.


(** ** Induction on value trees *)

Section ValueInduction.
Variable P : glyph_value_t -> Prop.
Hypothesis P_null : P VNull.
Hypothesis P_bool : forall b, P (VBool b).
Hypothesis P_int : forall n, P (VInt n).
Hypothesis P_float : forall d, P (VFloat d).
Hypothesis P_str : forall s, P (VStr s).
Hypothesis P_bytes : forall data, P (VBytes data).
Hypothesis P_time : forall t, P (VTime t).
Hypothesis P_id : forall prefix value, P (VId prefix value).
Hypothesis P_list : forall items, Forall P items -> P (VList items).
Hypothesis P_map :
  forall entries, Forall (fun e => P (snd e)) entries -> P (VMap entries).
Hypothesis P_struct :
  forall type_name fields,
    Forall (fun e => P (snd e)) fields -> P (VStruct type_name fields).
Hypothesis P_sum_none : forall tag, P (VSum tag None).
Hypothesis P_sum_some : forall tag inner, P inner -> P (VSum tag (Some inner)).

Fixpoint glyph_value_induction (v : glyph_value_t) : P v :=
  match v with
  | VNull => P_null
  | VBool b => P_bool b
  | VInt n => P_int n
  | VFloat d => P_float d
  | VStr s => P_str s
  | VBytes data => P_bytes data
  | VTime t => P_time t
  | VId prefix value => P_id prefix value
  | VList items =>
      P_list items
        ((fix all (l : list glyph_value_t) : Forall P l :=
            match l with
            | [] => Forall_nil P
            | x :: t => Forall_cons x (glyph_value_induction x) (all t)
            end) items)
  | VMap entries =>
      P_map entries
        ((fix all (l : list glyph_map_entry_t) : Forall (fun e => P (snd e)) l :=
            match l with
            | [] => Forall_nil _
            | e :: t =>
                Forall_cons (P := fun e => P (snd e)) e
                  (glyph_value_induction (snd e)) (all t)
            end) entries)
  | VStruct type_name fields =>
      P_struct type_name fields
        ((fix all (l : list glyph_map_entry_t) : Forall (fun e => P (snd e)) l :=
            match l with
            | [] => Forall_nil _
            | e :: t =>
                Forall_cons (P := fun e => P (snd e)) e
                  (glyph_value_induction (snd e)) (all t)
            end) fields)
  | VSum tag None => P_sum_none tag
  | VSum tag (Some inner) => P_sum_some tag inner (glyph_value_induction inner)
  end.
End ValueInduction.

(** A property of an item together with the same property of the values
    it holds when it is a Map or a Struct: what the list writer needs of an
    item, which it may write whole or cell by cell. *)
Definition with_cells (P : glyph_value_t -> Prop) (item : glyph_value_t) : Prop :=
  P item /\ forall es, item_entries item = Some es -> Forall (fun e => P (snd e)) es.

Section ValueInductionCells.
Variable P : glyph_value_t -> Prop.
Hypothesis P_leaf : forall v,
    match v with
    | VList _ | VMap _ | VStruct _ _ | VSum _ (Some _) => False
    | _ => True
    end -> P v.
Hypothesis P_list : forall items, Forall (with_cells P) items -> P (VList items).
Hypothesis P_map :
  forall entries, Forall (fun e => P (snd e)) entries -> P (VMap entries).
Hypothesis P_struct :
  forall type_name fields,
    Forall (fun e => P (snd e)) fields -> P (VStruct type_name fields).
Hypothesis P_sum : forall tag inner, P inner -> P (VSum tag (Some inner)).

Lemma glyph_value_induction_cells (v : glyph_value_t) : P v.
Proof.
  enough (with_cells P v) as [H _] by exact H.
  induction v using glyph_value_induction;
    try (split; [now apply P_leaf | discriminate]).
  - split; [now apply P_list | discriminate].
  - assert (Forall (fun e => P (snd e)) entries) as Hes
      by (eapply Forall_impl; [|eassumption]; now intros e [He _]).
    split; [now apply P_map|]. intros es [= <-]. exact Hes.
  - assert (Forall (fun e => P (snd e)) fields) as Hes
      by (eapply Forall_impl; [|eassumption]; now intros e [He _]).
    split; [now apply P_struct|]. intros es [= <-]. exact Hes.
  - split; [|discriminate]. apply P_sum. now destruct IHv.
Qed.
End ValueInductionCells.

(** A test on every node of a value tree. *)
Fixpoint forall_nodes (p : glyph_value_t -> bool) (v : glyph_value_t) : bool :=
  p v
  && match v with
     | VList items => forallb (forall_nodes p) items
     | VMap entries => forallb (fun e => forall_nodes p (snd e)) entries
     | VStruct _ fields => forallb (fun e => forall_nodes p (snd e)) fields
     | VSum _ (Some inner) => forall_nodes p inner
     | _ => true
     end.

Lemma forall_nodes_and (p q : glyph_value_t -> bool) (v : glyph_value_t) :
  forall_nodes p v = true -> forall_nodes q v = true ->
  forall_nodes (fun x => p x && q x) v = true.
Proof.
  induction v using glyph_value_induction; simpl; intros Hp Hq;
    apply andb_true_iff in Hp as [Hp Hps]; apply andb_true_iff in Hq as [Hq Hqs];
    rewrite Hp, Hq; simpl; trivial.
  - rewrite forallb_forall in *. rewrite Forall_forall in H.
    intros x Hx. apply H; auto.
  - rewrite forallb_forall in *. rewrite Forall_forall in H.
    intros x Hx. apply H; auto.
  - rewrite forallb_forall in *. rewrite Forall_forall in H.
    intros x Hx. apply H; auto.
  - auto.
Qed.

Lemma forall_nodes_list (p : glyph_value_t -> bool) (items : list glyph_value_t) :
  forall_nodes p (VList items) = true ->
  p (VList items) = true /\ Forall (fun x => forall_nodes p x = true) items.
Proof.
  simpl. intros H. apply andb_true_iff in H as [H1 H2]. split; [assumption|].
  rewrite Forall_forall. now rewrite forallb_forall in H2.
Qed.

Lemma forall_nodes_map (p : glyph_value_t -> bool)
    (entries : list (string * glyph_value_t)) :
  forall_nodes p (VMap entries) = true ->
  p (VMap entries) = true /\ Forall (fun e => forall_nodes p (snd e) = true) entries.
Proof.
  simpl. intros H. apply andb_true_iff in H as [H1 H2]. split; [assumption|].
  rewrite Forall_forall. now rewrite forallb_forall in H2.
Qed.

Lemma forall_nodes_struct (p : glyph_value_t -> bool) (type_name : option string)
    (fields : list (string * glyph_value_t)) :
  forall_nodes p (VStruct type_name fields) = true ->
  p (VStruct type_name fields) = true
  /\ Forall (fun e => forall_nodes p (snd e) = true) fields.
Proof.
  simpl. intros H. apply andb_true_iff in H as [H1 H2]. split; [assumption|].
  rewrite Forall_forall. now rewrite forallb_forall in H2.
Qed.



(** ** The children and their positions *)

Lemma In_numbered {A : Type} (l : list A) (r : nat * A) :
  In r (numbered l) -> In (snd r) l.
Proof.
  intros H. rewrite <- (numbered_forget l). now apply in_map.
Qed.

Lemma In_positions {A : Type} (entries : list (string * A))
    (e : string * (nat * A)) :
  In e (positions entries) -> In (fst e, snd (snd e)) entries.
Proof.
  intros H. rewrite <- (positions_forget entries).
  exact (in_map (map_payload snd) _ _ H).
Qed.

Lemma In_row_entries (r : nat * glyph_value_t)
    (es : list (string * (nat * (nat * glyph_value_t))))
    (e : string * (nat * (nat * glyph_value_t))) :
  row_entries r = Some es -> In e es ->
  fst (snd e) = fst r
  /\ exists entries, item_entries (snd r) = Some entries
                     /\ In (fst e, snd (snd (snd e))) entries.
Proof.
  unfold row_entries. destruct (item_entries (snd r)) as [entries|]; [|discriminate].
  intros [= <-] H. apply in_map_iff in H as (e' & <- & H).
  split; [reflexivity|]. exists entries. split; [reflexivity|].
  exact (In_positions entries e' H).
Qed.

(** The keys of the rows are the keys of the items. *)
Lemma row_entries_keys (items : list glyph_value_t) :
  map (map_view (fun _ => tt)) (map row_entries (numbered items))
  = map (map_view (fun _ => tt)) (map item_entries items).
Proof.
  rewrite <- (numbered_forget items) at 2. rewrite !map_map.
  apply map_ext. intros r. rewrite (row_entries_forget r).
  destruct (row_entries r) as [es|]; [|reflexivity].
  cbn [map_view option_map]. f_equal. rewrite map_map. reflexivity.
Qed.

Lemma table_keys_rows (opts : glyph_canon_opts_t) (items : list glyph_value_t) :
  table_keys opts (map row_entries (numbered items))
  = table_keys opts (map item_entries items).
Proof.
  rewrite <- (table_keys_mapped (fun _ => tt) opts (map row_entries _)).
  rewrite <- (table_keys_mapped (fun _ => tt) opts (map item_entries _)).
  now rewrite row_entries_keys.
Qed.

Lemma check_homogeneous_rows (opts : glyph_canon_opts_t) (place : nat -> Z)
    (items : list glyph_value_t) :
  check_homogeneous opts place (map row_entries (numbered items))
  = check_homogeneous opts place (map item_entries items).
Proof. now rewrite !check_homogeneous_columns, table_keys_rows. Qed.

(** ** The order of the columns *)

Lemma combine_fst {A B : Type} (l : list A) (l' : list B) :
  List.length l = List.length l' -> map fst (combine l l') = l.
Proof.
  revert l'. induction l as [|x t IH]; intros [|y u]; simpl; intros H;
    try discriminate; [reflexivity|].
  f_equal. apply IH. now injection H.
Qed.

(** Whatever the addresses, the columns are the keys collected. *)
Lemma sort_columns_perm (place : nat -> Z) (all_keys : list string) :
  Permutation all_keys (sort_columns place all_keys).
Proof.
  unfold sort_columns.
  rewrite <- (qsort_perm compare_pointers).
  rewrite combine_fst; [reflexivity|]. now rewrite length_map, length_seq.
Qed.

Lemma sort_columns_length (place : nat -> Z) (all_keys : list string) :
  List.length (sort_columns place all_keys) = List.length all_keys.
Proof. symmetry. apply Permutation_length, sort_columns_perm. Qed.


(** ** What the container writers depend on *)

(** The container writers depend on the way of writing a child only at the
    children they are given. *)
Lemma write_canon_map_ext {A : Type} (f g : A -> string) (entries : list (string * A)) :
  Forall (fun e => f (snd e) = g (snd e)) entries ->
  write_canon_map f entries = write_canon_map g entries.
Proof.
  intros H. unfold write_canon_map.
  rewrite (Forall_map_ext (write_entry f) (write_entry g)); [reflexivity|].
  apply (Permutation_Forall (qsort_perm compare_entries entries)).
  eapply Forall_impl; [|exact H]. intros e He. unfold write_entry. now rewrite He.
Qed.

Lemma find_entry_In {A : Type} (entries : list (string * A)) (col : string) (x : A) :
  find_entry entries col = Some x -> In x (map snd entries).
Proof.
  induction entries as [|[k v] t IH]; simpl; [discriminate|].
  destruct (strcmp k col =? 0); [intros [= ->]; now left | right; now apply IH].
Qed.

Lemma write_cell_ext {A : Type} (f g : A -> string) (o1 o2 : glyph_canon_opts_t)
    (entries : list (string * A)) (col : string) :
  null_style o1 = null_style o2 ->
  Forall (fun e => f (snd e) = g (snd e)) entries ->
  write_cell f o1 entries col = write_cell g o2 entries col.
Proof.
  intros Hn H. unfold write_cell. rewrite Hn.
  destruct (find_entry entries col) as [x|] eqn:E; [|reflexivity].
  apply find_entry_In in E. apply in_map_iff in E as (e & <- & He).
  rewrite Forall_forall in H. now rewrite (H e He).
Qed.

Lemma write_tabular_ext {A : Type} (f g : A -> string) (o1 o2 : glyph_canon_opts_t)
    (items : list (option (list (string * A)))) (cols : list string) :
  null_style o1 = null_style o2 ->
  Forall (fun item => forall es, item = Some es ->
                                 Forall (fun e => f (snd e) = g (snd e)) es) items ->
  write_tabular f o1 items cols = write_tabular g o2 items cols.
Proof.
  intros Hn H. unfold write_tabular.
  rewrite (Forall_map_ext (write_row f o1 cols) (write_row g o2 cols));
    [reflexivity|].
  eapply Forall_impl; [|exact H].
  intros item Hitem. unfold write_row.
  rewrite (map_ext (write_cell f o1 match item with Some es => es | None => [] end)
                   (write_cell g o2 match item with Some es => es | None => [] end));
    [reflexivity|].
  intros col. apply write_cell_ext; trivial.
  destruct item as [es|]; [now apply Hitem | constructor].
Qed.

Definition same_layout (o1 o2 : glyph_canon_opts_t) : Prop :=
  auto_tabular o1 = auto_tabular o2 /\ min_rows o1 = min_rows o2
  /\ max_cols o1 = max_cols o2 /\ null_style o1 = null_style o2.


Lemma table_keys_layout {A : Type} (o1 o2 : glyph_canon_opts_t)
    (items : list (option (list (string * A)))) :
  same_layout o1 o2 -> table_keys o1 items = table_keys o2 items.
Proof.
  intros (_ & Hr & Hc & _). unfold table_keys. now rewrite Hr, Hc.
Qed.

Lemma check_homogeneous_layout {A : Type} (o1 o2 : glyph_canon_opts_t)
    (place : nat -> Z) (items : list (option (list (string * A)))) :
  same_layout o1 o2 ->
  check_homogeneous o1 place items = check_homogeneous o2 place items.
Proof.
  intros H. now rewrite !check_homogeneous_columns, (table_keys_layout o1 o2).
Qed.

(** The list writer: two ways of writing the items and the cells that
    agree on the items and cells of the list, and two layouts of the key
    copies that lead to the same columns. *)
Lemma write_canon_list_ext {A B : Type} (f g : A -> string) (fi gi : B -> string)
    (o1 o2 : glyph_canon_opts_t) (p1 p2 : nat -> Z)
    (view : B -> option (list (string * A))) (items : list B) :
  same_layout o1 o2 ->
  (auto_tabular o1 = true ->
   check_homogeneous o1 p1 (map view items)
   = check_homogeneous o1 p2 (map view items)) ->
  Forall (fun item =>
            fi item = gi item
            /\ forall es, view item = Some es ->
                          Forall (fun e => f (snd e) = g (snd e)) es) items ->
  write_canon_list f o1 p1 fi view items = write_canon_list g o2 p2 gi view items.
Proof.
  intros Hl Hcols H. unfold write_canon_list.
  rewrite <- (check_homogeneous_layout o1 o2 p2) by assumption.
  destruct Hl as (Ha & _ & _ & Hn). rewrite <- Ha.
  destruct (auto_tabular o1); [rewrite Hcols by reflexivity|].
  - destruct (check_homogeneous o1 p2 (map view items)) as [cols|].
    + apply write_tabular_ext; trivial.
      rewrite Forall_map. eapply Forall_impl; [|exact H]. now intros item [_ Hc].
    + rewrite (Forall_map_ext fi gi); [reflexivity|].
      eapply Forall_impl; [|exact H]. now intros item [Hi _].
  - rewrite (Forall_map_ext fi gi); [reflexivity|].
    eapply Forall_impl; [|exact H]. now intros item [Hi _].
Qed.


(** The items and the cells of a list of values, from what holds of the
    values. *)
Lemma children_of_list (P : glyph_value_t -> Prop)
    (Q : nat * glyph_value_t -> Prop) (R : nat * (nat * glyph_value_t) -> Prop)
    (items : list glyph_value_t) :
  Forall (with_cells P) items ->
  (forall r, P (snd r) -> Q r) ->
  (forall c, P (snd (snd c)) -> R c) ->
  Forall (fun r => Q r /\ forall es, row_entries r = Some es ->
                                     Forall (fun e => R (snd e)) es)
         (numbered items).
Proof.
  intros H HQ HR. rewrite Forall_forall in H |- *. intros r Hr.
  destruct (H (snd r) (In_numbered items r Hr)) as [Hi Hc]. split; [now apply HQ|].
  intros es Hes. rewrite Forall_forall. intros e He.
  destruct (In_row_entries r es e Hes He) as (_ & entries & Hent & Hin).
  apply HR. specialize (Hc entries Hent). rewrite Forall_forall in Hc.
  exact (Hc _ Hin).
Qed.

Lemma children_of_map (P : glyph_value_t -> Prop) (Q : nat * glyph_value_t -> Prop)
    (entries : list glyph_map_entry_t) :
  Forall (fun e => P (snd e)) entries ->
  (forall c, P (snd c) -> Q c) ->
  Forall (fun e => Q (snd e)) (positions entries).
Proof.
  intros H HQ. rewrite Forall_forall in H |- *. intros e He.
  apply HQ. exact (H _ (In_positions entries e He)).
Qed.

(** ** Values whose text does not depend on the addresses

    A table of two or more columns is written in the order of the
    addresses of the copies of its keys.  Everything else is written the
    same wherever the copies are. *)




(** ** Absent values (C9) *)

(** C9. Canonicalizing a [NULL] value pointer succeeds and returns the null
    glyph of the selected style, ["_"] under the default options and ["∅"]
    under the pretty preset; the type query reports [GLYPH_NULL] for a
    [NULL] pointer. *)
Theorem C9_null_pointer (pl : placement) :
  (forall opts : glyph_canon_opts_t,
      glyph_canonicalize_loose_with_opts pl None opts
      = Some (canon_null (null_style opts)))
  /\ glyph_canonicalize_loose pl None = Some "_"
  /\ glyph_canonicalize_loose_with_opts pl None glyph_canon_opts_pretty = Some "∅"
  /\ glyph_get_type None = GLYPH_NULL.
Proof. repeat split. Qed.

(** ** Mutators under failed preconditions (C10) *)

(** C10. A mutator whose precondition fails leaves the container as it was:
    [glyph_list_append] when the container is [NULL], is not a List, or the
    item is [NULL]; [glyph_map_set] and [glyph_struct_set] when the container
    is [NULL] or of another kind, or the key or the value is [NULL]. *)
Theorem C10_mutators_noop (c : option glyph_value_t) (key : option string)
    (x : option glyph_value_t) :
  (c = None \/ glyph_get_type c <> GLYPH_LIST \/ x = None ->
   glyph_list_append c x = c)
  /\ (c = None \/ glyph_get_type c <> GLYPH_MAP \/ key = None \/ x = None ->
      glyph_map_set c key x = c)
  /\ (c = None \/ glyph_get_type c <> GLYPH_STRUCT \/ key = None \/ x = None ->
      glyph_struct_set c key x = c).
Proof.
  repeat split; intros H.
  - destruct c as [[]|], x; simpl in *; trivial;
      destruct H as [H|[H|H]]; congruence.
  - destruct c as [[]|], key, x; simpl in *; trivial;
      destruct H as [H|[H|[H|H]]]; congruence.
  - destruct c as [[]|], key, x; simpl in *; trivial;
      destruct H as [H|[H|[H|H]]]; congruence.
Qed.

Lemma C10_mutators_noop_witness :
  glyph_list_append (Some (VInt 7)) (Some VNull) = Some (VInt 7)
  /\ glyph_map_set (Some (VMap [("a", VInt 1)])) None (Some VNull)
     = Some (VMap [("a", VInt 1)])
  /\ glyph_struct_set (Some (VStruct (Some "T") [])) (Some "k") None
     = Some (VStruct (Some "T") []).
Proof.
  split; [|split].
  - apply (C10_mutators_noop (Some (VInt 7)) None (Some VNull)).
    right; left. simpl. discriminate.
  - apply (C10_mutators_noop (Some (VMap [("a", VInt 1)])) None (Some VNull)).
    right; right; left. reflexivity.
  - apply (C10_mutators_noop (Some (VStruct (Some "T") [])) (Some "k") None).
    right; right; right. reflexivity.
Defined.

(** ** Barewords (C5) *)

(** The bareword conditions, in the words of the specification. *)
Definition reserved_tokens : list string :=
  ["t"; "f"; "true"; "false"; "null"; "_"].

Definition bareword_extra : list ascii :=
  ["_"; "-"; "."; "/"; "@"; ":"]%char.

Definition bareword (s : string) : Prop :=
  s <> ""
  /\ (forall c t, s = String c t ->
        isdigit c = false /\ c <> dquote /\ c <> "'"%char /\ c <> "-"%char)
  /\ ~ In s reserved_tokens
  /\ (forall c, In c (list_ascii_of_string s) ->
        isalnum c = true \/ In c bareword_extra \/ 127 < uchar c).

Lemma bareword_bytes (s : string) :
  (forall c, In c (list_ascii_of_string s) ->
     isalnum c = true \/ In c bareword_extra \/ 127 < uchar c) ->
  all_bytes bare_byte s = true /\ is_c_str s = true.
Proof.
  induction s as [|c s IH]; intros H; [split; reflexivity|].
  destruct IH as [IH1 IH2]; [intros d Hd; apply H; now right|].
  assert (bare_byte c = true /\ uchar c <> 0) as [Hb Hz].
  { destruct (H c (or_introl eq_refl)) as [Ha|[Hi|Hh]].
    - split; [unfold bare_byte; now rewrite Ha|].
      unfold isalnum, isdigit, isupper, islower in Ha. lia.
    - unfold bareword_extra in Hi. simpl in Hi.
      repeat (destruct Hi as [<-|Hi]; [split; [reflexivity | discriminate]|]).
      contradiction.
    - split; [|lia]. unfold bare_byte.
      apply Z.ltb_lt in Hh. rewrite Hh. now rewrite !orb_true_r. }
  split.
  - simpl. now rewrite Hb.
  - apply is_c_str_cons. now split.
Qed.

Lemma strcmp_neq (a b : string) :
  is_c_str a = true -> is_c_str b = true -> a <> b -> (strcmp a b =? 0) = false.
Proof.
  intros Ha Hb Hn. apply Z.eqb_neq. intros H. now apply Hn, strcmp_eq.
Qed.

Lemma bareword_is_bare_safe (s : string) :
  bareword s -> is_bare_safe (Some s) = true.
Proof.
  intros (Hne & Hfirst & Hres & Hbytes).
  destruct (bareword_bytes s Hbytes) as [Hall Hc].
  destruct s as [|c t]; [congruence|].
  destruct (Hfirst c t eq_refl) as (Hd & Hq & Hs & Hm).
  unfold is_bare_safe. rewrite Hd.
  apply Ascii.eqb_neq in Hq, Hs, Hm. rewrite Hq, Hs, Hm. cbn [orb].
  unfold reserved_tokens in Hres. simpl in Hres.
  rewrite !strcmp_neq; trivial; try reflexivity; intuition congruence.
Qed.

(** C5. A string that meets all bareword conditions is written as its own
    bytes: no quotes, no escapes. *)
Theorem C5_bareword_verbatim (pl : placement) (opts : glyph_canon_opts_t)
    (s : string) :
  bareword s ->
  glyph_canonicalize_loose_with_opts pl (Some (VStr (Some s))) opts = Some s.
Proof.
  intros H. unfold glyph_canonicalize_loose_with_opts. simpl.
  unfold write_canon_string. now rewrite (bareword_is_bare_safe s H).
Qed.

Lemma C5_bareword_verbatim_witness :
  bareword "user@example.com/a-b_c:42"
  /\ glyph_canonicalize_loose ascending
       (Some (VStr (Some "user@example.com/a-b_c:42")))
     = Some "user@example.com/a-b_c:42".
Proof.
  assert (bareword "user@example.com/a-b_c:42") as H.
  { repeat split; try discriminate.
    - injection H as <- _. reflexivity.
    - injection H as <- _. intros E. discriminate.
    - injection H as <- _. discriminate.
    - injection H as <- _. discriminate.
    - unfold reserved_tokens. simpl. intuition discriminate.
    - intros c Hc. simpl in Hc.
      repeat (destruct Hc as [<-|Hc];
              [first [left; reflexivity | right; left; simpl; tauto]|]).
      contradiction. }
  split; [exact H|].
  exact (C5_bareword_verbatim ascending glyph_canon_opts_default _ H).
Defined.

(** ** Key order (C1) *)


Definition c_str_key {A : Type} (e : string * A) : Prop := is_c_str (fst e) = true.






(** ** Keys set more than once (C7) *)

(** The Map built by a sequence of [glyph_map_set] calls on a new Map. *)
Definition map_of_calls (calls : list (string * glyph_value_t))
  : option glyph_value_t :=
  fold_left (fun m call => glyph_map_set m (Some (fst call)) (Some (snd call)))
            calls (Some glyph_map_new).

Definition stored_entry (call : string * glyph_value_t) : glyph_map_entry_t :=
  (c_str (fst call), snd call).

Lemma map_of_calls_entries (calls : list (string * glyph_value_t)) :
  map_of_calls calls = Some (VMap (map stored_entry calls)).
Proof.
  unfold map_of_calls, glyph_map_new.
  change (@nil (string * glyph_value_t)) with (map stored_entry []) at 1.
  assert (forall done,
             fold_left (fun m call => glyph_map_set m (Some (fst call)) (Some (snd call)))
                       calls (Some (VMap done))
             = Some (VMap (done ++ map stored_entry calls))) as H.
  { induction calls as [|c t IH]; intros done; simpl.
    - now rewrite app_nil_r.
    - rewrite IH, <- app_assoc. reflexivity. }
  apply (H []).
Qed.

(** C7, as the code has it.  Every [glyph_map_set] call contributes one
    entry to the canonical form, also when its key was set before: the
    entries written are a rearrangement of the calls made, each with the
    number of its call, so that a key appears as many times as it was
    set. *)
Theorem C7_one_entry_per_call (pl : placement) (opts : glyph_canon_opts_t)
    (calls : list (string * glyph_value_t)) :
  exists written : list (string * (nat * glyph_value_t)),
    Permutation (positions (map stored_entry calls)) written
    /\ glyph_canonicalize_loose_with_opts pl (map_of_calls calls) opts
       = Some ("{" ++ concat " " (map (write_entry (write_child pl opts)) written)
                 ++ "}")
    /\ forall key : string,
         count_occ string_dec (map fst written) key
         = count_occ string_dec (map (fun call => c_str (fst call)) calls) key.
Proof.
  exists (qsort compare_entries (positions (map stored_entry calls))).
  split; [apply qsort_perm|]. split.
  - rewrite map_of_calls_entries.
    unfold glyph_canonicalize_loose_with_opts, write_canon_value_at.
    now rewrite write_canon_value_VMap.
  - intros key. apply Permutation_count_occ.
    rewrite <- qsort_perm, positions_keys, map_map. reflexivity.
Qed.

(** C7 as stated fails: a key set twice is written twice, and the result
    differs from the canonical form of the Map with the last binding only. *)
Lemma C7_duplicate_key_counterexample :
  let twice := map_of_calls [("a", VInt 1); ("a", VInt 2)] in
  let last := map_of_calls [("a", VInt 2)] in
  glyph_canonicalize_loose ascending twice = Some "{a=1 a=2}"
  /\ glyph_canonicalize_loose ascending last = Some "{a=2}"
  /\ (forall pl pl' : placement,
        glyph_canonicalize_loose pl twice <> glyph_canonicalize_loose pl' last).
Proof. repeat split. discriminate. Qed.

(** ** Whole-number collapse (C4) *)

(** [d] holds the integer [n] exactly. *)
Definition holds_integer (d : double) (n : Z) : Prop :=
  match d with
  | S754_zero _ => n = 0
  | S754_finite s m e =>
      (if s then - mag_num m e else mag_num m e) = n * mag_den e
  | _ => False
  end.

Lemma mag_den_pos (e : Z) : 0 < mag_den e.
Proof.
  unfold mag_den. destruct (Z.leb_spec 0 e); [lia | apply Z.pow_pos_nonneg; lia].
Qed.

Lemma mag_num_pos (m : positive) (e : Z) : 0 < mag_num m e.
Proof.
  unfold mag_num. destruct (Z.leb_spec 0 e); [|lia].
  apply Z.mul_pos_pos; [lia | apply Z.pow_pos_nonneg; lia].
Qed.

Lemma to_long_small (n : Z) : - 2 ^ 63 <= n < 2 ^ 63 -> Printf.to_long n = n.
Proof.
  intros H. unfold Printf.to_long. rewrite Z.mod_small; lia.
Qed.

Lemma d_1e15_value : signed_num d_1e15 = 10 ^ 15 /\ den d_1e15 = 1.
Proof. split; reflexivity. Qed.

(** The test of the Float case succeeds on a double that holds an integer
    below [10^15], and the conversion to [long] yields that integer. *)
Lemma whole_number_branch (d : double) (n : Z) :
  holds_integer d n -> Z.abs n < 10 ^ 15 ->
  let f := if feq d d_0 then d_0 else d in
  feq f (floor f) && flt (fabs f) d_1e15 = true /\ Double.to_long f = n.
Proof.
  destruct d as [s|s|s|s m e]; simpl holds_integer; intros H Hn; try contradiction.
  - subst n. split; reflexivity.
  - pose proof (mag_den_pos e) as Hd. pose proof (mag_num_pos m e) as Hm.
    assert (feq (S754_finite s m e) d_0 = false) as ->.
    { unfold feq, d_0, signed_num, den. apply Z.eqb_neq. destruct s; lia. }
    cbv zeta.
    assert (mag_num m e = Z.abs n * mag_den e) as Hmag.
    { destruct s; nia. }
    assert (mag_num m e / mag_den e = Z.abs n) as Hq
      by (rewrite Hmag; apply Z.div_mul; lia).
    assert (0 < Z.abs n) as Hpos by nia.
    split.
    + apply andb_true_iff. split.
      * unfold floor. unfold mag_num, mag_den in *.
        destruct (Z.leb_spec 0 e) as [He|He].
        -- unfold feq. apply Z.eqb_refl.
        -- assert (Z.pos m mod 2 ^ (- e) = 0) as ->
             by (rewrite Hmag; apply Z.mod_mul; lia).
           rewrite Hq. rewrite andb_false_r.
           destruct (Z.abs n) as [|p|p] eqn:Ea; try lia.
           unfold feq, signed_num, den, mag_num, mag_den.
           destruct (Z.leb_spec 0 e); [lia|]. change (0 <=? 0) with true.
           cbv iota. change (2 ^ 0) with 1. apply Z.eqb_eq. destruct s; lia.
      * unfold fabs, flt. destruct d_1e15_value as [-> ->].
        unfold d_1e15. simpl of_Z. unfold signed_num, den.
        apply Z.ltb_lt. nia.
    + unfold Double.to_long. rewrite Hq.
      rewrite to_long_small; [destruct s; nia|].
      destruct s; lia.
Qed.

(** C4. A Float that holds an integer [n] with [|n| < 10^15] is written
    with the bytes of Int [n]; Float [42.0] is written ["42"] and Float
    [-0.0] is written ["0"]. *)
Theorem C4_whole_number_collapse (pl pl' : placement)
    (opts : glyph_canon_opts_t) :
  (forall (n : Z) (d : double),
      Z.abs n < 10 ^ 15 -> holds_integer d n ->
      glyph_canonicalize_loose_with_opts pl (Some (VFloat d)) opts
      = glyph_canonicalize_loose_with_opts pl' (Some (VInt n)) opts)
  /\ glyph_canonicalize_loose_with_opts pl
       (Some (VFloat (S754_finite false 5910974510923776 (-47)))) opts = Some "42"
  /\ glyph_canonicalize_loose_with_opts pl (Some (VFloat (S754_zero true))) opts
     = Some "0".
Proof.
  split; [|split; reflexivity].
  intros n d Hn Hd.
  unfold glyph_canonicalize_loose_with_opts, write_canon_value_at. f_equal.
  unfold write_canon_value.
  destruct (whole_number_branch d n Hd Hn) as [-> ->].
  rewrite to_long_small; [reflexivity | lia].
Qed.

Lemma C4_whole_number_collapse_witness :
  glyph_canonicalize_loose ascending
    (Some (VFloat (S754_finite true 7999999999999992 (-3))))
  = glyph_canonicalize_loose descending (Some (VInt (-999999999999999))).
Proof.
  apply (proj1 (C4_whole_number_collapse ascending descending
                  glyph_canon_opts_default)).
  - reflexivity.
  - reflexivity.
Defined.
(** ** The option [allow_missing] (C3) *)

Definition with_allow_missing (b : bool) (opts : glyph_canon_opts_t)
  : glyph_canon_opts_t :=
  {| auto_tabular := auto_tabular opts;
     min_rows := min_rows opts;
     max_cols := max_cols opts;
     allow_missing := b;
     null_style := null_style opts |}.

Lemma write_canon_value_layout (o1 o2 : glyph_canon_opts_t) (v : glyph_value_t) :
  same_layout o1 o2 ->
  forall pl : placement, write_canon_value pl o1 v = write_canon_value pl o2 v.
Proof.
  intros Hl. induction v using glyph_value_induction_cells; intros pl.
  - destruct Hl as (_ & _ & _ & Hn).
    destruct v as [| | | | | | | | | | |tag [inner|]]; try contradiction;
      simpl; now rewrite ?Hn.
  - rewrite !write_canon_value_VList.
    apply write_canon_list_ext; [assumption | reflexivity |].
    apply (children_of_list _ _
             (fun c => write_cell_value pl o1 c = write_cell_value pl o2 c)
             items H).
    + intros r Hr. apply Hr.
    + intros c Hc. apply Hc.
  - rewrite !write_canon_value_VMap. apply write_canon_map_ext.
    apply (children_of_map
             (fun v => forall pl, write_canon_value pl o1 v = write_canon_value pl o2 v)
             (fun c => write_child pl o1 c = write_child pl o2 c) entries H).
    intros c Hc. apply Hc.
  - rewrite !write_canon_value_VStruct. f_equal. apply write_canon_map_ext.
    apply (children_of_map
             (fun v => forall pl, write_canon_value pl o1 v = write_canon_value pl o2 v)
             (fun c => write_child pl o1 c = write_child pl o2 c) fields H).
    intros c Hc. apply Hc.
  - simpl. now rewrite IHv.
Qed.

Definition sparse_rows : glyph_value_t :=
  VList [VMap [("a", VInt 1); ("b", VInt 2)]; VMap [("a", VInt 3)];
         VMap [("a", VInt 4)]].

(** The two tables a call can write for [sparse_rows]: the copy of [a]
    before that of [b], and after it. *)
Definition sparse_table_ab : string :=
  "@tab _ rows=3 cols=2 [a b]" ++ str1 lf
  ++ "|1|2|" ++ str1 lf
  ++ "|3|_|" ++ str1 lf
  ++ "|4|_|" ++ str1 lf
  ++ "@end".

Definition sparse_table_ba : string :=
  "@tab _ rows=3 cols=2 [b a]" ++ str1 lf
  ++ "|2|1|" ++ str1 lf
  ++ "|_|3|" ++ str1 lf
  ++ "|_|4|" ++ str1 lf
  ++ "@end".

(** C3 fails on the code: [allow_missing] is stored in the options and
    never read.  Setting it changes no output, and with [allow_missing =
    false] a list whose elements share only half of the columns is still
    written as a table, the absent cells filled with the null glyph: as
    [sparse_table_ab] when the copy of [a] lies before that of [b], and
    as [sparse_table_ba] otherwise. *)
Theorem C3_allow_missing_is_not_consulted :
  (forall (pl : placement) (b : bool) (opts : glyph_canon_opts_t)
          (v : option glyph_value_t),
      glyph_canonicalize_loose_with_opts pl v (with_allow_missing b opts)
      = glyph_canonicalize_loose_with_opts pl v opts)
  /\ glyph_canonicalize_loose_with_opts ascending (Some sparse_rows)
       (with_allow_missing false glyph_canon_opts_default)
     = Some sparse_table_ab
  /\ glyph_canonicalize_loose_with_opts descending (Some sparse_rows)
       (with_allow_missing false glyph_canon_opts_default)
     = Some sparse_table_ba
  /\ (forall pl : placement,
         glyph_canonicalize_loose_with_opts pl (Some sparse_rows)
           (with_allow_missing false glyph_canon_opts_default)
         = Some (if pl [] 0%nat - pl [] 1%nat <=? 0 then sparse_table_ab
                 else sparse_table_ba)).
Proof.
  split; [|split; [reflexivity | split; [reflexivity|]]].
  - intros pl b opts [v|]; [|reflexivity].
    unfold glyph_canonicalize_loose_with_opts, write_canon_value_at. f_equal.
    apply write_canon_value_layout. now repeat split.
  - intros pl.
    unfold glyph_canonicalize_loose_with_opts, write_canon_value_at. f_equal.
    unfold sparse_rows. rewrite write_canon_value_VList. unfold write_canon_list.
    rewrite check_homogeneous_columns.
    change (table_keys _ _) with (Some ["a"; "b"]).
    cbn [auto_tabular with_allow_missing glyph_canon_opts_default option_map].
    unfold sort_columns. cbn [List.length seq map combine qsort insert].
    unfold compare_pointers at 1. cbn [snd].
    destruct (pl [] 0%nat - pl [] 1%nat <=? 0); reflexivity.
Qed.

(** ** The tabular threshold (C2) *)

(** What [check_homogeneous] computes, on C-string keys. *)
Section KeyCollection.
Context {A : Type}.

Definition c_str_entries (item : option (list (string * A))) : Prop :=
  forall es, item = Some es -> Forall c_str_key es.

Definition all_c_str (keys : list string) : Prop :=
  Forall (fun k => is_c_str k = true) keys.

Lemma known_key_In (all_keys : list string) (key : string) :
  all_c_str all_keys -> is_c_str key = true ->
  known_key all_keys key = true <-> In key all_keys.
Proof.
  intros Hc Hk. unfold known_key. rewrite existsb_exists. split.
  - intros (k & Hin & E). apply Z.eqb_eq in E.
    unfold all_c_str in Hc. rewrite Forall_forall in Hc.
    now rewrite <- (strcmp_eq k key (Hc k Hin) Hk E).
  - intros Hin. exists key. split; [assumption|]. now rewrite strcmp_refl.
Qed.

Lemma has_key_In (entries : list (string * A)) (key : string) :
  Forall c_str_key entries -> is_c_str key = true ->
  has_key entries key = true <-> In key (map fst entries).
Proof.
  intros Hc Hk. unfold has_key. rewrite existsb_exists, in_map_iff. split.
  - intros (e & Hin & E). apply Z.eqb_eq in E. exists e. split; [|assumption].
    rewrite Forall_forall in Hc. exact (strcmp_eq _ _ (Hc e Hin) Hk E).
  - intros (e & <- & Hin). exists e. split; [assumption|]. now rewrite strcmp_refl.
Qed.

Lemma add_keys_spec (entries : list (string * A)) (all_keys : list string) :
  Forall c_str_key entries -> all_c_str all_keys -> NoDup all_keys ->
  NoDup (add_keys entries all_keys)
  /\ all_c_str (add_keys entries all_keys)
  /\ forall k, In k (add_keys entries all_keys)
               <-> In k all_keys \/ In k (map fst entries).
Proof.
  intros He. revert all_keys.
  induction He as [|[key v] t Hkey Ht IH]; intros all_keys Hc Hnd; simpl.
  - repeat split; trivial; tauto.
  - unfold c_str_key in Hkey. simpl in Hkey.
    destruct (known_key all_keys key) eqn:E.
    + apply known_key_In in E; trivial.
      destruct (IH all_keys Hc Hnd) as (H1 & H2 & H3).
      repeat split; trivial; rewrite H3; intuition (subst; tauto).
    + assert (~ In key all_keys) as Hnot.
      { intros Hin. apply (known_key_In all_keys key Hc Hkey) in Hin. congruence. }
      destruct (IH (all_keys ++ [key])%list) as (H1 & H2 & H3).
      * apply Forall_app. split; [assumption | now repeat constructor].
      * apply NoDup_app; trivial; [repeat constructor; simpl; tauto|].
        intros x Hx [<-|[]]. contradiction.
      * repeat split; trivial; rewrite H3, in_app_iff; simpl; tauto.
Qed.

Lemma collect_keys_spec (items : list (option (list (string * A))))
    (all_keys keys : list string) :
  Forall c_str_entries items -> all_c_str all_keys -> NoDup all_keys ->
  collect_keys items all_keys = Some keys ->
  NoDup keys /\ all_c_str keys
  /\ forall k, In k keys
               <-> In k all_keys
                   \/ exists es, In (Some es) items /\ In k (map fst es).
Proof.
  intros Hi. revert all_keys.
  induction Hi as [|[es|] t Hes Ht IH]; intros all_keys Hc Hnd; simpl.
  - intros [= <-]. repeat split; trivial; [tauto|].
    intros [H|(es & [] & _)]. exact H.
  - intros H.
    destruct (add_keys_spec es all_keys (Hes es eq_refl) Hc Hnd) as (A1 & A2 & A3).
    destruct (IH _ A2 A1 H) as (H1 & H2 & H3).
    repeat split; trivial; rewrite H3, A3.
    + intros [[Hk|Hk]|(es' & Hin & Hk)]; eauto 6.
    + intros [Hk|(es' & [[= ->]|Hin] & Hk)]; eauto 6.
  - discriminate.
Qed.

Lemma collect_keys_objects (items : list (option (list (string * A))))
    (all_keys : list string) :
  collect_keys items all_keys = None <-> In None items.
Proof.
  revert all_keys. induction items as [|[es|] t IH]; intros all_keys; simpl.
  - split; [discriminate | tauto].
  - rewrite IH. split; [tauto | intros [H|H]; [discriminate | exact H]].
  - tauto.
Qed.

Lemma in_all_spec (items : list (option (list (string * A)))) (key : string) :
  Forall c_str_entries items -> is_c_str key = true ->
  in_all items key = true
  <-> forall item, In item items ->
                   exists es, item = Some es /\ In key (map fst es).
Proof.
  intros Hi Hk. unfold in_all. rewrite forallb_forall.
  rewrite Forall_forall in Hi.
  split; intros H item Hin.
  - specialize (H item Hin). destruct item as [es|]; [|discriminate].
    exists es. split; [reflexivity|].
    now apply (has_key_In es key (Hi _ Hin es eq_refl) Hk).
  - destruct (H item Hin) as (es & -> & Hkey).
    now apply (has_key_In es key (Hi _ Hin es eq_refl) Hk).
Qed.
End KeyCollection.

(** The notions of the specification, on the elements of a list. *)
Definition has_field (k : string) (item : glyph_value_t) : Prop :=
  exists es, item_entries item = Some es /\ In k (map fst es).

Definition is_object (item : glyph_value_t) : Prop :=
  item_entries item <> None.

(** [cols] is the column set of [items]: the union of their keys. *)
Definition key_union (items : list glyph_value_t) (cols : list string) : Prop :=
  NoDup cols /\ forall k, In k cols <-> Exists (has_field k) items.

(** [common] is the set of the common keys: those present in every item. *)
Definition common_keys (items : list glyph_value_t) (common : list string) : Prop :=
  NoDup common
  /\ forall k, In k common
               <-> Exists (has_field k) items /\ Forall (has_field k) items.

Definition c_str_keys (item : glyph_value_t) : Prop :=
  c_str_entries (item_entries item).

Lemma Exists_has_field (items : list glyph_value_t) (k : string) :
  Exists (has_field k) items
  <-> exists es, In (Some es) (map item_entries items) /\ In k (map fst es).
Proof.
  rewrite Exists_exists. split.
  - intros (item & Hin & es & E & Hk). exists es. split; [|assumption].
    rewrite <- E. now apply in_map.
  - intros (es & Hin & Hk). apply in_map_iff in Hin as (item & E & Hin).
    exists item. split; [assumption|]. now exists es.
Qed.

Lemma Forall_has_field (items : list glyph_value_t) (k : string) :
  Forall (has_field k) items
  <-> forall item, In item (map item_entries items) ->
                   exists es, item = Some es /\ In k (map fst es).
Proof.
  rewrite Forall_forall. split.
  - intros H item Hin. apply in_map_iff in Hin as (v & <- & Hin).
    exact (H v Hin).
  - intros H v Hin. apply (H (item_entries v)). now apply in_map.
Qed.

Lemma same_members_length {A : Type} (l l' : list A) :
  NoDup l -> NoDup l' -> (forall x, In x l <-> In x l') ->
  List.length l = List.length l'.
Proof. intros H1 H2 H. apply Permutation_length. now apply NoDup_Permutation. Qed.

(** What the first pass of [check_homogeneous] and its count of common
    keys amount to, in the terms of the specification. *)
Lemma collected_keys_are_union (items : list glyph_value_t)
    (cols common keys : list string) :
  Forall c_str_keys items -> key_union items cols -> common_keys items common ->
  collect_keys (map item_entries items) [] = Some keys ->
  List.length keys = List.length cols
  /\ List.length (filter (in_all (map item_entries items)) keys)
     = List.length common.
Proof.
  intros Hc [Hnd Hcols] [Hndc Hcommon] Hk.
  assert (Forall c_str_entries (map item_entries items)) as Hc'
    by (rewrite Forall_map; exact Hc).
  destruct (collect_keys_spec _ [] keys Hc' (Forall_nil _) (NoDup_nil _) Hk)
    as (K1 & K2 & K3).
  assert (forall k, In k keys <-> Exists (has_field k) items) as Hkeys.
  { intros k. rewrite K3, Exists_has_field. simpl. tauto. }
  split.
  - apply same_members_length; trivial. intros k. now rewrite Hkeys, Hcols.
  - apply same_members_length; trivial; [now apply NoDup_filter|].
    intros k. rewrite filter_In, Hcommon, Hkeys, Forall_has_field.
    unfold all_c_str in K2. rewrite Forall_forall in K2.
    split; intros [H1 H2]; split; trivial;
      pose proof (in_all_spec (map item_entries items) k Hc'
                    (K2 k (proj2 (Hkeys k) H1))) as [Hto Hfrom]; auto.
Qed.

Lemma write_tabular_shape {A : Type} (f : A -> string) (opts : glyph_canon_opts_t)
    (items : list (option (list (string * A)))) (cols : list string) :
  begins_with "@tab " (write_tabular f opts items cols)
  /\ ends_with "@end" (write_tabular f opts items cols).
Proof.
  unfold write_tabular. split.
  - eexists. simpl. reflexivity.
  - repeat apply ends_with_append. now exists "".
Qed.

(** C2. Under the default options a list of at least three Maps or
    Structs that all carry every key of a non-empty column set of at most
    64 columns is written from ["@tab "] to ["@end"]; a list of fewer than
    three elements, or one whose common keys are fewer than half of the
    union of its keys, is written with ["["] in front. *)
Theorem C2_tabular_threshold (pl : placement) (items : list glyph_value_t)
    (cols common : list string) :
  Forall c_str_keys items -> key_union items cols -> common_keys items common ->
  exists out : string,
    glyph_canonicalize_loose pl (Some (VList items)) = Some out
    /\ ((3 <= List.length items)%nat -> Forall is_object items ->
        (1 <= List.length cols <= 64)%nat ->
        (forall k, In k cols -> In k common) ->
        begins_with "@tab " out /\ ends_with "@end" out)
    /\ ((List.length items < 3)%nat
        \/ (List.length common * 2 < List.length cols)%nat ->
        begins_with "[" out).
Proof.
  intros Hc Hu Hk. eexists. split; [reflexivity|].
  unfold write_canon_value_at. rewrite write_canon_value_VList.
  unfold write_canon_list. rewrite check_homogeneous_rows.
  unfold check_homogeneous.
  change (auto_tabular glyph_canon_opts_default) with true.
  change (min_rows glyph_canon_opts_default) with 3.
  change (max_cols glyph_canon_opts_default) with 64.
  cbv iota. rewrite length_map.
  split.
  - intros Hlen Hobj Hn Hall.
    destruct (Z.ltb_spec (Z.of_nat (List.length items)) 3) as [|_]; [lia|].
    destruct (collect_keys (map item_entries items) []) as [keys|] eqn:E.
    2:{ apply collect_keys_objects, in_map_iff in E as (item & E & Hin).
        rewrite Forall_forall in Hobj. now destruct (Hobj item Hin). }
    destruct (collected_keys_are_union items cols common keys Hc Hu Hk E)
      as [L1 L2].
    assert (List.length common = List.length cols) as L3.
    { destruct Hu as [Hnd Hcols], Hk as [Hndc Hcommon].
      apply same_members_length; trivial. intros k. split; [|apply Hall].
      rewrite Hcommon, Hcols. tauto. }
    unfold common_count. rewrite L2, L3, L1.
    destruct (Z.eqb_spec (Z.of_nat (List.length cols)) 0) as [|_]; [lia|].
    destruct (Z.ltb_spec 64 (Z.of_nat (List.length cols))) as [|_]; [lia|].
    destruct (Z.ltb_spec (Z.of_nat (List.length cols) * 2)
                         (Z.of_nat (List.length cols))) as [|_]; [lia|].
    apply write_tabular_shape.
  - assert (forall t, begins_with "[" ("[" ++ t)) as Hlist by (intros t; now exists t).
    intros [Hlen|Hhalf].
    + destruct (Z.ltb_spec (Z.of_nat (List.length items)) 3) as [_|]; [|lia].
      apply Hlist.
    + destruct (_ <? 3); [apply Hlist|].
      destruct (collect_keys (map item_entries items) []) as [keys|] eqn:E;
        [|apply Hlist].
      destruct (collected_keys_are_union items cols common keys Hc Hu Hk E)
        as [L1 L2].
      unfold common_count. rewrite L2, L1.
      destruct (_ || _); [apply Hlist|].
      destruct (Z.ltb_spec (Z.of_nat (List.length common) * 2)
                           (Z.of_nat (List.length cols))) as [_|]; [|lia].
      apply Hlist.
Qed.

Lemma has_field_VMap (k : string) (entries : list glyph_map_entry_t) :
  has_field k (VMap entries) <-> In k (map fst entries).
Proof.
  unfold has_field. simpl. split.
  - now intros (es & [= <-] & H).
  - intros H. now exists entries.
Qed.

Definition xy_rows : list glyph_value_t :=
  [VMap [("x", VInt 0); ("y", VInt 0)];
   VMap [("x", VInt 1); ("y", VInt 2)];
   VMap [("y", VInt 4); ("x", VInt 2)]].

Definition abc_rows : list glyph_value_t :=
  [VMap [("a", VInt 1)]; VMap [("b", VInt 2)]; VMap [("c", VInt 3)]].

Ltac key_sets :=
  split;
  [ repeat constructor; simpl; intuition discriminate
  | intros k; rewrite ?Exists_cons, ?Exists_nil, ?Forall_cons_iff, ?Forall_nil_iff,
      ?has_field_VMap; simpl; intuition (subst; try discriminate; tauto) ].

Lemma C2_tabular_threshold_witness :
  (exists out, glyph_canonicalize_loose descending (Some (VList xy_rows)) = Some out
               /\ begins_with "@tab " out /\ ends_with "@end" out)
  /\ (exists out, glyph_canonicalize_loose descending (Some (VList abc_rows))
                  = Some out
                  /\ begins_with "[" out).
Proof.
  split.
  - destruct (C2_tabular_threshold descending xy_rows ["x"; "y"] ["x"; "y"])
      as (out & E & Htab & _).
    + repeat constructor; intros es [= <-]; repeat constructor.
    + unfold key_union, xy_rows. key_sets.
    + unfold common_keys, xy_rows. key_sets.
    + exists out. split; [exact E|]. apply Htab.
      * simpl. lia.
      * repeat constructor; discriminate.
      * simpl. lia.
      * trivial.
  - destruct (C2_tabular_threshold descending abc_rows ["a"; "b"; "c"] [])
      as (out & E & _ & Hlist).
    + repeat constructor; intros es [= <-]; repeat constructor.
    + unfold key_union, abc_rows. key_sets.
    + unfold common_keys, abc_rows. key_sets.
    + exists out. split; [exact E|]. apply Hlist. right. simpl. lia.
Defined.

(** ** Reading numbers back *)

(** What may follow a value inside a JSON text: the end of the input,
    white space, or one of [, ] }]. *)
Definition delimiter (c : ascii) : bool :=
  isspace c || Ascii.eqb c "," || Ascii.eqb c "]" || Ascii.eqb c "}".

Definition delimited (rest : string) : Prop :=
  match rest with
  | EmptyString => True
  | String c _ => delimiter c = true
  end.

Lemma delimiter_cases (c : ascii) :
  delimiter c = true ->
  isdigit c = false /\ Ascii.eqb c "." = false /\ Ascii.eqb c "e" = false
  /\ Ascii.eqb c "E" = false /\ Ascii.eqb c "-" = false /\ Ascii.eqb c "+" = false.
Proof.
  unfold delimiter, isspace, isdigit. intros H.
  repeat match goal with
         | |- context [Ascii.eqb c ?k] =>
             destruct (Ascii.eqb_spec c k) as [->|]; [now vm_compute in H|]
         end.
  repeat split. repeat rewrite orb_true_iff in H.
  destruct H as [[[H|H]|H]|H]; try lia;
    apply Ascii.eqb_eq in H; subst c; reflexivity.
Qed.

Lemma digit_char_spec (d : Z) :
  0 <= d < 10 -> isdigit (digit_char d) = true /\ uchar (digit_char d) - 48 = d.
Proof.
  intros H.
  assert (d = 0 \/ d = 1 \/ d = 2 \/ d = 3 \/ d = 4 \/ d = 5 \/ d = 6 \/ d = 7
          \/ d = 8 \/ d = 9) as E by lia.
  repeat (destruct E as [->|E]; [split; reflexivity|]). subst d. split; reflexivity.
Qed.

(** [read_digits] walks through the digits [dec_digits] writes. *)
Lemma read_dec_digits (fuel : nat) (n : Z) (acc : string) :
  0 <= n < 2 ^ Z.of_nat (S fuel) ->
  exists k, 0 < k /\
    forall a c tail,
      read_digits (dec_digits (S fuel) n acc ++ tail) a c
      = read_digits (acc ++ tail) (a * 10 ^ k + n) (c + k).
Proof.
  revert n acc. induction fuel as [|fuel IH]; intros n acc Hn;
    change (dec_digits (S ?f) n acc)
      with (let acc' := String (digit_char (n mod 10)) acc in
            if n <? 10 then acc' else dec_digits f (n / 10) acc');
    cbv zeta;
    (destruct (digit_char_spec (n mod 10)) as [Hd Hv];
      [apply Z.mod_pos_bound; lia|]);
    destruct (Z.ltb_spec n 10) as [Hlt|Hge].
  - exists 1. split; [lia|]. intros a c tail. simpl. rewrite Hd, Hv.
    rewrite Z.mod_small by lia. f_equal; lia.
  - simpl in Hn. lia.
  - exists 1. split; [lia|]. intros a c tail. simpl. rewrite Hd, Hv.
    rewrite Z.mod_small by lia. f_equal; lia.
  - destruct (IH (n / 10) (String (digit_char (n mod 10)) acc)) as (k & Hk & H).
    { split; [apply Z.div_pos; lia|].
      apply Z.div_lt_upper_bound; [lia|].
      rewrite (Nat2Z.inj_succ (S fuel)), Z.pow_succ_r in Hn by lia. lia. }
    exists (k + 1). split; [lia|]. intros a c tail. rewrite H. simpl.
    rewrite Hd, Hv. f_equal; [|lia].
    rewrite Z.pow_add_r by lia. pose proof (Z.div_mod n 10). lia.
Qed.

Lemma dec_digits_head (fuel : nat) (n : Z) (acc : string) :
  0 <= n ->
  exists d t, dec_digits (S fuel) n acc = String d t /\ isdigit d = true.
Proof.
  revert n acc. induction fuel as [|fuel IH]; intros n acc Hn.
  - cbn [dec_digits]. destruct (digit_char_spec (n mod 10)) as [Hd _];
      [apply Z.mod_pos_bound; lia|].
    destruct (n <? 10); eauto.
  - change (dec_digits (S (S fuel)) n acc)
      with (let acc' := String (digit_char (n mod 10)) acc in
            if n <? 10 then acc' else dec_digits (S fuel) (n / 10) acc').
    cbv zeta. destruct (digit_char_spec (n mod 10)) as [Hd _];
      [apply Z.mod_pos_bound; lia|].
    destruct (n <? 10); [eauto|]. apply IH. apply Z.div_pos; lia.
Qed.

Lemma fmt_lu_fuel (n : Z) : 0 <= n -> n < 2 ^ Z.of_nat (S (Z.to_nat (Z.log2 n))).
Proof.
  intros Hn. rewrite Nat2Z.inj_succ, Z2Nat.id by apply Z.log2_nonneg.
  destruct (Z.eq_dec n 0) as [->|]; [reflexivity|].
  apply Z.log2_spec. lia.
Qed.

Lemma read_digits_delimited (rest : string) (a c : Z) :
  delimited rest -> read_digits rest a c = (a, c, rest).
Proof.
  destruct rest as [|x t]; simpl; [reflexivity|]. intros H.
  now destruct (delimiter_cases x H) as (-> & _).
Qed.

Lemma is_float_mark_delimited (rest : string) :
  delimited rest -> is_float_mark rest = false.
Proof.
  destruct rest as [|x t]; simpl; [reflexivity|]. intros H.
  now destruct (delimiter_cases x H) as (_ & -> & -> & -> & _).
Qed.

Lemma fmt_lu_head (n : Z) :
  0 <= n -> exists d t, fmt_lu n = String d t /\ isdigit d = true.
Proof. intros H. now apply dec_digits_head. Qed.

Lemma isdigit_not_space (c : ascii) : isdigit c = true -> isspace c = false.
Proof. unfold isdigit, isspace. lia. Qed.

Lemma isdigit_not_sign (c : ascii) (t : string) :
  isdigit c = true -> read_sign (String c t) = (false, String c t).
Proof.
  intros H. unfold read_sign.
  destruct (Ascii.eqb_spec c "-") as [->|]; [discriminate|].
  destruct (Ascii.eqb_spec c "+") as [->|]; [discriminate|].
  reflexivity.
Qed.

Lemma strtoll_fmt_lu (n : Z) (rest : string) :
  0 <= n -> delimited rest ->
  read_digits (fmt_lu n ++ rest) 0 0 = (n, snd (fst (read_digits (fmt_lu n ++ rest) 0 0)), rest)
  /\ 0 < snd (fst (read_digits (fmt_lu n ++ rest) 0 0)).
Proof.
  intros Hn Hr. unfold fmt_lu.
  destruct (read_dec_digits (Z.to_nat (Z.log2 n)) n "") as (k & Hk & H).
  { split; [assumption | now apply fmt_lu_fuel]. }
  rewrite H. simpl append. rewrite read_digits_delimited by assumption.
  simpl. split; [reflexivity | lia].
Qed.

(** [strtoll] reads back what ["%ld"] wrote. *)
Lemma strtoll_fmt_ld (z : Z) (rest : string) :
  LLONG_MIN <= z <= LLONG_MAX -> delimited rest ->
  strtoll (fmt_ld z ++ rest) = Some (z, rest).
Proof.
  intros Hz Hr. unfold strtoll, fmt_ld.
  destruct (Z.ltb_spec z 0) as [Hneg|Hpos].
  - change (String "-" (fmt_lu (- z)) ++ rest) with (String "-" (fmt_lu (- z) ++ rest)).
    cbn [skip_space isspace]. change (isspace "-") with false. cbv iota.
    unfold read_sign. change (Ascii.eqb "-" "-") with true. cbv iota.
    destruct (strtoll_fmt_lu (- z) rest) as [E Hc]; [lia | assumption|].
    rewrite E. destruct (Z.eqb_spec (snd (fst (read_digits (fmt_lu (- z) ++ rest) 0 0))) 0);
      [lia|]. f_equal. f_equal. lia.
  - destruct (fmt_lu_head z Hpos) as (d & t & E & Hd).
    destruct (strtoll_fmt_lu z rest Hpos Hr) as [E' Hc].
    rewrite E in *. cbn [append skip_space] in *.
    rewrite (isdigit_not_space d Hd), (isdigit_not_sign d _ Hd).
    rewrite E'. destruct (Z.eqb_spec (snd (fst (read_digits (String d (t ++ rest)) 0 0))) 0);
      [lia|]. f_equal. f_equal. lia.
Qed.

(** The scanners stop at a delimiter as they stop at the end of the
    input: reading a text followed by delimited input gives what reading
    the text alone gives, with that input left over. *)
Lemma read_digits_app (s rest : string) (a c : Z) :
  delimited rest ->
  read_digits (s ++ rest) a c
  = let '(v, n, r) := read_digits s a c in (v, n, r ++ rest).
Proof.
  intros Hr. revert a c. induction s as [|x t IH]; intros a c; simpl.
  - now apply read_digits_delimited.
  - destruct (isdigit x); [apply IH | reflexivity].
Qed.

Lemma read_sign_app (s rest : string) :
  delimited rest ->
  read_sign (s ++ rest) = let '(b, r) := read_sign s in (b, r ++ rest).
Proof.
  intros Hr. destruct s as [|x t]; simpl.
  - destruct rest as [|y u]; [reflexivity|]. simpl.
    now destruct (delimiter_cases y Hr) as (_ & _ & _ & _ & -> & ->).
  - destruct (Ascii.eqb x "-"); [reflexivity|]. now destruct (Ascii.eqb x "+").
Qed.

Lemma read_exponent_app (s rest : string) :
  delimited rest ->
  read_exponent (s ++ rest) = let '(x, r) := read_exponent s in (x, r ++ rest).
Proof.
  intros Hr. destruct s as [|c t]; simpl.
  - destruct rest as [|y u]; [reflexivity|]. simpl.
    now destruct (delimiter_cases y Hr) as (_ & _ & -> & -> & _).
  - destruct (Ascii.eqb c "e" || Ascii.eqb c "E"); [|reflexivity].
    rewrite (read_sign_app t rest Hr). destruct (read_sign t) as [neg t1].
    rewrite (read_digits_app t1 rest 0 0 Hr).
    destruct (read_digits t1 0 0) as [[x cnt] r]. now destruct (cnt =? 0).
Qed.

Definition number_head (c : ascii) : bool := Ascii.eqb c "-" || isdigit c.

Lemma number_head_not_space (c : ascii) : number_head c = true -> isspace c = false.
Proof.
  unfold number_head. destruct (Ascii.eqb_spec c "-") as [->|]; [reflexivity|].
  apply isdigit_not_space.
Qed.

Lemma strtoll_app (c : ascii) (t rest : string) :
  number_head c = true -> delimited rest ->
  strtoll (String c t ++ rest)
  = match strtoll (String c t) with
    | Some (v, r) => Some (v, r ++ rest)
    | None => None
    end.
Proof.
  intros Hc Hr. unfold strtoll. cbn [append skip_space].
  rewrite (number_head_not_space c Hc).
  change (String c (t ++ rest)) with (String c t ++ rest).
  rewrite (read_sign_app (String c t) rest Hr).
  destruct (read_sign (String c t)) as [neg s1].
  rewrite (read_digits_app s1 rest 0 0 Hr).
  destruct (read_digits s1 0 0) as [[v cnt] r]. now destruct (cnt =? 0).
Qed.

Lemma strtod_app (c : ascii) (t rest : string) :
  number_head c = true -> delimited rest ->
  strtod (String c t ++ rest)
  = match strtod (String c t) with
    | Some (d, r) => Some (d, r ++ rest)
    | None => None
    end.
Proof.
  intros Hc Hr. unfold strtod. cbn [append skip_space].
  rewrite (number_head_not_space c Hc).
  change (String c (t ++ rest)) with (String c t ++ rest).
  rewrite (read_sign_app (String c t) rest Hr).
  destruct (read_sign (String c t)) as [neg s1].
  rewrite (read_digits_app s1 rest 0 0 Hr).
  destruct (read_digits s1 0 0) as [[ip icnt] r1].
  assert (match r1 ++ rest with
          | String c0 t0 =>
              if Ascii.eqb c0 "." then read_digits t0 ip 0 else (ip, 0, r1 ++ rest)
          | EmptyString => (ip, 0, r1 ++ rest)
          end
          = let '(m, fcnt, r2) :=
              match r1 with
              | String c0 t0 =>
                  if Ascii.eqb c0 "." then read_digits t0 ip 0 else (ip, 0, r1)
              | EmptyString => (ip, 0, r1)
              end in (m, fcnt, r2 ++ rest)) as ->.
  { destruct r1 as [|y u]; simpl.
    - destruct rest as [|z w]; [reflexivity|].
      now destruct (delimiter_cases z Hr) as (_ & -> & _).
    - destruct (Ascii.eqb y "."); [|reflexivity].
      apply (read_digits_app u rest ip 0 Hr). }
  destruct (match r1 with String _ _ => _ | EmptyString => _ end) as [[m fcnt] r2].
  destruct (icnt + fcnt =? 0); [reflexivity|].
  rewrite (read_exponent_app r2 rest Hr).
  now destruct (read_exponent r2) as [x r3].
Qed.

Lemma is_float_mark_app (r rest : string) :
  delimited rest -> is_float_mark (r ++ rest) = is_float_mark r.
Proof.
  intros Hr. destruct r; [now apply is_float_mark_delimited | reflexivity].
Qed.

Lemma parse_number_app (c : ascii) (t rest : string) :
  number_head c = true -> delimited rest ->
  parse_number (String c t ++ rest)
  = match parse_number (String c t) with
    | Parsed v r => Parsed v (r ++ rest)
    | Failed => Failed
    | OutOfFuel => OutOfFuel
    end.
Proof.
  intros Hc Hr. unfold parse_number, skip_whitespace. cbn [append skip_space].
  rewrite (number_head_not_space c Hc).
  change (String c (t ++ rest)) with (String c t ++ rest).
  rewrite (strtoll_app c t rest Hc Hr), (strtod_app c t rest Hc Hr).
  destruct (strtoll (String c t)) as [[v r]|]; [|reflexivity].
  rewrite (is_float_mark_app r rest Hr).
  destruct (is_float_mark r); [|reflexivity].
  now destruct (strtod (String c t)) as [[d r']|].
Qed.

(** ** Reading strings back *)

(** [parse_string] undoes the escapes of [write_json_string], byte by
    byte. *)
Lemma parse_quoted_byte (c : ascii) (tail : string) :
  parse_string_loop (quoted_byte c ++ tail) = push (str1 c) (parse_string_loop tail).
Proof.
  destruct c as [[] [] [] [] [] [] [] []]; reflexivity.
Qed.

Lemma parse_quoted_body (s rest : string) :
  parse_string_loop (quoted_body s ++ String dquote rest) = Some (s, rest).
Proof.
  induction s as [|c s IH]; [reflexivity|].
  cbn [quoted_body]. rewrite append_assoc, parse_quoted_byte, IH. reflexivity.
Qed.

Lemma parse_json_string (s rest : string) :
  parse_string (write_json_string s ++ rest) = Some (s, rest).
Proof.
  unfold write_json_string, parse_string.
  rewrite !append_assoc. change (str1 dquote ++ ?x) with (String dquote x).
  unfold next, skip_whitespace. cbn [skip_space]. change (isspace dquote) with false.
  cbv iota. change (Ascii.eqb dquote dquote) with true. cbv iota.
  apply parse_quoted_body.
Qed.

Lemma c_str_id (s : string) : is_c_str s = true -> c_str s = s.
Proof.
  induction s as [|c s IH]; [reflexivity|]. intros H.
  apply is_c_str_cons in H as [Hc Hs]. simpl.
  destruct (Z.eqb_spec (uchar c) 0); [contradiction|]. now rewrite IH.
Qed.

(** ** What a value becomes on the way through JSON *)

(** The kinds that JSON has. *)
Definition json_kind (v : glyph_value_t) : bool :=
  match v with
  | VNull | VBool _ | VInt _ | VFloat _ | VStr _ | VList _ | VMap _ => true
  | _ => false
  end.

(** The strings of a node are C strings. *)
Definition c_strings (v : glyph_value_t) : bool :=
  match v with
  | VStr str_val => is_c_str (or_empty str_val)
  | VMap entries => forallb (fun e => is_c_str (fst e)) entries
  | VStruct type_name fields =>
      is_c_str (or_empty type_name) && forallb (fun e => is_c_str (fst e)) fields
  | VId prefix value => is_c_str (or_empty prefix) && is_c_str (or_empty value)
  | VSum tag _ => is_c_str (or_empty tag)
  | _ => true
  end.

(** The number that the parser reads in the ["%.15g"] text of a double,
    when it reads all of that text as a number. *)
Definition reread_float (f : double) : option glyph_value_t :=
  match fmt_g15 f with
  | String c _ as text =>
      if number_head c && is_c_str text then
        match parse_number text with
        | Parsed v EmptyString => Some v
        | _ => None
        end
      else None
  | EmptyString => None
  end.

(** A double is stable when the number read back from its text has the
    canonical form of the double itself. *)
Definition float_stable (f : double) : bool :=
  match reread_float f with
  | Some v =>
      String.eqb (write_canon_value ascending glyph_canon_opts_default v)
                 (write_canon_value ascending glyph_canon_opts_default (VFloat f))
  | None => false
  end.

Definition stable_floats (v : glyph_value_t) : bool :=
  match v with
  | VFloat f => float_stable f
  | _ => true
  end.

(** The value that parsing the JSON text of [v] builds. *)
Fixpoint json_image (v : glyph_value_t) : glyph_value_t :=
  match v with
  | VInt n => VInt (Printf.to_long n)
  | VFloat f => match reread_float f with Some v' => v' | None => v end
  | VStr s => VStr (Some (or_empty s))
  | VList items => VList (map json_image items)
  | VMap entries => VMap (map (fun e => (fst e, json_image (snd e))) entries)
  | VStruct tn fields => VStruct tn (map (fun e => (fst e, json_image (snd e))) fields)
  | _ => v
  end.

Definition json_ok (v : glyph_value_t) : bool :=
  json_kind v && c_strings v && stable_floats v.

Definition is_number (v : glyph_value_t) : bool :=
  match v with
  | VInt _ | VFloat _ => true
  | _ => false
  end.








(** ** JSON texts of a value

    [json_text v s]: [s] is the text [write_json_value] writes for [v],
    with any amount of white space added between its tokens. *)

Definition is_ws (w : string) : Prop := all_bytes isspace w = true.

Definition is_scalar (v : glyph_value_t) : bool :=
  match v with
  | VNull | VBool _ | VInt _ | VFloat _ | VStr _ => true
  | _ => false
  end.

Inductive json_text : glyph_value_t -> string -> Prop :=
| JT_scalar (w : string) (v : glyph_value_t) :
    is_ws w -> is_scalar v = true -> json_text v (w ++ write_json_value v)
| JT_list_nil (w1 w2 : string) :
    is_ws w1 -> is_ws w2 -> json_text (VList []) (w1 ++ "[" ++ w2 ++ "]")
| JT_list (w1 : string) (items : list glyph_value_t) (body : string) :
    is_ws w1 -> json_elems items body ->
    json_text (VList items) (w1 ++ "[" ++ body ++ "]")
| JT_map_nil (w1 w2 : string) :
    is_ws w1 -> is_ws w2 -> json_text (VMap []) (w1 ++ "{" ++ w2 ++ "}")
| JT_map (w1 : string) (entries : list (string * glyph_value_t)) (body : string) :
    is_ws w1 -> json_members entries body ->
    json_text (VMap entries) (w1 ++ "{" ++ body ++ "}")
with json_elems : list glyph_value_t -> string -> Prop :=
| JE_last (x : glyph_value_t) (t w : string) :
    json_text x t -> is_ws w -> json_elems [x] (t ++ w)
| JE_cons (x : glyph_value_t) (l : list glyph_value_t) (t w b : string) :
    json_text x t -> is_ws w -> json_elems l b ->
    json_elems (x :: l) (t ++ w ++ "," ++ b)
with json_members : list (string * glyph_value_t) -> string -> Prop :=
| JM_last (k : string) (x : glyph_value_t) (w1 w2 t w3 : string) :
    is_ws w1 -> is_ws w2 -> json_text x t -> is_ws w3 ->
    json_members [(k, x)] (w1 ++ write_json_string k ++ w2 ++ ":" ++ t ++ w3)
| JM_cons (k : string) (x : glyph_value_t) (l : list (string * glyph_value_t))
    (w1 w2 t w3 b : string) :
    is_ws w1 -> is_ws w2 -> json_text x t -> is_ws w3 -> json_members l b ->
    json_members ((k, x) :: l)
      (w1 ++ write_json_string k ++ w2 ++ ":" ++ t ++ w3 ++ "," ++ b).

(** *** White space *)

Lemma is_ws_nil : is_ws "".
Proof. reflexivity. Qed.

Lemma is_ws_cons (c : ascii) (w : string) :
  is_ws (String c w) <-> isspace c = true /\ is_ws w.
Proof. unfold is_ws. simpl. destruct (isspace c); intuition congruence. Qed.

Lemma skip_space_ws (w t : string) : is_ws w -> skip_space (w ++ t) = skip_space t.
Proof.
  induction w as [|c w IH]; intros H; [reflexivity|].
  apply is_ws_cons in H as [Hc Hw]. simpl. rewrite Hc. now apply IH.
Qed.

Lemma skip_space_head (c : ascii) (t : string) :
  isspace c = false -> skip_space (String c t) = String c t.
Proof. intros H. simpl. now rewrite H. Qed.

Lemma skip_space_idem (p : string) : skip_space (skip_space p) = skip_space p.
Proof.
  induction p as [|c p IH]; [reflexivity|]. simpl.
  destruct (isspace c) eqn:E; [assumption|]. simpl. now rewrite E.
Qed.

Lemma peek_skip (p : string) : peek (skip_whitespace p) = peek p.
Proof. unfold peek, skip_whitespace. now rewrite skip_space_idem. Qed.

Lemma peek_ws (w t : string) : is_ws w -> peek (w ++ t) = peek t.
Proof. intros H. unfold peek, skip_whitespace. now rewrite skip_space_ws. Qed.

Lemma peek_head (c : ascii) (t : string) :
  isspace c = false -> peek (String c t) = (c, String c t).
Proof. intros H. unfold peek, skip_whitespace. now rewrite skip_space_head. Qed.

Lemma next_ws (w t : string) : is_ws w -> next (w ++ t) = next t.
Proof. intros H. unfold next, skip_whitespace. now rewrite skip_space_ws. Qed.

Lemma next_head (c : ascii) (t : string) :
  isspace c = false -> next (String c t) = (c, t).
Proof. intros H. unfold next, skip_whitespace. now rewrite skip_space_head. Qed.

Lemma parse_value_skip (fuel : nat) (p : string) :
  parse_value fuel (skip_space p) = parse_value fuel p.
Proof.
  destruct fuel; [reflexivity|]. cbn [parse_value].
  unfold skip_whitespace. now rewrite skip_space_idem.
Qed.

Lemma parse_value_ws (fuel : nat) (w p : string) :
  is_ws w -> parse_value fuel (w ++ p) = parse_value fuel p.
Proof.
  intros H. rewrite <- parse_value_skip, skip_space_ws by assumption.
  apply parse_value_skip.
Qed.

(** *** Tokens *)

(** [parse_value] on input that begins with a token. *)
Lemma parse_value_head (fuel : nat) (c : ascii) (t : string) :
  isspace c = false ->
  parse_value (S fuel) (String c t)
  = let p := String c t in
    match (if Ascii.eqb c "n" then match_ p "null" else None) with
    | Some p => Parsed glyph_null p
    | None =>
    match (if Ascii.eqb c "t" then match_ p "true" else None) with
    | Some p => Parsed (glyph_bool true) p
    | None =>
    match (if Ascii.eqb c "f" then match_ p "false" else None) with
    | Some p => Parsed (glyph_bool false) p
    | None =>
        if Ascii.eqb c dquote then
          match parse_string p with
          | None => Failed
          | Some (s, p) => Parsed (glyph_str (Some s)) p
          end
        else if Ascii.eqb c "[" then parse_array (parse_value fuel) fuel p
        else if Ascii.eqb c "{" then parse_object (parse_value fuel) fuel p
        else if Ascii.eqb c "-" || isdigit c then parse_number p
        else Failed
    end end end.
Proof.
  intros H. cbn [parse_value]. rewrite peek_skip, (peek_head c t H). reflexivity.
Qed.

Lemma number_head_tests (c : ascii) :
  number_head c = true ->
  Ascii.eqb c "n" = false /\ Ascii.eqb c "t" = false /\ Ascii.eqb c "f" = false
  /\ Ascii.eqb c dquote = false /\ Ascii.eqb c "[" = false
  /\ Ascii.eqb c "{" = false.
Proof.
  intros H.
  repeat match goal with
         | |- context [Ascii.eqb c ?k] =>
             destruct (Ascii.eqb_spec c k) as [->|]; [now vm_compute in H|]
         end.
  now repeat split.
Qed.

Lemma parse_value_number (fuel : nat) (c : ascii) (t : string) :
  number_head c = true ->
  parse_value (S fuel) (String c t) = parse_number (String c t).
Proof.
  intros H. rewrite parse_value_head by now apply number_head_not_space.
  destruct (number_head_tests c H) as (-> & -> & -> & -> & -> & ->).
  unfold number_head in H. now rewrite H.
Qed.

Lemma fmt_ld_head (z : Z) :
  exists c t, fmt_ld z = String c t /\ number_head c = true.
Proof.
  unfold fmt_ld. destruct (Z.ltb_spec z 0).
  - now exists "-"%char, (fmt_lu (- z)).
  - destruct (fmt_lu_head z) as (d & t & E & Hd); [assumption|].
    exists d, t. split; [assumption|]. unfold number_head. now rewrite Hd, orb_true_r.
Qed.

Lemma to_long_range (n : Z) : LLONG_MIN <= Printf.to_long n <= LLONG_MAX.
Proof.
  unfold Printf.to_long, LLONG_MIN, LLONG_MAX.
  pose proof (Z.mod_pos_bound (n + 2 ^ 63) (2 ^ 64)). lia.
Qed.

(** The condition on what follows the text of a value: a number ends
    where a delimiter begins. *)
Definition tail_ok (v : glyph_value_t) (rest : string) : Prop :=
  is_number v = true -> delimited rest.

Lemma parse_scalar (fuel : nat) (v : glyph_value_t) (rest : string) :
  is_scalar v = true -> json_ok v = true -> tail_ok v rest ->
  parse_value (S fuel) (write_json_value v ++ rest) = Parsed (json_image v) rest.
Proof.
  intros Hs Hok Ht. destruct v as [|b|n|f|s| | | | | | | ]; try discriminate.
  - reflexivity.
  - now destruct b.
  - cbn [write_json_value json_image].
    destruct (fmt_ld_head (Printf.to_long n)) as (c & t & E & Hc).
    pose proof (strtoll_fmt_ld (Printf.to_long n) rest (to_long_range n)
                  (Ht eq_refl)) as Hll.
    rewrite E in *. cbn [append] in *. rewrite (parse_value_number fuel c _ Hc).
    unfold parse_number, skip_whitespace.
    rewrite (skip_space_head c _ (number_head_not_space c Hc)), Hll.
    now rewrite (is_float_mark_delimited rest (Ht eq_refl)).
  - unfold json_ok, stable_floats, float_stable in Hok. simpl in Hok.
    cbn [write_json_value json_image].
    destruct (reread_float f) as [v'|] eqn:E; [|discriminate].
    unfold reread_float in E. destruct (fmt_g15 f) as [|c t]; [discriminate|].
    destruct (number_head c) eqn:Hc; [|discriminate]. simpl in E.
    destruct (is_c_str (String c t)); [|discriminate].
    cbn [append]. rewrite (parse_value_number fuel c _ Hc).
    change (String c (t ++ rest)) with (String c t ++ rest).
    rewrite (parse_number_app c t rest Hc (Ht eq_refl)).
    destruct (parse_number (String c t)) as [v'' [|]| |]; try discriminate.
    now injection E as ->.
  - unfold json_ok in Hok. simpl in Hok. rewrite andb_true_r in Hok.
    cbn [write_json_value json_image].
    unfold write_json_string at 1. rewrite !append_assoc.
    change (str1 dquote ++ ?x) with (String dquote x).
    rewrite parse_value_head by reflexivity. cbv zeta.
    change (Ascii.eqb dquote "n") with false.
    change (Ascii.eqb dquote "t") with false.
    change (Ascii.eqb dquote "f") with false.
    change (Ascii.eqb dquote dquote) with true. cbv iota.
    pose proof (parse_json_string (or_empty s) rest) as Hp.
    unfold write_json_string in Hp. rewrite !append_assoc in Hp.
    change (str1 dquote ++ ?x) with (String dquote x) in Hp. rewrite Hp.
    unfold glyph_str, strdup_safe. now rewrite c_str_id.
Qed.

Lemma next_skip_ws (w t : string) : is_ws w -> next (skip_space (w ++ t)) = next t.
Proof.
  intros H. unfold next, skip_whitespace. now rewrite skip_space_idem, skip_space_ws.
Qed.

(** *** Containers *)

(** The first character of a value: not white space and none of [, ] }]. *)
Definition value_head (c : ascii) : Prop :=
  isspace c = false /\ delimiter c = false.

Definition begins_value (s : string) : Prop :=
  exists w c t, s = w ++ String c t /\ is_ws w /\ value_head c.

Lemma number_head_value_head (c : ascii) : number_head c = true -> value_head c.
Proof.
  intros H. split; [now apply number_head_not_space|].
  unfold delimiter. rewrite (number_head_not_space c H).
  repeat match goal with
         | |- context [Ascii.eqb c ?k] =>
             destruct (Ascii.eqb_spec c k) as [->|]; [now vm_compute in H|]
         end.
  reflexivity.
Qed.

Lemma begins_value_app (s x : string) : begins_value s -> begins_value (s ++ x).
Proof.
  intros (w & c & t & -> & Hw & Hc). exists w, c, (t ++ x).
  now rewrite append_assoc.
Qed.

Lemma json_text_begins (v : glyph_value_t) (s : string) :
  json_ok v = true -> json_text v s -> begins_value s.
Proof.
  intros Hok H. destruct H as [w v Hw Hs|w1 w2 Hw _|w1 items body Hw _|w1 w2 Hw _
                              |w1 entries body Hw _].
  - destruct v as [|b|n|f|s| | | | | | | ]; try discriminate.
    + now exists w, "n"%char, "ull".
    + destruct b; [now exists w, "t"%char, "rue" | now exists w, "f"%char, "alse"].
    + cbn [write_json_value].
      destruct (fmt_ld_head (Printf.to_long n)) as (c & t & -> & Hc).
      exists w, c, t. repeat split; trivial; now apply number_head_value_head.
    + unfold json_ok, stable_floats, float_stable, reread_float in Hok.
      cbn [write_json_value]. simpl in Hok.
      destruct (fmt_g15 f) as [|c t]; [discriminate|].
      destruct (number_head c) eqn:Hc; [|discriminate].
      exists w, c, t. repeat split; trivial; now apply number_head_value_head.
    + now exists w, dquote, (quoted_body (or_empty s) ++ str1 dquote).
  - now exists w1, "["%char, (w2 ++ "]").
  - now exists w1, "["%char, (body ++ "]").
  - now exists w1, "{"%char, (w2 ++ "}").
  - now exists w1, "{"%char, (body ++ "}").
Qed.

Lemma peek_begins (s : string) :
  begins_value s ->
  exists c t, peek s = (c, String c t) /\ skip_space s = String c t /\ value_head c.
Proof.
  intros (w & c & t & -> & Hw & Hc). exists c, t.
  destruct Hc as [Hs Hd].
  rewrite (peek_ws w _ Hw), (peek_head c t Hs), (skip_space_ws w _ Hw),
    (skip_space_head c t Hs).
  now repeat split.
Qed.

Lemma delimited_ws (w : string) (c : ascii) (t : string) :
  is_ws w -> delimiter c = true -> delimited (w ++ String c t).
Proof.
  intros Hw Hc. destruct w as [|x w]; [exact Hc|].
  apply is_ws_cons in Hw as [Hx _]. simpl. unfold delimiter. now rewrite Hx.
Qed.

Lemma parse_array_loop_skip (pv : string -> parse_result glyph_value_t)
    (n : nat) (list : option glyph_value_t) (p : string) :
  (forall q, pv (skip_space q) = pv q) ->
  parse_array_loop pv n list (skip_space p) = parse_array_loop pv n list p.
Proof. intros H. destruct n; [reflexivity|]. cbn [parse_array_loop]. now rewrite H. Qed.

(** What the main statement says of one value: its texts are parsed, with
    enough fuel, into its image. *)
Definition parses (v : glyph_value_t) : Prop :=
  forall (s rest : string) (fuel : nat),
    json_text v s -> (String.length s < fuel)%nat -> tail_ok v rest ->
    parse_value fuel (s ++ rest) = Parsed (json_image v) rest.

Lemma parse_elems (fuel : nat) (items : list glyph_value_t) :
  Forall parses items ->
  forall (n : nat) (body : string) (acc : list glyph_value_t) (rest : string),
    json_elems items body ->
    (String.length body < n)%nat -> (String.length body < fuel)%nat ->
    parse_array_loop (parse_value fuel) n (Some (VList acc)) (body ++ "]" ++ rest)
    = Parsed (VList (acc ++ map json_image items)) rest.
Proof.
  induction 1 as [|x l Hx Hl IH]; intros n body acc rest Hb Hn Hf;
    inversion Hb as [x' t w Ht Hw|x' l' t w b Ht Hw Hb']; subst;
    (destruct n as [|n]; [lia|]); cbn [parse_array_loop];
    rewrite !append_length in Hn, Hf; rewrite !append_assoc.
  - rewrite (Hx t (w ++ "]" ++ rest) fuel Ht) by
      (try lia; intros _; now apply delimited_ws).
    rewrite peek_skip, (peek_ws w _ Hw). cbn [append].
    rewrite peek_head by reflexivity.
    change (Ascii.eqb "]" "]") with true. cbv iota.
    rewrite next_head by reflexivity. reflexivity.
  - rewrite (Hx t (w ++ "," ++ b ++ "]" ++ rest) fuel Ht) by
      (try lia; intros _; now apply delimited_ws).
    rewrite peek_skip, (peek_ws w _ Hw). cbn [append].
    rewrite peek_head by reflexivity.
    change (Ascii.eqb "," "]") with false. change (Ascii.eqb "," ",") with true.
    cbv iota. cbn [negb]. cbv iota. rewrite next_head by reflexivity. cbn [snd].
    simpl in Hn, Hf.
    cbn [glyph_list_append].
    rewrite (IH n b _ rest Hb') by lia.
    cbn [map]. now rewrite <- app_assoc.
Qed.

Lemma parse_members (fuel : nat) (entries : list (string * glyph_value_t)) :
  Forall (fun e => parses (snd e)) entries ->
  Forall (fun e => is_c_str (fst e) = true) entries ->
  forall (n : nat) (body : string) (acc : list (string * glyph_value_t))
         (rest : string),
    json_members entries body ->
    (String.length body < n)%nat -> (String.length body < fuel)%nat ->
    parse_object_loop (parse_value fuel) n (Some (VMap acc)) (body ++ "}" ++ rest)
    = Parsed (VMap (acc ++ map (fun e => (fst e, json_image (snd e))) entries)) rest.
Proof.
  induction 1 as [|[k x] l Hx Hl IH]; intros Hkeys n body acc rest Hb Hn Hf;
    inversion Hb as [k' x' w1 w2 t w3 Hw1 Hw2 Ht Hw3
                    |k' x' l' w1 w2 t w3 b Hw1 Hw2 Ht Hw3 Hb']; subst;
    inversion Hkeys as [|? ? Hk Hkeys']; subst; simpl in Hk, Hx;
    (destruct n as [|n]; [lia|]); cbn [parse_object_loop];
    rewrite !append_length in Hn, Hf; rewrite !append_assoc;
    rewrite peek_skip, (peek_ws w1 _ Hw1);
    unfold write_json_string at 1; rewrite !append_assoc;
    change (str1 dquote ++ ?y) with (String dquote y);
    rewrite peek_head by reflexivity;
    change (Ascii.eqb dquote dquote) with true; cbn [negb]; cbv iota;
    match goal with
    | |- context [parse_string (String dquote (quoted_body k ++ str1 dquote ++ ?y))] =>
        pose proof (parse_json_string k y) as Hp
    end;
    unfold write_json_string in Hp; rewrite !append_assoc in Hp;
    change (str1 dquote ++ ?y) with (String dquote y) in Hp; rewrite Hp;
    unfold skip_whitespace at 1; rewrite next_skip_ws by assumption;
    cbn [append]; rewrite next_head by reflexivity;
    change (Ascii.eqb ":" ":") with true; cbn [negb]; cbv iota.
  - erewrite (Hx t _ fuel Ht);
      [|lia|intros _; now apply delimited_ws].
    rewrite peek_skip, (peek_ws w3 _ Hw3).
    rewrite peek_head by reflexivity.
    change (Ascii.eqb "}" "}") with true. cbv iota.
    rewrite next_head by reflexivity.
    cbn [glyph_map_set ret snd map]. now rewrite c_str_id.
  - erewrite (Hx t _ fuel Ht);
      [|lia|intros _; now apply delimited_ws].
    rewrite peek_skip, (peek_ws w3 _ Hw3).
    rewrite peek_head by reflexivity.
    change (Ascii.eqb "," "}") with false. change (Ascii.eqb "," ",") with true.
    cbv iota. cbn [negb]. cbv iota. rewrite next_head by reflexivity. cbn [snd].
    simpl in Hn, Hf.
    cbn [glyph_map_set]. rewrite c_str_id by assumption.
    rewrite (IH Hkeys' n b _ rest Hb') by lia.
    cbn [map fst snd]. now rewrite <- app_assoc.
Qed.

Lemma json_elems_begins (items : list glyph_value_t) (body : string) :
  Forall (fun x => json_ok x = true) items -> json_elems items body ->
  begins_value body.
Proof.
  intros Hok Hb.
  destruct Hb as [x t w Ht _|x l t w b Ht _ _];
    inversion Hok; subst; apply begins_value_app; now apply (json_text_begins x).
Qed.

Lemma forall_nodes_top (p : glyph_value_t -> bool) (v : glyph_value_t) :
  forall_nodes p v = true -> p v = true.
Proof. destruct v; simpl; intros H; now apply andb_true_iff in H as [H _]. Qed.

Lemma value_head_not (c : ascii) (k : ascii) :
  value_head c -> delimiter k = true -> Ascii.eqb c k = false.
Proof.
  intros [_ Hd] Hk. destruct (Ascii.eqb_spec c k) as [->|]; [congruence | reflexivity].
Qed.

(** The parser reads every JSON text of a value of the JSON kinds, with
    C strings and stable floats, as the image of that value. *)
Lemma json_text_parses (v : glyph_value_t) :
  forall_nodes json_ok v = true -> parses v.
Proof.
  induction v using glyph_value_induction; intros Hok txt rest fuel Hs Hf Ht;
    try (apply forall_nodes_top in Hok; discriminate);
    try (inversion Hs as [w v' Hw Hsc| | | |]; subst;
         (destruct fuel as [|fuel]; [lia|]);
         rewrite append_assoc, (parse_value_ws _ w _ Hw);
         apply parse_scalar; trivial; now apply forall_nodes_top in Hok).
  - apply forall_nodes_list in Hok as [Htop Hitems].
    assert (Forall parses items) as Hp.
    { rewrite Forall_forall in H, Hitems |- *. intros x Hx. now apply H, Hitems. }
    destruct fuel as [|fuel]; [lia|].
    inversion Hs as [w v' Hw Hsc|w1 w2 Hw1 Hw2|w1 items' body Hw1 Hb| |]; subst;
      try discriminate;
      rewrite !append_length in Hf; simpl in Hf; rewrite !append_assoc;
      rewrite (parse_value_ws _ w1 _ Hw1); cbn [append];
      rewrite parse_value_head by reflexivity; cbv zeta;
      change (Ascii.eqb "[" "n") with false; change (Ascii.eqb "[" "t") with false;
      change (Ascii.eqb "[" "f") with false; change (Ascii.eqb "[" dquote) with false;
      change (Ascii.eqb "[" "[") with true; cbv iota;
      unfold parse_array; rewrite next_head by reflexivity;
      change (Ascii.eqb "[" "[") with true; cbn [negb]; cbv iota;
      rewrite peek_skip.
    + rewrite (peek_ws w2 _ Hw2), peek_head by reflexivity.
      change (Ascii.eqb "]" "]") with true. cbv iota.
      now rewrite next_head by reflexivity.
    + assert (begins_value (body ++ String "]" rest)) as Hbv.
      { apply begins_value_app, (json_elems_begins items); trivial.
        eapply Forall_impl; [|exact Hitems]. intros x. apply forall_nodes_top. }
      destruct (peek_begins _ Hbv) as (c & t & -> & Hskip & Hc).
      rewrite (value_head_not c "]" Hc eq_refl). rewrite <- Hskip.
      rewrite parse_array_loop_skip by (intros q; apply parse_value_skip).
      apply (parse_elems fuel items Hp fuel body [] rest Hb); lia.
  - apply forall_nodes_map in Hok as [Htop Hitems].
    assert (Forall (fun e => parses (snd e)) entries) as Hp.
    { rewrite Forall_forall in H, Hitems |- *. intros x Hx. now apply H, Hitems. }
    assert (Forall (fun e => is_c_str (fst e) = true) entries) as Hkeys.
    { unfold json_ok in Htop. simpl in Htop. rewrite andb_true_r in Htop.
      rewrite Forall_forall. now rewrite forallb_forall in Htop. }
    destruct fuel as [|fuel]; [lia|].
    inversion Hs as [w v' Hw Hsc| | |w1 w2 Hw1 Hw2|w1 entries' body Hw1 Hb]; subst;
      try discriminate;
      rewrite !append_length in Hf; simpl in Hf; rewrite !append_assoc;
      rewrite (parse_value_ws _ w1 _ Hw1); cbn [append];
      rewrite parse_value_head by reflexivity; cbv zeta;
      change (Ascii.eqb "{" "n") with false; change (Ascii.eqb "{" "t") with false;
      change (Ascii.eqb "{" "f") with false; change (Ascii.eqb "{" dquote) with false;
      change (Ascii.eqb "{" "[") with false; change (Ascii.eqb "{" "{") with true;
      cbv iota;
      unfold parse_object; rewrite next_head by reflexivity;
      change (Ascii.eqb "{" "{") with true; cbn [negb]; cbv iota;
      rewrite peek_skip.
    + rewrite (peek_ws w2 _ Hw2), peek_head by reflexivity.
      change (Ascii.eqb "}" "}") with true. cbv iota.
      now rewrite next_head by reflexivity.
    + assert (exists w t, body ++ String "}" rest = w ++ String dquote t /\ is_ws w)
        as (w & t & E & Hw).
      { destruct Hb as [k x w1' w2 t w3 Hw1' _ _ _|k x l w1' w2 t w3 b Hw1' _ _ _ _];
          exists w1'; eexists; (split; [|assumption]);
          unfold write_json_string; rewrite !append_assoc;
          change (str1 dquote ++ ?y) with (String dquote y); reflexivity. }
      assert (peek (body ++ String "}" rest) = (dquote, skip_space (body ++ String "}" rest)))
        as ->.
      { rewrite E, (peek_ws w _ Hw), (skip_space_ws w _ Hw).
        now rewrite peek_head, skip_space_head by reflexivity. }
      change (Ascii.eqb dquote "}") with false. cbv iota.
      assert (forall pv n m p,
                 parse_object_loop pv n m (skip_space p) = parse_object_loop pv n m p)
        as Hskip.
      { intros pv n m p. destruct n; [reflexivity|]. cbn [parse_object_loop].
        unfold skip_whitespace. now rewrite skip_space_idem. }
      rewrite Hskip.
      apply (parse_members fuel entries Hp Hkeys fuel body [] rest Hb); lia.
Qed.

Lemma write_json_value_VList (items : list glyph_value_t) :
  write_json_value (VList items)
  = "[" ++ concat "," (map write_json_value items) ++ "]".
Proof. reflexivity. Qed.

Lemma write_json_value_VMap (entries : list (string * glyph_value_t)) :
  write_json_value (VMap entries)
  = "{" ++ concat "," (map (write_json_entry write_json_value) entries) ++ "}".
Proof. reflexivity. Qed.

(** The text [write_json_value] writes is a JSON text of the value. *)
Lemma json_text_compact (v : glyph_value_t) :
  forall_nodes json_kind v = true -> json_text v (write_json_value v).
Proof.
  induction v using glyph_value_induction; intros Hok;
    try (apply forall_nodes_top in Hok; discriminate);
    try (match goal with
         | |- json_text ?v _ => exact (JT_scalar "" v is_ws_nil eq_refl)
         end).
  - apply forall_nodes_list in Hok as [_ Hitems].
    destruct items as [|x l]; [exact (JT_list_nil "" "" is_ws_nil is_ws_nil)|].
    rewrite write_json_value_VList. apply (JT_list "" _ _ is_ws_nil).
    revert x H Hitems. induction l as [|y l IHl]; intros x H Hitems;
      inversion H as [|? ? Hx Hl]; inversion Hitems as [|? ? Kx Kl]; subst.
    + simpl. rewrite <- (append_nil_r (write_json_value x)) at 1.
      apply JE_last; [auto | exact is_ws_nil].
    + change (concat "," (map write_json_value (x :: y :: l)))
        with (write_json_value x ++ "" ++ ","
              ++ concat "," (map write_json_value (y :: l))).
      apply JE_cons; [auto | exact is_ws_nil | now apply IHl].
  - apply forall_nodes_map in Hok as [_ Hitems].
    destruct entries as [|x l]; [exact (JT_map_nil "" "" is_ws_nil is_ws_nil)|].
    rewrite write_json_value_VMap. apply (JT_map "" _ _ is_ws_nil).
    revert x H Hitems. induction l as [|y l IHl]; intros [k x] H Hitems;
      inversion H as [|? ? Hx Hl]; inversion Hitems as [|? ? Kx Kl]; subst;
      simpl in Hx, Kx.
    + simpl. unfold write_json_entry. simpl.
      rewrite <- (append_nil_r (write_json_value x)) at 1.
      apply (JM_last k x "" ""); auto using is_ws_nil.
    + replace (concat "," (map (write_json_entry write_json_value) ((k, x) :: y :: l)))
        with ("" ++ write_json_string k ++ "" ++ ":" ++ write_json_value x ++ "" ++ ","
              ++ concat "," (map (write_json_entry write_json_value) (y :: l))).
      * apply JM_cons; auto using is_ws_nil.
      * change (concat "," (map (write_json_entry write_json_value) ((k, x) :: y :: l)))
          with (write_json_entry write_json_value (k, x) ++ ","
                ++ concat "," (map (write_json_entry write_json_value) (y :: l))).
        unfold write_json_entry at 2. cbn [fst snd append].
        now rewrite !append_assoc.
Qed.

(** *** The text written has no NUL byte *)

Lemma is_c_str_app (a b : string) :
  is_c_str (a ++ b) = is_c_str a && is_c_str b.
Proof.
  unfold is_c_str. induction a as [|c a IH]; simpl; [reflexivity|].
  now destruct (negb (uchar c =? 0)).
Qed.

Lemma is_c_str_concat (sep : string) (l : list string) :
  is_c_str sep = true -> Forall (fun s => is_c_str s = true) l ->
  is_c_str (concat sep l) = true.
Proof.
  intros Hsep. induction 1 as [|x l Hx Hl IH]; [reflexivity|].
  destruct l as [|y l]; [exact Hx|].
  change (concat sep (x :: y :: l)) with (x ++ sep ++ concat sep (y :: l)).
  now rewrite !is_c_str_app, Hx, Hsep, IH.
Qed.

Lemma is_c_str_quoted_body (s : string) : is_c_str (quoted_body s) = true.
Proof.
  induction s as [|c s IH]; [reflexivity|]. cbn [quoted_body].
  rewrite is_c_str_app, IH, andb_true_r.
  destruct c as [[] [] [] [] [] [] [] []]; reflexivity.
Qed.

Lemma is_c_str_json_string (s : string) : is_c_str (write_json_string s) = true.
Proof.
  unfold write_json_string. now rewrite !is_c_str_app, is_c_str_quoted_body.
Qed.

Lemma is_c_str_dec_digits (fuel : nat) (n : Z) (acc : string) :
  0 <= n -> is_c_str acc = true -> is_c_str (dec_digits fuel n acc) = true.
Proof.
  revert n acc. induction fuel as [|fuel IH]; intros n acc Hn Hacc; [exact Hacc|].
  cbn [dec_digits].
  assert (is_c_str (String (digit_char (n mod 10)) acc) = true) as H.
  { apply is_c_str_cons. split; [|assumption].
    destruct (digit_char_spec (n mod 10)) as [_ Hv];
      [apply Z.mod_pos_bound; lia|].
    pose proof (Z.mod_pos_bound n 10). lia. }
  destruct (n <? 10); [exact H|]. apply IH; [apply Z.div_pos; lia | exact H].
Qed.

Lemma is_c_str_fmt_ld (z : Z) : is_c_str (fmt_ld z) = true.
Proof.
  unfold fmt_ld, fmt_lu. destruct (Z.ltb_spec z 0).
  - apply is_c_str_cons. split; [discriminate|].
    apply is_c_str_dec_digits; [lia | reflexivity].
  - now apply is_c_str_dec_digits.
Qed.

Lemma write_json_c_str (v : glyph_value_t) :
  forall_nodes json_ok v = true -> is_c_str (write_json_value v) = true.
Proof.
  induction v using glyph_value_induction; intros Hok;
    try (apply forall_nodes_top in Hok; discriminate); try reflexivity.
  - now destruct b.
  - apply is_c_str_fmt_ld.
  - apply forall_nodes_top in Hok.
    unfold json_ok, stable_floats, float_stable, reread_float in Hok.
    simpl in Hok. cbn [write_json_value].
    destruct (fmt_g15 d) as [|c t]; [discriminate|].
    destruct (number_head c); [|discriminate]. simpl in Hok.
    now destruct (is_c_str (String c t)).
  - apply is_c_str_json_string.
  - apply forall_nodes_list in Hok as [_ Hitems]. rewrite write_json_value_VList.
    rewrite !is_c_str_app, is_c_str_concat; trivial.
    rewrite Forall_map. rewrite Forall_forall in H, Hitems |- *.
    intros x Hx. now apply H, Hitems.
  - apply forall_nodes_map in Hok as [_ Hitems]. rewrite write_json_value_VMap.
    rewrite !is_c_str_app, is_c_str_concat; trivial.
    rewrite Forall_map. rewrite Forall_forall in H, Hitems |- *.
    intros x Hx. unfold write_json_entry.
    rewrite !is_c_str_app, is_c_str_json_string. simpl. now apply H, Hitems.
Qed.

(** Reading the JSON text of [v], with anything that may follow a value
    after it, gives the image of [v]. *)
Lemma glyph_from_json_text (v : glyph_value_t) (s rest : string) :
  forall_nodes json_ok v = true -> json_text v s -> tail_ok v rest ->
  parse_value (fuel_for (s ++ rest)) (s ++ rest) = Parsed (json_image v) rest.
Proof.
  intros Hok Hs Ht. apply json_text_parses; trivial.
  unfold fuel_for. rewrite append_length. lia.
Qed.

Lemma json_ok_split (v : glyph_value_t) :
  forall_nodes json_kind v = true -> forall_nodes c_strings v = true ->
  forall_nodes stable_floats v = true -> forall_nodes json_ok v = true.
Proof.
  intros H1 H2 H3. unfold json_ok.
  apply (forall_nodes_and (fun x => json_kind x && c_strings x) stable_floats);
    trivial.
  now apply forall_nodes_and.
Qed.

Lemma forall_nodes_weaken (p q : glyph_value_t -> bool) (v : glyph_value_t) :
  (forall x, p x = true -> q x = true) ->
  forall_nodes p v = true -> forall_nodes q v = true.
Proof.
  intros Hpq. induction v using glyph_value_induction; simpl; intros H';
    apply andb_true_iff in H' as [Hp Hps]; rewrite (Hpq _ Hp); simpl; trivial;
    try (rewrite forallb_forall in *; rewrite Forall_forall in H;
         intros x Hx; apply H; auto).
  auto.
Qed.





(** ** Input that is not well-formed JSON *)

Example rfc8259_samples :
  let q := str1 dquote in
  Rfc8259.well_formed_prefix "  [1, 2.5e-3, -0, [], {}] trailing" = true
  /\ Rfc8259.well_formed_prefix ("{" ++ q ++ "k\né" ++ q ++ " : [true, null]}") = true
  /\ Rfc8259.well_formed_prefix "01" = true
  /\ Rfc8259.well_formed_prefix "1.e5" = true
  /\ Rfc8259.well_formed_prefix "1E5" = true
  /\ Rfc8259.well_formed_prefix (q ++ "\/\u00e9" ++ q) = true
  /\ Rfc8259.well_formed_prefix "[01]" = false
  /\ Rfc8259.well_formed_prefix "[1.]" = false
  /\ Rfc8259.well_formed_prefix "[1,]" = false
  /\ Rfc8259.well_formed_prefix (q ++ "\q" ++ q) = false
  /\ Rfc8259.well_formed_prefix "-" = false
  /\ Rfc8259.well_formed_prefix "nul" = false.
Proof. vm_compute. repeat split. Qed.

(** C8 as stated fails: the parser accepts input that is not well-formed
    JSON.  [strtoll] reads a number with a leading zero, [strtod] one
    that ends with the decimal point, and [parse_string] takes any
    escaped character for itself and any byte unescaped. *)
Lemma C8_lenient_counterexample :
  let q := str1 dquote in
  Rfc8259.well_formed_prefix "[01]" = false
  /\ glyph_from_json (Some "[01]") = Some (VList [VInt 1])
  /\ Rfc8259.well_formed_prefix "[1.]" = false
  /\ glyph_from_json (Some "[1.]")
     = Some (VList [VFloat (S754_finite false 4503599627370496 (-52))])
  /\ Rfc8259.well_formed_prefix (q ++ "\q" ++ q) = false
  /\ glyph_from_json (Some (q ++ "\q" ++ q)) = Some (VStr (Some "q")).
Proof. vm_compute. repeat split. Qed.

(** ** The parser consumes input and has fuel enough *)

Lemma skip_space_length (p : string) :
  (String.length (skip_space p) <= String.length p)%nat.
Proof.
  induction p as [|c p IH]; simpl; [lia|]. destruct (isspace c); simpl; lia.
Qed.

Lemma peek_length (p : string) :
  (String.length (snd (peek p)) <= String.length p)%nat.
Proof.
  unfold peek, skip_whitespace. pose proof (skip_space_length p).
  now destruct (skip_space p).
Qed.

Lemma next_length (p : string) :
  (String.length (snd (next p)) <= String.length p)%nat.
Proof.
  unfold next, skip_whitespace. pose proof (skip_space_length p).
  destruct (skip_space p); simpl in *; lia.
Qed.

(** [next] consumes the character it returns, unless it is the NUL that
    stands for the end of the input. *)
Lemma next_consumes (p : string) (k : ascii) :
  Ascii.eqb (fst (next p)) k = true -> k <> "000"%char ->
  (String.length (snd (next p)) < String.length p)%nat.
Proof.
  unfold next, skip_whitespace. pose proof (skip_space_length p) as H.
  destruct (skip_space p) as [|c t]; cbn [fst snd String.length] in *; [|lia].
  intros E Hk. apply Ascii.eqb_eq in E. congruence.
Qed.

Lemma read_digits_spec (s : string) (a c : Z) :
  let '(_, n, r) := read_digits s a c in
  c <= n /\ Z.of_nat (String.length r) + (n - c) = Z.of_nat (String.length s).
Proof.
  revert a c. induction s as [|x s IH]; intros a c; cbn [read_digits];
    [simpl; lia|].
  change (String.length (String x s)) with (S (String.length s)).
  rewrite Nat2Z.inj_succ.
  destruct (isdigit x);
    [|change (String.length (String x s)) with (S (String.length s)); lia].
  specialize (IH (a * 10 + (uchar x - 48)) (c + 1)).
  destruct (read_digits s _ _) as [[v n] r]. lia.
Qed.

Lemma read_sign_length (s : string) :
  (String.length (snd (read_sign s)) <= String.length s)%nat.
Proof.
  destruct s as [|c t]; simpl; [lia|].
  destruct (Ascii.eqb c "-"); [simpl; lia|]. destruct (Ascii.eqb c "+"); simpl; lia.
Qed.

Lemma strtoll_consumes (p : string) (v : Z) (r : string) :
  strtoll p = Some (v, r) -> (String.length r < String.length p)%nat.
Proof.
  unfold strtoll. pose proof (skip_space_length p) as H1.
  pose proof (read_sign_length (skip_space p)) as H2.
  destruct (read_sign (skip_space p)) as [neg s1]. simpl in H2.
  pose proof (read_digits_spec s1 0 0) as H3.
  destruct (read_digits s1 0 0) as [[x cnt] rest].
  destruct (Z.eqb_spec cnt 0); [discriminate|]. intros [= _ <-]. lia.
Qed.

Lemma read_exponent_length (s : string) :
  (String.length (snd (read_exponent s)) <= String.length s)%nat.
Proof.
  destruct s as [|c t]; simpl; [lia|].
  destruct (_ || _); [|simpl; lia].
  pose proof (read_sign_length t) as H1. destruct (read_sign t) as [neg t1].
  pose proof (read_digits_spec t1 0 0) as H2.
  destruct (read_digits t1 0 0) as [[x cnt] rest].
  destruct (cnt =? 0); simpl in *; lia.
Qed.

Lemma strtod_consumes (p : string) (d : double) (r : string) :
  strtod p = Some (d, r) -> (String.length r < String.length p)%nat.
Proof.
  unfold strtod. pose proof (skip_space_length p) as H1.
  pose proof (read_sign_length (skip_space p)) as H2.
  destruct (read_sign (skip_space p)) as [neg s1]. simpl in H2.
  pose proof (read_digits_spec s1 0 0) as H3.
  destruct (read_digits s1 0 0) as [[ip icnt] r1].
  assert (let '(_, fcnt, r2) :=
            match r1 with
            | String c t => if Ascii.eqb c "." then read_digits t ip 0 else (ip, 0, r1)
            | EmptyString => (ip, 0, r1)
            end in
          0 <= fcnt
          /\ (Z.of_nat (String.length r2) + fcnt <= Z.of_nat (String.length r1))
          /\ (0 < fcnt -> Z.of_nat (String.length r2) < Z.of_nat (String.length r1)))
    as H4.
  { destruct r1 as [|c t]; [simpl; lia|].
    destruct (Ascii.eqb c "."); [|simpl; lia].
    pose proof (read_digits_spec t ip 0) as H.
    destruct (read_digits t ip 0) as [[m fcnt] r2]. simpl. lia. }
  destruct (match r1 with String _ _ => _ | EmptyString => _ end) as [[m fcnt] r2].
  destruct (Z.eqb_spec (icnt + fcnt) 0); [discriminate|].
  pose proof (read_exponent_length r2) as H5.
  destruct (read_exponent r2) as [x rest]. simpl in H5. intros [= _ <-]. lia.
Qed.

Lemma strtod_after_strtoll (p : string) (v : Z) (r : string) :
  strtoll p = Some (v, r) -> strtod p <> None.
Proof.
  unfold strtoll, strtod.
  destruct (read_sign (skip_space p)) as [neg s1].
  pose proof (read_digits_spec s1 0 0) as H3.
  destruct (read_digits s1 0 0) as [[ip icnt] r1].
  destruct (Z.eqb_spec icnt 0); [discriminate|]. intros _.
  assert (let '(_, fcnt, _) :=
            match r1 with
            | String c t => if Ascii.eqb c "." then read_digits t ip 0 else (ip, 0, r1)
            | EmptyString => (ip, 0, r1)
            end in 0 <= fcnt) as H4.
  { destruct r1 as [|c t]; [simpl; lia|].
    destruct (Ascii.eqb c "."); [|simpl; lia].
    pose proof (read_digits_spec t ip 0) as H.
    destruct (read_digits t ip 0) as [[m fcnt] r2]. lia. }
  destruct (match r1 with String _ _ => _ | EmptyString => _ end) as [[m fcnt] r2].
  destruct (Z.eqb_spec (icnt + fcnt) 0); [lia|].
  now destruct (read_exponent r2).
Qed.

Lemma parse_number_consumes (p : string) (v : glyph_value_t) (r : string) :
  parse_number p = Parsed v r -> (String.length r < String.length p)%nat.
Proof.
  unfold parse_number, skip_whitespace. pose proof (skip_space_length p) as H1.
  destruct (strtoll (skip_space p)) as [[n e]|] eqn:E; [|discriminate].
  pose proof (strtoll_consumes _ _ _ E) as H2.
  destruct (is_float_mark e); [|intros [= _ <-]; lia].
  pose proof (strtod_after_strtoll _ _ _ E) as H3.
  destruct (strtod (skip_space p)) as [[d e']|] eqn:E'; [|congruence].
  pose proof (strtod_consumes _ _ _ E'). intros [= _ <-]. lia.
Qed.

Lemma parse_number_fuel (p : string) : parse_number p <> OutOfFuel.
Proof.
  unfold parse_number. destruct (strtoll _) as [[n e]|]; [|discriminate].
  destruct (is_float_mark e); [|discriminate].
  now destruct (strtod _) as [[d e']|].
Qed.

Lemma push_length (x : string) (r : option (string * string)) (s rest : string) :
  push x r = Some (s, rest) -> exists s', r = Some (s', rest).
Proof. destruct r as [[s' rest']|]; [|discriminate]. intros [= _ <-]. eauto. Qed.

Lemma parse_string_loop_consumes (p : string) :
  forall s r, parse_string_loop p = Some (s, r) ->
              (String.length r < String.length p)%nat.
Proof.
  assert (forall n p, (String.length p <= n)%nat ->
                      forall s r, parse_string_loop p = Some (s, r) ->
                                  (String.length r < String.length p)%nat) as H.
  { clear p. induction n as [|n IH]; intros p Hn s r.
    - destruct p; [discriminate | simpl in Hn; lia].
    - destruct p as [|c t]; [discriminate|]. simpl in Hn. cbn [parse_string_loop].
      destruct (Ascii.eqb c dquote); [intros [= _ <-]; simpl; lia|].
      destruct (Ascii.eqb c backslash).
      + destruct t as [|e t']; [discriminate|]. simpl in Hn.
        destruct (Ascii.eqb e "u").
        * destruct t' as [|h1 [|h2 [|h3 [|h4 rest]]]];
            intros Hp; apply push_length in Hp as (s' & Hp);
            apply IH in Hp; simpl in *; lia.
        * intros Hp. apply push_length in Hp as (s' & Hp).
          apply IH in Hp; simpl in *; lia.
      + intros Hp. apply push_length in Hp as (s' & Hp).
        apply IH in Hp; simpl in *; lia. }
  intros s r. now apply (H (String.length p)).
Qed.

Lemma parse_string_consumes (p s r : string) :
  parse_string p = Some (s, r) -> (String.length r < String.length p)%nat.
Proof.
  unfold parse_string. pose proof (next_length p) as H.
  destruct (next p) as [c q]. simpl in H.
  destruct (Ascii.eqb c dquote); [|discriminate].
  intros Hp. apply parse_string_loop_consumes in Hp. lia.
Qed.

Lemma strip_prefix_length (s p r : string) :
  strip_prefix s p = Some r ->
  (String.length r + String.length s = String.length p)%nat.
Proof.
  revert p. induction s as [|a s IH]; intros [|b p]; simpl; try discriminate;
    try (intros [= <-]; simpl; lia).
  destruct (Ascii.eqb a b); [|discriminate]. intros H. apply IH in H. lia.
Qed.

Lemma match_consumes (p s r : string) :
  match_ p s = Some r -> s <> "" -> (String.length r < String.length p)%nat.
Proof.
  unfold match_, skip_whitespace. intros H Hs. apply strip_prefix_length in H.
  pose proof (skip_space_length p). destruct s; [congruence | simpl in H; lia].
Qed.

Lemma ret_parsed (l : option glyph_value_t) (p : string) (v : glyph_value_t)
    (r : string) : ret l p = Parsed v r -> r = p.
Proof. destruct l; [now intros [= _ ->] | discriminate]. Qed.

Lemma ret_fuel (l : option glyph_value_t) (p : string) : ret l p <> OutOfFuel.
Proof. now destruct l. Qed.

Section Loops.
Variable pv : string -> parse_result glyph_value_t.
Hypothesis pv_consumes :
  forall p v r, pv p = Parsed v r -> (String.length r < String.length p)%nat.

Lemma parse_array_loop_consumes (n : nat) :
  forall list p v r,
    parse_array_loop pv n list p = Parsed v r ->
    (String.length r < String.length p)%nat.
Proof.
  induction n as [|n IH]; intros list p v r; [discriminate|].
  cbn [parse_array_loop]. destruct (pv p) as [item p1| |] eqn:E; try discriminate.
  apply pv_consumes in E.
  pose proof (peek_length (skip_whitespace p1)) as H1.
  pose proof (skip_space_length p1) as H0. unfold skip_whitespace in *.
  destruct (peek (skip_space p1)) as [c p2]. simpl in H1.
  pose proof (next_length p2) as H2.
  destruct (Ascii.eqb c "]"); [intros H; apply ret_parsed in H; subst; lia|].
  destruct (negb _); [discriminate|]. intros H. apply IH in H. lia.
Qed.

Lemma parse_array_consumes (n : nat) (p : string) (v : glyph_value_t) (r : string) :
  parse_array pv n p = Parsed v r -> (String.length r < String.length p)%nat.
Proof.
  unfold parse_array. pose proof (next_consumes p "[") as H0.
  destruct (next p) as [c p1]. cbn [fst snd] in H0.
  destruct (Ascii.eqb c "["); cbn [negb]; [|discriminate].
  specialize (H0 eq_refl ltac:(discriminate)).
  pose proof (peek_length (skip_whitespace p1)) as H1.
  pose proof (skip_space_length p1) as H1'. unfold skip_whitespace in *.
  destruct (peek (skip_space p1)) as [c2 p2]. simpl in H1.
  pose proof (next_length p2) as H2.
  destruct (Ascii.eqb c2 "]").
  - intros H. apply ret_parsed in H. subst. lia.
  - intros H. apply parse_array_loop_consumes in H. lia.
Qed.

Lemma parse_object_loop_consumes (n : nat) :
  forall map p v r,
    parse_object_loop pv n map p = Parsed v r ->
    (String.length r < String.length p)%nat.
Proof.
  induction n as [|n IH]; intros map p v r; [discriminate|].
  cbn [parse_object_loop].
  pose proof (peek_length (skip_whitespace p)) as H1.
  pose proof (skip_space_length p) as H0. unfold skip_whitespace in *.
  destruct (peek (skip_space p)) as [c p1]. simpl in H1.
  destruct (negb _); [discriminate|].
  destruct (parse_string p1) as [[key p2]|] eqn:Es; [|discriminate].
  apply parse_string_consumes in Es.
  pose proof (next_length (skip_space p2)) as H2.
  pose proof (skip_space_length p2) as H2'.
  destruct (next (skip_space p2)) as [c3 p3]. simpl in H2.
  destruct (negb _); [discriminate|].
  destruct (pv p3) as [value p4| |] eqn:E; try discriminate.
  apply pv_consumes in E.
  pose proof (peek_length (skip_space p4)) as H4.
  pose proof (skip_space_length p4) as H4'.
  destruct (peek (skip_space p4)) as [c5 p5]. simpl in H4.
  pose proof (next_length p5) as H5.
  destruct (Ascii.eqb c5 "}"); [intros H; apply ret_parsed in H; subst; lia|].
  destruct (negb _); [discriminate|]. intros H. apply IH in H. lia.
Qed.

Lemma parse_object_consumes (n : nat) (p : string) (v : glyph_value_t) (r : string) :
  parse_object pv n p = Parsed v r -> (String.length r < String.length p)%nat.
Proof.
  unfold parse_object. pose proof (next_consumes p "{") as H0.
  destruct (next p) as [c p1]. cbn [fst snd] in H0.
  destruct (Ascii.eqb c "{"); cbn [negb]; [|discriminate].
  specialize (H0 eq_refl ltac:(discriminate)).
  pose proof (peek_length (skip_whitespace p1)) as H1.
  pose proof (skip_space_length p1) as H1'. unfold skip_whitespace in *.
  destruct (peek (skip_space p1)) as [c2 p2]. simpl in H1.
  pose proof (next_length p2) as H2.
  destruct (Ascii.eqb c2 "}").
  - intros H. apply ret_parsed in H. subst. lia.
  - intros H. apply parse_object_loop_consumes in H. lia.
Qed.

(** With a parser of values that has fuel for every input no longer than
    [p], the loops have fuel for [p] when they may run more rounds than
    [p] has bytes. *)
Lemma parse_array_loop_fuel (n : nat) :
  forall list p,
    (forall q, (String.length q <= String.length p)%nat -> pv q <> OutOfFuel) ->
    (String.length p < n)%nat ->
    parse_array_loop pv n list p <> OutOfFuel.
Proof.
  induction n as [|n IH]; intros list p Hpv Hn; [lia|].
  cbn [parse_array_loop]. pose proof (Hpv p (le_n _)) as Hp.
  destruct (pv p) as [item p1| |] eqn:E; try congruence; try discriminate.
  apply pv_consumes in E.
  pose proof (peek_length (skip_whitespace p1)) as H1.
  pose proof (skip_space_length p1) as H0. unfold skip_whitespace in *.
  destruct (peek (skip_space p1)) as [c p2]. simpl in H1.
  pose proof (next_length p2) as H2.
  destruct (Ascii.eqb c "]"); [apply ret_fuel|].
  destruct (negb _); [discriminate|].
  apply IH; [|lia]. intros q Hq. apply Hpv. lia.
Qed.

Lemma parse_array_fuel (n : nat) (p : string) :
  (forall q, (String.length q < String.length p)%nat -> pv q <> OutOfFuel) ->
  (String.length p <= n)%nat ->
  parse_array pv n p <> OutOfFuel.
Proof.
  intros Hpv Hn. unfold parse_array. pose proof (next_consumes p "[") as H0.
  destruct (next p) as [c p1]. cbn [fst snd] in H0.
  destruct (Ascii.eqb c "["); cbn [negb]; [|discriminate].
  specialize (H0 eq_refl ltac:(discriminate)).
  pose proof (peek_length (skip_whitespace p1)) as H1.
  pose proof (skip_space_length p1) as H1'. unfold skip_whitespace in *.
  destruct (peek (skip_space p1)) as [c2 p2]. simpl in H1.
  destruct (Ascii.eqb c2 "]"); [apply ret_fuel|].
  apply parse_array_loop_fuel; [|lia]. intros q Hq. apply Hpv. lia.
Qed.

Lemma parse_object_loop_fuel (n : nat) :
  forall map p,
    (forall q, (String.length q <= String.length p)%nat -> pv q <> OutOfFuel) ->
    (String.length p < n)%nat ->
    parse_object_loop pv n map p <> OutOfFuel.
Proof.
  induction n as [|n IH]; intros map p Hpv Hn; [lia|].
  cbn [parse_object_loop].
  pose proof (peek_length (skip_whitespace p)) as H1.
  pose proof (skip_space_length p) as H0. unfold skip_whitespace in *.
  destruct (peek (skip_space p)) as [c p1]. simpl in H1.
  destruct (negb _); [discriminate|].
  destruct (parse_string p1) as [[key p2]|] eqn:Es; [|discriminate].
  apply parse_string_consumes in Es.
  pose proof (next_length (skip_space p2)) as H2.
  pose proof (skip_space_length p2) as H2'.
  destruct (next (skip_space p2)) as [c3 p3]. simpl in H2.
  destruct (negb _); [discriminate|].
  assert (pv p3 <> OutOfFuel) as Hp by (apply Hpv; lia).
  destruct (pv p3) as [value p4| |] eqn:E; try congruence; try discriminate.
  apply pv_consumes in E.
  pose proof (peek_length (skip_space p4)) as H4.
  pose proof (skip_space_length p4) as H4'.
  destruct (peek (skip_space p4)) as [c5 p5]. simpl in H4.
  pose proof (next_length p5) as H5.
  destruct (Ascii.eqb c5 "}"); [apply ret_fuel|].
  destruct (negb _); [discriminate|].
  apply IH; [|lia]. intros q Hq. apply Hpv. lia.
Qed.

Lemma parse_object_fuel (n : nat) (p : string) :
  (forall q, (String.length q < String.length p)%nat -> pv q <> OutOfFuel) ->
  (String.length p <= n)%nat ->
  parse_object pv n p <> OutOfFuel.
Proof.
  intros Hpv Hn. unfold parse_object. pose proof (next_consumes p "{") as H0.
  destruct (next p) as [c p1]. cbn [fst snd] in H0.
  destruct (Ascii.eqb c "{"); cbn [negb]; [|discriminate].
  specialize (H0 eq_refl ltac:(discriminate)).
  pose proof (peek_length (skip_whitespace p1)) as H1.
  pose proof (skip_space_length p1) as H1'. unfold skip_whitespace in *.
  destruct (peek (skip_space p1)) as [c2 p2]. simpl in H1.
  destruct (Ascii.eqb c2 "}"); [apply ret_fuel|].
  apply parse_object_loop_fuel; [|lia]. intros q Hq. apply Hpv. lia.
Qed.
End Loops.

Lemma parse_value_consumes (fuel : nat) :
  forall p v r, parse_value fuel p = Parsed v r ->
                (String.length r < String.length p)%nat.
Proof.
  induction fuel as [|fuel IH]; intros p v r; [discriminate|].
  cbn [parse_value].
  pose proof (peek_length (skip_whitespace p)) as H1.
  pose proof (skip_space_length p) as H0. unfold skip_whitespace in *.
  destruct (peek (skip_space p)) as [c p1]. simpl in H1.
  destruct (if Ascii.eqb c "n" then _ else _) as [q|] eqn:E1.
  { destruct (Ascii.eqb c "n"); [|discriminate].
    apply match_consumes in E1; [|discriminate]. intros [= _ <-]. lia. }
  destruct (if Ascii.eqb c "t" then _ else _) as [q|] eqn:E2.
  { destruct (Ascii.eqb c "t"); [|discriminate].
    apply match_consumes in E2; [|discriminate]. intros [= _ <-]. lia. }
  destruct (if Ascii.eqb c "f" then _ else _) as [q|] eqn:E3.
  { destruct (Ascii.eqb c "f"); [|discriminate].
    apply match_consumes in E3; [|discriminate]. intros [= _ <-]. lia. }
  destruct (Ascii.eqb c dquote).
  { destruct (parse_string p1) as [[s q]|] eqn:Es; [|discriminate].
    apply parse_string_consumes in Es. intros [= _ <-]. lia. }
  destruct (Ascii.eqb c "[").
  { intros H. apply (parse_array_consumes _ IH) in H. lia. }
  destruct (Ascii.eqb c "{").
  { intros H. apply (parse_object_consumes _ IH) in H. lia. }
  destruct (_ || _); [|discriminate].
  intros H. apply parse_number_consumes in H. lia.
Qed.

(** [glyph_from_json] supplies fuel enough: the parser never stops for
    lack of it. *)
Lemma parse_value_fuel (fuel : nat) :
  forall p, (String.length p < fuel)%nat -> parse_value fuel p <> OutOfFuel.
Proof.
  induction fuel as [|fuel IH]; intros p Hp; [lia|].
  cbn [parse_value].
  pose proof (peek_length (skip_whitespace p)) as H1.
  pose proof (skip_space_length p) as H0. unfold skip_whitespace in *.
  destruct (peek (skip_space p)) as [c p1] eqn:Ep. simpl in H1.
  destruct (if Ascii.eqb c "n" then _ else _); [discriminate|].
  destruct (if Ascii.eqb c "t" then _ else _); [discriminate|].
  destruct (if Ascii.eqb c "f" then _ else _); [discriminate|].
  destruct (Ascii.eqb c dquote); [now destruct (parse_string p1) as [[s q]|]|].
  destruct (Ascii.eqb c "[") eqn:Ea.
  { apply (parse_array_fuel _ (parse_value_consumes fuel)); [|lia].
    intros q Hq. apply IH. lia. }
  destruct (Ascii.eqb c "{") eqn:Eo.
  { apply (parse_object_fuel _ (parse_value_consumes fuel)); [|lia].
    intros q Hq. apply IH. lia. }
  destruct (_ || _); [apply parse_number_fuel | discriminate].
Qed.

(** ** The grammar the parser accepts

    [lenient_value s]: [s] is a value in the dialect of JSON that
    [parse_value] reads.  It has the structure of JSON (literals, quoted
    strings, numbers, bracketed lists with commas, braced members with
    colons and commas, white space between tokens) and is free where the
    C library is: a number is a sign, digits, and the fraction and
    exponent [strtod] takes; in a string every byte stands for itself and
    a backslash takes the next byte, or [u] and four bytes, with it. *)

Definition all_digits (s : string) : Prop := all_bytes isdigit s = true.

Inductive lenient_body : string -> Prop :=
| LB_nil : lenient_body ""
| LB_byte (c : ascii) (b : string) :
    c <> dquote -> c <> backslash -> lenient_body b -> lenient_body (String c b)
| LB_escape (e : ascii) (b : string) :
    lenient_body b -> lenient_body (String backslash (String e b))
| LB_unicode (h1 h2 h3 h4 : ascii) (b : string) :
    lenient_body b ->
    lenient_body (String backslash (String "u" (String h1 (String h2
                    (String h3 (String h4 b)))))).

Definition lenient_sign (s : string) : Prop := s = "" \/ s = "-" \/ s = "+".

Definition lenient_fraction (s : string) : Prop :=
  s = "" \/ exists ds, s = String "." ds /\ all_digits ds.

Definition lenient_exponent (s : string) : Prop :=
  s = "" \/ exists e sg ds, s = String e (sg ++ ds) /\ (e = "e" \/ e = "E")%char
                            /\ lenient_sign sg /\ all_digits ds /\ ds <> "".

Inductive lenient_number : string -> Prop :=
| LN (sg int frac exp : string) :
    sg = "" \/ sg = "-" -> all_digits int -> int <> "" ->
    lenient_fraction frac -> lenient_exponent exp ->
    lenient_number (sg ++ int ++ frac ++ exp).

Inductive lenient_value : string -> Prop :=
| LV_space (c : ascii) (s : string) :
    isspace c = true -> lenient_value s -> lenient_value (String c s)
| LV_null : lenient_value "null"
| LV_true : lenient_value "true"
| LV_false : lenient_value "false"
| LV_string (b : string) :
    lenient_body b -> lenient_value (String dquote (b ++ str1 dquote))
| LV_number (s : string) : lenient_number s -> lenient_value s
| LV_array_nil (w : string) : is_ws w -> lenient_value ("[" ++ w ++ "]")
| LV_array (b : string) : lenient_elems b -> lenient_value ("[" ++ b ++ "]")
| LV_object_nil (w : string) : is_ws w -> lenient_value ("{" ++ w ++ "}")
| LV_object (b : string) : lenient_members b -> lenient_value ("{" ++ b ++ "}")
with lenient_elems : string -> Prop :=
| LE_last (s w : string) :
    lenient_value s -> is_ws w -> lenient_elems (s ++ w)
| LE_cons (s w b : string) :
    lenient_value s -> is_ws w -> lenient_elems b ->
    lenient_elems (s ++ w ++ "," ++ b)
with lenient_members : string -> Prop :=
| LM_last (w1 k w2 s w3 : string) :
    is_ws w1 -> lenient_body k -> is_ws w2 -> lenient_value s -> is_ws w3 ->
    lenient_members (w1 ++ String dquote (k ++ str1 dquote) ++ w2 ++ ":" ++ s ++ w3)
| LM_cons (w1 k w2 s w3 b : string) :
    is_ws w1 -> lenient_body k -> is_ws w2 -> lenient_value s -> is_ws w3 ->
    lenient_members b ->
    lenient_members (w1 ++ String dquote (k ++ str1 dquote) ++ w2 ++ ":" ++ s ++ w3
                     ++ "," ++ b).

(** The input begins, after white space, with a lenient value. *)
Definition lenient_prefix (input : string) : Prop :=
  exists s rest, input = s ++ rest /\ lenient_value s.

(** *** What the scanners consume *)

Lemma lenient_value_ws (w s : string) :
  is_ws w -> lenient_value s -> lenient_value (w ++ s).
Proof.
  induction w as [|c w IH]; intros Hw Hs; [exact Hs|].
  apply is_ws_cons in Hw as [Hc Hw]. apply LV_space; auto.
Qed.

Lemma is_ws_app (a b : string) : is_ws a -> is_ws b -> is_ws (a ++ b).
Proof.
  induction a as [|c a IH]; intros Ha Hb; [exact Hb|].
  apply is_ws_cons in Ha as [Hc Ha]. apply is_ws_cons. auto.
Qed.

Lemma lenient_elems_ws (w b : string) :
  is_ws w -> lenient_elems b -> lenient_elems (w ++ b).
Proof.
  intros Hw Hb. destruct Hb as [s w' Hs Hw'|s w' b Hs Hw' Hb];
    rewrite <- append_assoc.
  - apply LE_last; [now apply lenient_value_ws | assumption].
  - apply LE_cons; [now apply lenient_value_ws | assumption | assumption].
Qed.

Lemma lenient_members_ws (w b : string) :
  is_ws w -> lenient_members b -> lenient_members (w ++ b).
Proof.
  intros Hw Hb.
  destruct Hb as [w1 k w2 s w3 H1 Hk H2 Hs H3|w1 k w2 s w3 b H1 Hk H2 Hs H3 Hb];
    rewrite <- append_assoc.
  - apply LM_last; trivial. now apply is_ws_app.
  - apply LM_cons; trivial. now apply is_ws_app.
Qed.

Lemma skip_space_split (p : string) :
  exists w, p = w ++ skip_space p /\ is_ws w.
Proof.
  induction p as [|c p (w & E & Hw)]; [now exists ""|]. simpl.
  destruct (isspace c) eqn:Hc; [|now exists ""].
  exists (String c w). split; [simpl; now f_equal | now apply is_ws_cons].
Qed.

Lemma peek_split (p : string) (c : ascii) (q : string) :
  peek p = (c, q) ->
  (exists w, p = w ++ q /\ is_ws w)
  /\ (q = "" /\ c = "000"%char \/ exists t, q = String c t).
Proof.
  unfold peek, skip_whitespace. intros H.
  destruct (skip_space_split p) as (w & E & Hw).
  destruct (skip_space p) as [|x t]; injection H as <- <-; split; eauto.
Qed.

Lemma next_split (p : string) (k : ascii) :
  Ascii.eqb (fst (next p)) k = true -> k <> "000"%char ->
  exists w, p = w ++ String k (snd (next p)) /\ is_ws w.
Proof.
  unfold next, skip_whitespace. intros H Hk.
  destruct (skip_space_split p) as (w & E & Hw).
  destruct (skip_space p) as [|x t]; cbn [fst snd] in *; apply Ascii.eqb_eq in H;
    [congruence|]. subst x. eauto.
Qed.

Lemma strip_prefix_split (s p r : string) : strip_prefix s p = Some r -> p = s ++ r.
Proof.
  revert p. induction s as [|a s IH]; intros [|b p]; simpl; try discriminate;
    try (now intros [= <-]).
  destruct (Ascii.eqb_spec a b) as [->|]; [|discriminate].
  intros H. f_equal. now apply IH.
Qed.

Lemma read_digits_split (s : string) (a c : Z) :
  let '(_, n, r) := read_digits s a c in
  exists ds, s = ds ++ r /\ all_digits ds /\ n = c + Z.of_nat (String.length ds).
Proof.
  revert a c. induction s as [|x s IH]; intros a c; cbn [read_digits].
  - exists "". repeat split. simpl. lia.
  - destruct (isdigit x) eqn:Hx.
    + specialize (IH (a * 10 + (uchar x - 48)) (c + 1)).
      destruct (read_digits s _ _) as [[v n] r].
      destruct IH as (ds & -> & Hds & Hn). exists (String x ds).
      repeat split.
      * unfold all_digits. simpl. now rewrite Hx.
      * change (String.length (String x ds)) with (S (String.length ds)). lia.
    + exists "". repeat split. simpl. lia.
Qed.

Lemma read_sign_split (s : string) :
  let '(neg, r) := read_sign s in exists sg, s = sg ++ r /\ lenient_sign sg.
Proof.
  unfold lenient_sign. destruct s as [|c t]; simpl; [exists ""; auto|].
  destruct (Ascii.eqb_spec c "-") as [->|]; [exists "-"; auto|].
  destruct (Ascii.eqb_spec c "+") as [->|]; [exists "+"; auto|].
  exists ""; auto.
Qed.

Lemma read_exponent_split (s : string) :
  let '(_, r) := read_exponent s in exists ex, s = ex ++ r /\ lenient_exponent ex.
Proof.
  unfold lenient_exponent. destruct s as [|c t]; cbn [read_exponent];
    [exists ""; auto|].
  destruct (Ascii.eqb c "e" || Ascii.eqb c "E") eqn:Hc; [|exists ""; auto].
  pose proof (read_sign_split t) as H1. destruct (read_sign t) as [neg t1].
  destruct H1 as (sg & -> & Hsg).
  pose proof (read_digits_split t1 0 0) as H2.
  destruct (read_digits t1 0 0) as [[x cnt] r].
  destruct H2 as (ds & -> & Hds & Hn).
  destruct (Z.eqb_spec cnt 0) as [E|E]; [exists ""; auto|].
  exists (String c (sg ++ ds)). split; [simpl; now rewrite append_assoc|].
  right. exists c, sg, ds. repeat split; trivial.
  - apply orb_true_iff in Hc as [Hc|Hc]; apply Ascii.eqb_eq in Hc; auto.
  - intros ->. simpl in Hn. lia.
Qed.

Lemma peek_skip_split (p : string) (c : ascii) (q : string) :
  peek (skip_whitespace p) = (c, q) ->
  (exists w, p = w ++ q /\ is_ws w)
  /\ (q = "" /\ c = "000"%char \/ exists t, q = String c t).
Proof.
  intros H. apply peek_split in H as [(w & E & Hw) Hq]. split; [|exact Hq].
  destruct (skip_space_split p) as (w0 & E0 & Hw0). unfold skip_whitespace in E.
  exists (w0 ++ w). split; [|now apply is_ws_app].
  rewrite append_assoc, <- E. exact E0.
Qed.

Lemma next_skip_split (p : string) (k : ascii) :
  Ascii.eqb (fst (next (skip_whitespace p))) k = true -> k <> "000"%char ->
  exists w, p = w ++ String k (snd (next (skip_whitespace p))) /\ is_ws w.
Proof.
  intros H Hk. apply next_split in H as (w & E & Hw); [|exact Hk].
  destruct (skip_space_split p) as (w0 & E0 & Hw0). unfold skip_whitespace in *.
  exists (w0 ++ w). split; [|now apply is_ws_app].
  rewrite append_assoc, <- E. exact E0.
Qed.

Lemma parse_string_loop_split (p : string) :
  forall s r, parse_string_loop p = Some (s, r) ->
              exists b, p = b ++ String dquote r /\ lenient_body b.
Proof.
  assert (forall n p, (String.length p <= n)%nat ->
                      forall s r, parse_string_loop p = Some (s, r) ->
                                  exists b, p = b ++ String dquote r /\ lenient_body b)
    as H.
  { clear p. induction n as [|n IH]; intros p Hn s r.
    - destruct p; [discriminate | simpl in Hn; lia].
    - destruct p as [|c t]; [discriminate|]. simpl in Hn. cbn [parse_string_loop].
      destruct (Ascii.eqb_spec c dquote) as [->|Hq].
      { intros [= _ <-]. exists "". split; [reflexivity | constructor]. }
      destruct (Ascii.eqb_spec c backslash) as [->|Hb].
      + destruct t as [|e t']; [discriminate|]. simpl in Hn.
        destruct (Ascii.eqb_spec e "u") as [->|He].
        * destruct t' as [|h1 [|h2 [|h3 [|h4 rest]]]];
            intros Hp; apply push_length in Hp as (s' & Hp);
            (apply IH in Hp as (b & E & Hb); [|simpl in *; lia]);
            try (exists (String backslash (String "u" b)); split;
                 [simpl; now rewrite <- E | now apply LB_escape]).
          exists (String backslash (String "u" (String h1 (String h2
                    (String h3 (String h4 b)))))).
          split; [simpl; now rewrite <- E | now apply LB_unicode].
        * intros Hp. apply push_length in Hp as (s' & Hp).
          apply IH in Hp as (b & E & Hb); [|simpl in *; lia].
          exists (String backslash (String e b)).
          split; [simpl; now rewrite <- E | now apply LB_escape].
      + intros Hp. apply push_length in Hp as (s' & Hp).
        apply IH in Hp as (b & E & Hb'); [|simpl in *; lia].
        exists (String c b). split; [simpl; now rewrite <- E | now apply LB_byte]. }
  intros s r. now apply (H (String.length p)).
Qed.

Lemma parse_string_split (p s r : string) :
  parse_string p = Some (s, r) ->
  exists w b, p = w ++ String dquote (b ++ String dquote r) /\ is_ws w
              /\ lenient_body b.
Proof.
  unfold parse_string. pose proof (next_split p dquote) as H.
  destruct (next p) as [c q]. cbn [fst snd] in H.
  destruct (Ascii.eqb c dquote); [|discriminate].
  destruct (H eq_refl ltac:(discriminate)) as (w & -> & Hw).
  intros Hp. apply parse_string_loop_split in Hp as (b & -> & Hb). eauto.
Qed.

Lemma match_split (p s r : string) :
  match_ p s = Some r -> exists w, p = w ++ s ++ r /\ is_ws w.
Proof.
  unfold match_, skip_whitespace. intros H. apply strip_prefix_split in H.
  destruct (skip_space_split p) as (w & E & Hw). exists w. now rewrite <- H.
Qed.

(** The text [strtoll] and [strtod] take from an input that starts a
    number for [parse_value]. *)
Lemma parse_number_split (c : ascii) (t : string) (v : glyph_value_t) (r : string) :
  number_head c = true ->
  parse_number (String c t) = Parsed v r ->
  exists s, String c t = s ++ r /\ lenient_number s.
Proof.
  intros Hc. unfold parse_number, skip_whitespace, strtoll, strtod.
  rewrite !(skip_space_head c t (number_head_not_space c Hc)).
  pose proof (read_sign_split (String c t)) as H1.
  destruct (read_sign (String c t)) as [neg s1]. destruct H1 as (sg & E1 & Hsg).
  assert (sg = "" \/ sg = "-") as Hsg'.
  { destruct Hsg as [->| [->| ->]]; auto. injection E1 as -> _. discriminate. }
  pose proof (read_digits_split s1 0 0) as H2.
  destruct (read_digits s1 0 0) as [[ip icnt] r1].
  destruct H2 as (int & -> & Hint & Hn).
  destruct (Z.eqb_spec icnt 0) as [|Hi]; [discriminate|].
  assert (int <> "") as Hne by (intros ->; simpl in Hn; lia).
  destruct (is_float_mark r1).
  - assert (let '(_, fcnt, r2) :=
              match r1 with
              | String c t => if Ascii.eqb c "." then read_digits t ip 0 else (ip, 0, r1)
              | EmptyString => (ip, 0, r1)
              end in
            0 <= fcnt /\ exists frac, r1 = frac ++ r2 /\ lenient_fraction frac) as H3.
    { unfold lenient_fraction. destruct r1 as [|x u]; [split; [lia|exists ""; auto]|].
      destruct (Ascii.eqb_spec x ".") as [->|]; [|split; [lia|exists ""; auto]].
      pose proof (read_digits_split u ip 0) as H.
      destruct (read_digits u ip 0) as [[m fcnt] r2].
      destruct H as (ds & -> & Hds & Hf). split; [lia|].
      exists (String "." ds). split; [reflexivity|]. right. eauto. }
    destruct (match r1 with String _ _ => _ | EmptyString => _ end) as [[m fcnt] r2].
    destruct H3 as (Hf & frac & -> & Hfrac).
    destruct (Z.eqb_spec (icnt + fcnt) 0); [lia|].
    pose proof (read_exponent_split r2) as H4.
    destruct (read_exponent r2) as [x rest]. destruct H4 as (ex & -> & Hex).
    intros [= _ <-]. exists (sg ++ int ++ frac ++ ex). split.
    + rewrite E1. now rewrite !append_assoc.
    + now constructor.
  - intros [= _ <-]. exists (sg ++ int ++ "" ++ ""). split.
    + rewrite E1. cbn [append]. now rewrite append_nil_r, append_assoc.
    + constructor; trivial; now left.
Qed.

Lemma peek_skip_char (p : string) (c : ascii) (q : string) (k : ascii) :
  peek (skip_whitespace p) = (c, q) ->
  Ascii.eqb c k = true -> k <> "000"%char -> isspace k = false ->
  exists w, p = w ++ String k (snd (next q)) /\ is_ws w.
Proof.
  intros H E Hk Hs. apply Ascii.eqb_eq in E. subst k.
  apply peek_skip_split in H as [(w & -> & Hw) [[_ ->]|(t & ->)]]; [congruence|].
  rewrite (next_head c t Hs). eauto.
Qed.

Section LenientLoops.
Variable pv : string -> parse_result glyph_value_t.
Hypothesis pv_split :
  forall p v r, pv p = Parsed v r -> exists s, p = s ++ r /\ lenient_value s.

Lemma parse_array_loop_split (n : nat) :
  forall list p v r,
    parse_array_loop pv n list p = Parsed v r ->
    exists b, p = b ++ String "]" r /\ lenient_elems b.
Proof.
  induction n as [|n IH]; intros list p v r; [discriminate|].
  cbn [parse_array_loop]. destruct (pv p) as [item p1| |] eqn:E; try discriminate.
  apply pv_split in E as (s & -> & Hs).
  pose proof (peek_skip_char p1) as H1.
  destruct (peek (skip_whitespace p1)) as [c p2].
  destruct (Ascii.eqb c "]") eqn:Ec.
  { destruct (H1 c p2 "]"%char eq_refl Ec ltac:(discriminate) eq_refl) as (w & -> & Hw).
    intros H. apply ret_parsed in H. subst r. exists (s ++ w).
    split; [now rewrite append_assoc | now apply LE_last]. }
  destruct (Ascii.eqb c ",") eqn:Ek; cbn [negb]; [|discriminate].
  destruct (H1 c p2 ","%char eq_refl Ek ltac:(discriminate) eq_refl) as (w & -> & Hw).
  intros H. apply IH in H as (b & -> & Hb). exists (s ++ w ++ "," ++ b).
  split; [now rewrite !append_assoc | now apply LE_cons].
Qed.

Lemma parse_array_split (n : nat) (p : string) (v : glyph_value_t) (r : string) :
  parse_array pv n p = Parsed v r -> exists s, p = s ++ r /\ lenient_value s.
Proof.
  unfold parse_array. pose proof (next_split p "[") as H0.
  destruct (next p) as [c p1]. cbn [fst snd] in H0.
  destruct (Ascii.eqb c "["); cbn [negb]; [|discriminate].
  destruct (H0 eq_refl ltac:(discriminate)) as (w0 & -> & Hw0).
  pose proof (peek_skip_char p1) as H1.
  pose proof (peek_skip_split p1) as H2.
  destruct (peek (skip_whitespace p1)) as [c2 p2].
  destruct (Ascii.eqb c2 "]") eqn:Ec.
  - destruct (H1 c2 p2 "]"%char eq_refl Ec ltac:(discriminate) eq_refl) as (w & -> & Hw).
    intros H. apply ret_parsed in H. subst r. exists (w0 ++ "[" ++ w ++ "]").
    split; [now rewrite !append_assoc|].
    apply lenient_value_ws; [assumption | now apply LV_array_nil].
  - destruct (H2 c2 p2 eq_refl) as [(w & -> & Hw) _].
    intros H. apply parse_array_loop_split in H as (b & -> & Hb).
    exists (w0 ++ "[" ++ (w ++ b) ++ "]").
    split; [now rewrite !append_assoc|].
    apply lenient_value_ws; [assumption|]. apply LV_array.
    now apply lenient_elems_ws.
Qed.

Lemma parse_object_loop_split (n : nat) :
  forall map p v r,
    parse_object_loop pv n map p = Parsed v r ->
    exists b, p = b ++ String "}" r /\ lenient_members b.
Proof.
  induction n as [|n IH]; intros map p v r; [discriminate|].
  cbn [parse_object_loop].
  pose proof (peek_skip_split p) as H1.
  destruct (peek (skip_whitespace p)) as [c p1].
  destruct (H1 c p1 eq_refl) as [(w1 & -> & Hw1) _]. clear H1.
  destruct (negb _); [discriminate|].
  destruct (parse_string p1) as [[key p2]|] eqn:Es; [|discriminate].
  apply parse_string_split in Es as (w1' & k & -> & Hw1' & Hk).
  pose proof (next_skip_split p2 ":") as H2.
  destruct (next (skip_whitespace p2)) as [c3 p3]. cbn [fst snd] in H2.
  destruct (Ascii.eqb c3 ":"); cbn [negb]; [|discriminate].
  destruct (H2 eq_refl ltac:(discriminate)) as (w2 & -> & Hw2). clear H2.
  destruct (pv p3) as [value p4| |] eqn:E; try discriminate.
  apply pv_split in E as (s & -> & Hs).
  pose proof (peek_skip_char p4) as H4.
  destruct (peek (skip_whitespace p4)) as [c5 p5].
  assert (forall tail,
             (w1 ++ w1' ++ String dquote (k ++ String dquote (w2 ++ String ":" (s ++ tail))))
             = ((w1 ++ w1') ++ String dquote (k ++ str1 dquote) ++ w2 ++ ":" ++ s ++ tail))
    as Eq.
  { intros tail. rewrite !append_assoc. cbn [append]. rewrite !append_assoc.
    reflexivity. }
  destruct (Ascii.eqb c5 "}") eqn:Ec.
  { destruct (H4 c5 p5 "}"%char eq_refl Ec ltac:(discriminate) eq_refl) as (w3 & -> & Hw3).
    intros H. apply ret_parsed in H. subst r.
    exists ((w1 ++ w1') ++ String dquote (k ++ str1 dquote) ++ w2 ++ ":" ++ s ++ w3).
    split.
    - rewrite Eq. rewrite !append_assoc. cbn [append]. now rewrite !append_assoc.
    - apply LM_last; trivial. now apply is_ws_app. }
  destruct (Ascii.eqb c5 ",") eqn:Ek; cbn [negb]; [|discriminate].
  destruct (H4 c5 p5 ","%char eq_refl Ek ltac:(discriminate) eq_refl) as (w3 & -> & Hw3).
  intros H. apply IH in H as (b & -> & Hb).
  exists ((w1 ++ w1') ++ String dquote (k ++ str1 dquote) ++ w2 ++ ":" ++ s ++ w3
          ++ "," ++ b).
  split.
  - rewrite Eq. rewrite !append_assoc. cbn [append]. now rewrite !append_assoc.
  - apply LM_cons; trivial. now apply is_ws_app.
Qed.

Lemma parse_object_split (n : nat) (p : string) (v : glyph_value_t) (r : string) :
  parse_object pv n p = Parsed v r -> exists s, p = s ++ r /\ lenient_value s.
Proof.
  unfold parse_object. pose proof (next_split p "{") as H0.
  destruct (next p) as [c p1]. cbn [fst snd] in H0.
  destruct (Ascii.eqb c "{"); cbn [negb]; [|discriminate].
  destruct (H0 eq_refl ltac:(discriminate)) as (w0 & -> & Hw0).
  pose proof (peek_skip_char p1) as H1.
  pose proof (peek_skip_split p1) as H2.
  destruct (peek (skip_whitespace p1)) as [c2 p2].
  destruct (Ascii.eqb c2 "}") eqn:Ec.
  - destruct (H1 c2 p2 "}"%char eq_refl Ec ltac:(discriminate) eq_refl) as (w & -> & Hw).
    intros H. apply ret_parsed in H. subst r. exists (w0 ++ "{" ++ w ++ "}").
    split; [now rewrite !append_assoc|].
    apply lenient_value_ws; [assumption | now apply LV_object_nil].
  - destruct (H2 c2 p2 eq_refl) as [(w & -> & Hw) _].
    intros H. apply parse_object_loop_split in H as (b & -> & Hb).
    exists (w0 ++ "{" ++ (w ++ b) ++ "}").
    split; [now rewrite !append_assoc|].
    apply lenient_value_ws; [assumption|]. apply LV_object.
    now apply lenient_members_ws.
Qed.
End LenientLoops.

(** Whatever [parse_value] returns a value for begins with a value of the
    lenient grammar, and the input left is what follows it. *)
Lemma parse_value_split (fuel : nat) :
  forall p v r, parse_value fuel p = Parsed v r ->
                exists s, p = s ++ r /\ lenient_value s.
Proof.
  induction fuel as [|fuel IH]; intros p v r; [discriminate|].
  cbn [parse_value].
  pose proof (peek_skip_split p) as H1.
  destruct (peek (skip_whitespace p)) as [c p1].
  destruct (H1 c p1 eq_refl) as [(w & -> & Hw) Hc]. clear H1.
  assert (forall s, (exists s', s = s' ++ r /\ lenient_value s') ->
                    exists s', w ++ s = s' ++ r /\ lenient_value s') as Hwrap.
  { intros s (s' & -> & Hs'). exists (w ++ s').
    split; [now rewrite append_assoc | now apply lenient_value_ws]. }
  destruct (if Ascii.eqb c "n" then _ else _) as [q|] eqn:E1.
  { destruct (Ascii.eqb c "n"); [|discriminate].
    apply match_split in E1 as (w' & -> & Hw'). intros [= _ <-].
    apply Hwrap. exists (w' ++ "null"). split; [now rewrite append_assoc|].
    apply lenient_value_ws; [assumption | apply LV_null]. }
  destruct (if Ascii.eqb c "t" then _ else _) as [q|] eqn:E2.
  { destruct (Ascii.eqb c "t"); [|discriminate].
    apply match_split in E2 as (w' & -> & Hw'). intros [= _ <-].
    apply Hwrap. exists (w' ++ "true"). split; [now rewrite append_assoc|].
    apply lenient_value_ws; [assumption | apply LV_true]. }
  destruct (if Ascii.eqb c "f" then _ else _) as [q|] eqn:E3.
  { destruct (Ascii.eqb c "f"); [|discriminate].
    apply match_split in E3 as (w' & -> & Hw'). intros [= _ <-].
    apply Hwrap. exists (w' ++ "false"). split; [now rewrite append_assoc|].
    apply lenient_value_ws; [assumption | apply LV_false]. }
  destruct (Ascii.eqb c dquote).
  { destruct (parse_string p1) as [[s q]|] eqn:Es; [|discriminate].
    apply parse_string_split in Es as (w' & b & -> & Hw' & Hb). intros [= _ <-].
    apply Hwrap. exists (w' ++ String dquote (b ++ str1 dquote)). split.
    - rewrite append_assoc. cbn [append]. now rewrite append_assoc.
    - apply lenient_value_ws; [assumption | now apply LV_string]. }
  destruct (Ascii.eqb c "[").
  { intros H. apply Hwrap. now apply (parse_array_split _ IH) in H. }
  destruct (Ascii.eqb c "{").
  { intros H. apply Hwrap. now apply (parse_object_split _ IH) in H. }
  destruct (_ || _) eqn:Eh; [|discriminate].
  destruct Hc as [[_ ->]|(t & ->)]; [discriminate|].
  intros H. apply Hwrap. apply parse_number_split in H as (s & E & Hs); [|exact Eh].
  exists s. split; [exact E | now apply LV_number].
Qed.
(** ** Well-formed JSON is accepted *)

Lemma rfc_ws_space (c : ascii) : Rfc8259.is_ws_char c = true -> isspace c = true.
Proof. unfold Rfc8259.is_ws_char, isspace. lia. Qed.

Lemma rfc_ws_skip (p : string) : skip_space (Rfc8259.ws p) = skip_space p.
Proof.
  induction p as [|c p IH]; [reflexivity|]. cbn [Rfc8259.ws].
  destruct (Rfc8259.is_ws_char c) eqn:E; [|reflexivity].
  cbn [skip_space]. now rewrite (rfc_ws_space c E).
Qed.

Lemma rfc_ws_head (p : string) (c : ascii) (t : string) :
  Rfc8259.ws p = String c t -> isspace c = false -> skip_space p = String c t.
Proof.
  intros H Hc. rewrite <- rfc_ws_skip, H. now apply skip_space_head.
Qed.

Lemma rfc_ws_first (p : string) (c : ascii) (t : string) :
  Rfc8259.ws p = String c t -> Rfc8259.is_ws_char c = false.
Proof.
  induction p as [|x p IH]; [discriminate|]. cbn [Rfc8259.ws].
  destruct (Rfc8259.is_ws_char x) eqn:E; [exact IH|]. now intros [= <- _].
Qed.

Lemma rfc_ws_length (p : string) :
  (String.length (Rfc8259.ws p) <= String.length p)%nat.
Proof.
  induction p as [|c p IH]; simpl; [lia|].
  destruct (Rfc8259.is_ws_char c); simpl; lia.
Qed.

(** What is left after white space and a delimiter is delimited. *)
Lemma rfc_ws_delimited (p : string) (c : ascii) (t : string) :
  Rfc8259.ws p = String c t -> delimiter c = true -> delimited p.
Proof.
  destruct p as [|x p]; [discriminate|]. cbn [Rfc8259.ws delimited].
  destruct (Rfc8259.is_ws_char x) eqn:E.
  - intros _ _. unfold delimiter. now rewrite (rfc_ws_space x E).
  - now intros [= -> _].
Qed.

(** *** Strings *)

Lemma rfc_chars_parsed (n : nat) :
  forall p rest,
    (String.length p <= n)%nat -> Rfc8259.chars p = Some rest ->
    exists s, parse_string_loop p = Some (s, rest).
Proof.
  induction n as [|n IH]; intros p rest Hn H.
  - destruct p; [discriminate | simpl in Hn; lia].
  - destruct p as [|c t]; [discriminate|].
    cbn [Rfc8259.chars parse_string_loop] in *. simpl in Hn.
    destruct (Ascii.eqb c dquote); [injection H as <-; eauto|].
    destruct (Ascii.eqb c backslash).
    + destruct t as [|e t']; [discriminate|]. simpl in Hn.
      destruct (Rfc8259.is_escape e) eqn:Ee.
      * assert (Ascii.eqb e "u" = false) as ->.
        { destruct (Ascii.eqb_spec e "u") as [->|]; [discriminate Ee | reflexivity]. }
        destruct (IH t' rest) as (s & ->); [lia | exact H|]. simpl. eauto.
      * destruct (Ascii.eqb e "u"); [|discriminate].
        destruct t' as [|h1 [|h2 [|h3 [|h4 r]]]]; try discriminate.
        destruct (_ && _); [|discriminate]. simpl in Hn.
        destruct (IH r rest) as (s & ->); [lia | exact H|]. simpl. eauto.
    + destruct (uchar c <? 32); [discriminate|].
      destruct (IH t rest) as (s & ->); [lia | exact H|]. simpl. eauto.
Qed.

(** *** Numbers *)

Lemma read_digits_rest (s : string) (a c : Z) :
  snd (read_digits s a c) = Rfc8259.digits s.
Proof.
  revert a c. induction s as [|x s IH]; intros a c; [reflexivity|].
  cbn [read_digits Rfc8259.digits]. destruct (isdigit x); [apply IH | reflexivity].
Qed.

Lemma read_digits_none (s : string) (a c : Z) :
  Rfc8259.digits1 s = None -> read_digits s a c = (a, c, s).
Proof.
  destruct s as [|x s]; [reflexivity|]. cbn [Rfc8259.digits1 read_digits].
  now destruct (isdigit x).
Qed.

Lemma read_digits_some (s r : string) (a c : Z) :
  Rfc8259.digits1 s = Some r ->
  snd (read_digits s a c) = r /\ c < snd (fst (read_digits s a c)).
Proof.
  destruct s as [|x s]; [discriminate|]. cbn [Rfc8259.digits1 read_digits].
  destruct (isdigit x); [|discriminate]. intros [= <-].
  split; [apply read_digits_rest|].
  pose proof (read_digits_spec s (a * 10 + (uchar x - 48)) (c + 1)) as H.
  destruct (read_digits s _ _) as [[v n] r]. simpl. lia.
Qed.

Lemma rfc_exp_part (q : string) : snd (read_exponent q) = Rfc8259.exp_part q.
Proof.
  destruct q as [|c t]; [reflexivity|]. cbn [read_exponent Rfc8259.exp_part].
  destruct (Ascii.eqb c "e" || Ascii.eqb c "E"); [|reflexivity].
  assert (read_sign t
          = (fst (read_sign t),
             match t with
             | String s t' => if Ascii.eqb s "-" || Ascii.eqb s "+" then t' else t
             | EmptyString => t
             end)) as E.
  { destruct t as [|s t']; [reflexivity|]. simpl.
    destruct (Ascii.eqb s "-"); [reflexivity|]. now destruct (Ascii.eqb s "+"). }
  rewrite E. generalize (fst (read_sign t)). intros neg.
  match goal with |- context [Rfc8259.digits1 ?u] => generalize u end.
  intros u. destruct (Rfc8259.digits1 u) as [r|] eqn:Ed.
  - destruct (read_digits_some u r 0 0 Ed) as [H1 H2].
    destruct (read_digits u 0 0) as [[x cnt] rest]. simpl in H1, H2.
    destruct (Z.eqb_spec cnt 0); [lia | exact H1].
  - now rewrite (read_digits_none u 0 0 Ed).
Qed.

(** The number [strtoll] and [strtod] read is the number of the grammar,
    as long as what follows it is not a digit, a point or an exponent
    mark that would continue it for them. *)
Lemma rfc_number_parsed (c : ascii) (t rest : string) :
  Rfc8259.number (String c t) = Some rest ->
  number_head c = true
  /\ exists v r, parse_number (String c t) = Parsed v r
                 /\ (delimited rest -> r = rest).
Proof.
  unfold Rfc8259.number. intros H.
  assert (exists neg d u,
             read_sign (String c t) = (neg, String d u) /\ isdigit d = true
             /\ number_head c = true
             /\ match Rfc8259.int_part (String d u) with
                | Some q => Some (Rfc8259.exp_part (Rfc8259.frac_part q))
                | None => None
                end = Some rest) as (neg & d & u & Es & Hd & Hc & H').
  { unfold read_sign, number_head.
    destruct (Ascii.eqb_spec c "-") as [->|Hm].
    - destruct t as [|d u]; [discriminate|]. exists true, d, u.
      repeat split; trivial. cbn [Rfc8259.int_part] in H.
      destruct (Ascii.eqb_spec d "0") as [->|]; [reflexivity|].
      now destruct (isdigit d).
    - assert (isdigit c = true) as Hd.
      { cbn [Rfc8259.int_part] in H.
        destruct (Ascii.eqb_spec c "0") as [->|]; [reflexivity|].
        now destruct (isdigit c). }
      destruct (Ascii.eqb_spec c "+") as [->|]; [discriminate Hd|].
      exists false, c, t. now repeat split. }
  clear H. split; [exact Hc|].
  pose proof (number_head_not_space c Hc) as Hsp.
  unfold parse_number, skip_whitespace, strtoll, strtod.
  rewrite !(skip_space_head c t Hsp), Es.
  pose proof (read_digits_rest (String d u) 0 0) as Hr1.
  pose proof (read_digits_spec (String d u) 0 0) as Hcnt.
  assert (0 < snd (fst (read_digits (String d u) 0 0))) as Hpos.
  { cbn [read_digits]. rewrite Hd.
    pose proof (read_digits_spec u (0 * 10 + (uchar d - 48)) (0 + 1)) as Hs.
    destruct (read_digits u _ _) as [[v n] r]. simpl. lia. }
  destruct (read_digits (String d u) 0 0) as [[ip icnt] r1].
  cbn [fst snd] in Hr1, Hpos. clear Hcnt.
  destruct (Z.eqb_spec icnt 0) as [|_]; [lia|].
  cbn [Rfc8259.digits] in Hr1. rewrite Hd in Hr1.
  (* the integer part of the grammar against the digits [strtoll] reads *)
  assert (delimited rest ->
          Rfc8259.exp_part (Rfc8259.frac_part r1) = rest
          /\ (forall y, r1 = String "." y -> Rfc8259.digits1 y <> None)) as Hrest.
  { intros Hdel. cbn [Rfc8259.int_part] in H'. rewrite Hd in H'.
    assert (Rfc8259.exp_part (Rfc8259.frac_part r1) = rest -> 
            forall y, r1 = String "." y -> Rfc8259.digits1 y <> None) as Hpoint.
    { intros E y -> Hn. cbn [Rfc8259.frac_part] in E.
      change (Ascii.eqb "." ".") with true in E. rewrite Hn in E.
      cbn [Rfc8259.exp_part] in E. change (Ascii.eqb "." "e" || Ascii.eqb "." "E")
        with false in E. subst rest. simpl in Hdel.
      now destruct (delimiter_cases "." Hdel) as (_ & Hp & _). }
    destruct (Ascii.eqb d "0").
    - injection H' as H'.
      destruct u as [|x u'].
      + subst r1. split; [exact H'|]. now apply Hpoint.
      + cbn [Rfc8259.digits] in Hr1. destruct (isdigit x) eqn:Hx.
        * exfalso. cbn [Rfc8259.frac_part Rfc8259.exp_part] in H'.
          assert (Ascii.eqb x "." = false) as Ep
            by (destruct (Ascii.eqb_spec x ".") as [->|]; [discriminate Hx|reflexivity]).
          assert (Ascii.eqb x "e" = false) as Ee
            by (destruct (Ascii.eqb_spec x "e") as [->|]; [discriminate Hx|reflexivity]).
          assert (Ascii.eqb x "E" = false) as EE
            by (destruct (Ascii.eqb_spec x "E") as [->|]; [discriminate Hx|reflexivity]).
          rewrite Ep in H'. cbn [Rfc8259.exp_part] in H'. rewrite Ee, EE in H'.
          subst rest. simpl in Hdel.
          destruct (delimiter_cases x Hdel) as (Hx' & _). congruence.
        * subst r1. split; [exact H'|]. now apply Hpoint.
    - injection H' as H'. subst r1. split; [exact H'|]. now apply Hpoint. }
  destruct (is_float_mark r1) eqn:Ef.
  - (* strtod *)
    set (X := match r1 with
              | String c0 t0 =>
                  if Ascii.eqb c0 "." then read_digits t0 ip 0 else (ip, 0, r1)
              | EmptyString => (ip, 0, r1)
              end).
    assert (snd X = match r1 with
                    | String c0 t0 =>
                        if Ascii.eqb c0 "." then Rfc8259.digits t0 else r1
                    | EmptyString => r1
                    end) as E2.
    { subst X. destruct r1 as [|c0 t0]; [reflexivity|].
      destruct (Ascii.eqb c0 "."); [|reflexivity]. apply read_digits_rest. }
    assert (0 <= snd (fst X)) as Hf.
    { subst X. destruct r1 as [|c0 t0]; [simpl; lia|].
      destruct (Ascii.eqb c0 "."); [|simpl; lia].
      pose proof (read_digits_spec t0 ip 0) as Hs.
      destruct (read_digits t0 ip 0) as [[m f] r2]. simpl. lia. }
    clearbody X. destruct X as [[m fcnt] r2]. cbn [fst snd] in E2, Hf. subst r2.
    destruct (Z.eqb_spec (icnt + fcnt) 0) as [|_]; [lia|].
    pose proof (rfc_exp_part
                  match r1 with
                  | String c0 t0 => if Ascii.eqb c0 "." then Rfc8259.digits t0 else r1
                  | EmptyString => r1
                  end) as He.
    destruct (read_exponent _) as [x r3]. cbn [snd] in He.
    eexists _, r3. split; [reflexivity|]. intros Hdel.
    destruct (Hrest Hdel) as [<- Hpoint]. rewrite He. f_equal.
    destruct r1 as [|c0 t0]; [reflexivity|]. cbn [Rfc8259.frac_part].
    destruct (Ascii.eqb_spec c0 ".") as [->|]; [|reflexivity].
    specialize (Hpoint t0 eq_refl).
    destruct (Rfc8259.digits1 t0) as [r|] eqn:Ed; [|congruence].
    destruct t0 as [|z t0']; [discriminate|]. cbn [Rfc8259.digits1] in Ed.
    cbn [Rfc8259.digits]. destruct (isdigit z); [now injection Ed | discriminate].
  - (* strtoll *)
    eexists _, r1. split; [reflexivity|]. intros Hdel.
    destruct (Hrest Hdel) as [<- _].
    destruct r1 as [|c0 t0]; [reflexivity|]. cbn [is_float_mark] in Ef.
    apply orb_false_iff in Ef as [Ef EE]. apply orb_false_iff in Ef as [Ep Ee].
    cbn [Rfc8259.frac_part]. rewrite Ep. cbn [Rfc8259.exp_part].
    now rewrite Ee, EE.
Qed.

(** *** Values *)

(** What the parser makes of the input: a value, and the input left,
    which is the one the grammar leaves unless a number goes on. *)
Definition accepted (fuel : nat) (p rest : string) : Prop :=
  exists v r, parse_value fuel p = Parsed v r /\ (delimited rest -> r = rest).

Lemma rfc_value_head (n : nat) (p rest : string) :
  Rfc8259.value n p = Some rest ->
  exists c t, Rfc8259.ws p = String c t /\ isspace c = false.
Proof.
  destruct n as [|n]; [discriminate|]. cbn [Rfc8259.value].
  destruct (Rfc8259.ws p) as [|c t]; [discriminate|]. intros H.
  exists c, t. split; [reflexivity|].
  repeat match type of H with
         | (if Ascii.eqb c ?k then _ else _) = _ =>
             destruct (Ascii.eqb_spec c k) as [->|]; [reflexivity|]
         end.
  apply rfc_number_parsed in H as [H _]. now apply number_head_not_space.
Qed.

Lemma peek_rfc_ws (p : string) (c : ascii) (t : string) :
  Rfc8259.ws p = String c t -> isspace c = false ->
  peek (skip_whitespace p) = (c, String c t).
Proof.
  intros H Hc. rewrite peek_skip. unfold peek, skip_whitespace.
  now rewrite (rfc_ws_head p c t H Hc).
Qed.

Section AcceptedLoops.
Variable fuel : nat.
Variable rv : string -> option string.
Hypothesis rv_head :
  forall p rest, rv p = Some rest ->
                 exists c t, Rfc8259.ws p = String c t /\ isspace c = false.
Hypothesis rv_accepted :
  forall p rest, (String.length p < fuel)%nat -> rv p = Some rest ->
                 accepted fuel p rest.

Lemma rfc_elements_parsed (m : nat) :
  forall (k : nat) (q rest : string) (l : list glyph_value_t),
    (String.length q < k)%nat -> (String.length q < fuel)%nat ->
    Rfc8259.elements rv m q = Some rest ->
    exists v, parse_array_loop (parse_value fuel) k (Some (VList l)) q
              = Parsed v rest.
Proof.
  induction m as [|m IH]; intros k q rest l Hk Hf H; [discriminate|].
  cbn [Rfc8259.elements] in H.
  destruct (rv q) as [p1|] eqn:Ev; [|discriminate].
  destruct (Rfc8259.ws p1) as [|c t] eqn:Ew; [discriminate|].
  destruct k as [|k]; [lia|]. cbn [parse_array_loop].
  destruct (rv_accepted q p1 Hf Ev) as (item & r & Ep & Hr).
  rewrite Ep. pose proof (parse_value_consumes fuel q item r Ep) as Hlen.
  pose proof (rfc_ws_length p1) as Hw. rewrite Ew in Hw. simpl in Hw.
  assert (delimiter c = true -> r = p1) as Hr'
    by (intros Hc; apply Hr; now apply (rfc_ws_delimited p1 c t)).
  cbn [glyph_list_append].
  destruct (Ascii.eqb_spec c "]") as [->|Hn].
  - rewrite (Hr' eq_refl) in *. rewrite (peek_rfc_ws p1 "]" t Ew eq_refl).
    change (Ascii.eqb "]" "]") with true. cbv iota.
    rewrite next_head by reflexivity. injection H as <-. simpl. eauto.
  - destruct (Ascii.eqb_spec c ",") as [->|]; [|discriminate].
    rewrite (Hr' eq_refl) in *. rewrite (peek_rfc_ws p1 "," t Ew eq_refl).
    change (Ascii.eqb "," "]") with false. change (Ascii.eqb "," ",") with true.
    cbn [negb]. cbv iota. rewrite next_head by reflexivity. cbn [snd].
    apply IH; trivial; lia.
Qed.

Lemma rfc_members_parsed (m : nat) :
  forall (k : nat) (q rest : string) (l : list glyph_map_entry_t),
    (String.length q < k)%nat -> (String.length q < fuel)%nat ->
    Rfc8259.members rv m q = Some rest ->
    exists v, parse_object_loop (parse_value fuel) k (Some (VMap l)) q
              = Parsed v rest.
Proof.
  induction m as [|m IH]; intros k q rest l Hk Hf H; [discriminate|].
  cbn [Rfc8259.members] in H.
  destruct (Rfc8259.ws q) as [|c0 t0] eqn:Ew0; [discriminate|].
  destruct (Ascii.eqb_spec c0 dquote) as [->|]; [|discriminate].
  destruct (Rfc8259.chars t0) as [p1|] eqn:Ec; [|discriminate].
  destruct (Rfc8259.ws p1) as [|c1 t1] eqn:Ew1; [discriminate|].
  destruct (Ascii.eqb_spec c1 ":") as [->|]; [|discriminate].
  destruct (rv t1) as [p2|] eqn:Ev; [|discriminate].
  destruct (Rfc8259.ws p2) as [|c2 t2] eqn:Ew2; [discriminate|].
  destruct k as [|k]; [lia|]. cbn [parse_object_loop].
  rewrite (peek_rfc_ws q dquote t0 Ew0 eq_refl).
  change (Ascii.eqb dquote dquote) with true. cbn [negb]. cbv iota.
  unfold parse_string. rewrite next_head by reflexivity.
  change (Ascii.eqb dquote dquote) with true. cbv iota.
  destruct (rfc_chars_parsed _ t0 p1 (le_n _) Ec) as (key & ->).
  pose proof (parse_string_loop_consumes t0) as Hs.
  pose proof (rfc_ws_length q) as Hw0. rewrite Ew0 in Hw0. simpl in Hw0.
  pose proof (rfc_ws_length p1) as Hw1. rewrite Ew1 in Hw1. simpl in Hw1.
  pose proof (rfc_ws_length p2) as Hw2. rewrite Ew2 in Hw2. simpl in Hw2.
  assert (String.length p1 <= String.length t0)%nat as Hp1.
  { clear - Ec. revert p1 Ec.
    assert (forall n p r, (String.length p <= n)%nat -> Rfc8259.chars p = Some r ->
                          (String.length r <= String.length p)%nat) as Hch.
    { induction n as [|n IHn]; intros p r Hn Hc;
        (destruct p as [|c t]; [discriminate|]); simpl in Hn; [lia|].
      cbn [Rfc8259.chars] in Hc.
      destruct (Ascii.eqb c dquote); [injection Hc as <-; simpl; lia|].
      destruct (Ascii.eqb c backslash).
      - destruct t as [|e t']; [discriminate|]. simpl in Hn.
        destruct (Rfc8259.is_escape e).
        + specialize (IHn t' r ltac:(lia) Hc). simpl. lia.
        + destruct (Ascii.eqb e "u"); [|discriminate].
          destruct t' as [|h1 [|h2 [|h3 [|h4 r']]]]; try discriminate.
          destruct (_ && _); [|discriminate]. simpl in Hn.
          specialize (IHn r' r ltac:(lia) Hc). simpl. lia.
      - destruct (uchar c <? 32); [discriminate|].
        specialize (IHn t r ltac:(lia) Hc). simpl. lia. }
    intros p1 Ec. exact (Hch _ t0 p1 (le_n _) Ec). }
  assert (next (skip_whitespace p1) = (":"%char, t1)) as ->.
  { unfold next, skip_whitespace. rewrite skip_space_idem.
    now rewrite (rfc_ws_head p1 ":" t1 Ew1 eq_refl). }
  change (Ascii.eqb ":" ":") with true. cbn [negb]. cbv iota.
  destruct (rv_accepted t1 p2 ltac:(lia) Ev) as (value & r & Ep & Hr).
  rewrite Ep. pose proof (parse_value_consumes fuel t1 value r Ep) as Hlen.
  assert (delimiter c2 = true -> r = p2) as Hr'
    by (intros Hc; apply Hr; now apply (rfc_ws_delimited p2 c2 t2)).
  cbn [glyph_map_set].
  destruct (Ascii.eqb_spec c2 "}") as [->|Hn].
  - rewrite (Hr' eq_refl) in *. rewrite (peek_rfc_ws p2 "}" t2 Ew2 eq_refl).
    change (Ascii.eqb "}" "}") with true. cbv iota.
    rewrite next_head by reflexivity. injection H as <-. simpl. eauto.
  - destruct (Ascii.eqb_spec c2 ",") as [->|]; [|discriminate].
    rewrite (Hr' eq_refl) in *. rewrite (peek_rfc_ws p2 "," t2 Ew2 eq_refl).
    change (Ascii.eqb "," "}") with false. change (Ascii.eqb "," ",") with true.
    cbn [negb]. cbv iota. rewrite next_head by reflexivity. cbn [snd].
    apply IH; trivial; lia.
Qed.
End AcceptedLoops.

Lemma rfc_value_accepted (n : nat) :
  forall (p rest : string) (fuel : nat),
    (String.length p < fuel)%nat -> Rfc8259.value n p = Some rest ->
    accepted fuel p rest.
Proof.
  induction n as [|n IH]; intros p rest fuel Hf H; [discriminate|].
  destruct (rfc_value_head (S n) p rest H) as (c & t & Ew & Hc).
  cbn [Rfc8259.value] in H. rewrite Ew in H.
  pose proof (rfc_ws_length p) as Hw. rewrite Ew in Hw. simpl in Hw.
  destruct fuel as [|fuel]; [lia|].
  unfold accepted.
  rewrite <- (parse_value_skip (S fuel) p), (rfc_ws_head p c t Ew Hc).
  destruct (Ascii.eqb_spec c "n") as [->|N1].
  { rewrite parse_value_head by reflexivity. cbv zeta.
    change (Ascii.eqb "n" "n") with true. cbv iota.
    unfold match_, skip_whitespace. rewrite skip_space_head by reflexivity.
    rewrite H. eauto. }
  destruct (Ascii.eqb_spec c "t") as [->|N2].
  { rewrite parse_value_head by reflexivity. cbv zeta.
    change (Ascii.eqb "t" "n") with false. change (Ascii.eqb "t" "t") with true.
    cbv iota.
    unfold match_, skip_whitespace. rewrite skip_space_head by reflexivity.
    rewrite H. eauto. }
  destruct (Ascii.eqb_spec c "f") as [->|N3].
  { rewrite parse_value_head by reflexivity. cbv zeta.
    change (Ascii.eqb "f" "n") with false. change (Ascii.eqb "f" "t") with false.
    change (Ascii.eqb "f" "f") with true. cbv iota.
    unfold match_, skip_whitespace. rewrite skip_space_head by reflexivity.
    rewrite H. eauto. }
  destruct (Ascii.eqb_spec c dquote) as [->|N4].
  { rewrite parse_value_head by reflexivity. cbv zeta.
    change (Ascii.eqb dquote "n") with false.
    change (Ascii.eqb dquote "t") with false.
    change (Ascii.eqb dquote "f") with false.
    change (Ascii.eqb dquote dquote) with true. cbv iota.
    unfold parse_string. rewrite next_head by reflexivity.
    change (Ascii.eqb dquote dquote) with true. cbv iota.
    destruct (rfc_chars_parsed _ t rest (le_n _) H) as (s & ->). eauto. }
  destruct (Ascii.eqb_spec c "[") as [->|N5].
  { rewrite parse_value_head by reflexivity. cbv zeta.
    change (Ascii.eqb "[" "n") with false. change (Ascii.eqb "[" "t") with false.
    change (Ascii.eqb "[" "f") with false. change (Ascii.eqb "[" dquote) with false.
    change (Ascii.eqb "[" "[") with true. cbv iota.
    unfold parse_array, glyph_list_new. rewrite next_head by reflexivity.
    change (Ascii.eqb "[" "[") with true. cbn [negb]. cbv iota.
    destruct (Rfc8259.ws t) as [|c' t'] eqn:Ew'; [discriminate|].
    pose proof (rfc_ws_length t) as Hw'. rewrite Ew' in Hw'. simpl in Hw'.
    destruct (Ascii.eqb_spec c' "]") as [->|Hn].
    - rewrite (peek_rfc_ws t "]" t' Ew' eq_refl).
      change (Ascii.eqb "]" "]") with true. cbv iota.
      rewrite next_head by reflexivity. injection H as <-. simpl. eauto.
    - assert (isspace c' = false) as Hc'.
      { destruct n as [|n']; [discriminate|]. cbn [Rfc8259.elements] in H.
        destruct (Rfc8259.value (S n') (String c' t')) as [p1|] eqn:Ev;
          [|discriminate].
        destruct (rfc_value_head _ _ _ Ev) as (c2 & t2 & Ew2 & Hc2).
        cbn [Rfc8259.ws] in Ew2. rewrite (rfc_ws_first t c' t' Ew') in Ew2.
        now injection Ew2 as -> _. }
      rewrite (peek_rfc_ws t c' t' Ew' Hc').
      destruct (Ascii.eqb_spec c' "]") as [|_]; [contradiction|].
      destruct (rfc_elements_parsed fuel (Rfc8259.value n)
                  (fun q r Hq => IH q r fuel Hq) n fuel (String c' t') rest [])
        as (v & ->); simpl; try lia; eauto. }
  destruct (Ascii.eqb_spec c "{") as [->|N6].
  { rewrite parse_value_head by reflexivity. cbv zeta.
    change (Ascii.eqb "{" "n") with false. change (Ascii.eqb "{" "t") with false.
    change (Ascii.eqb "{" "f") with false. change (Ascii.eqb "{" dquote) with false.
    change (Ascii.eqb "{" "[") with false. change (Ascii.eqb "{" "{") with true.
    cbv iota.
    unfold parse_object, glyph_map_new. rewrite next_head by reflexivity.
    change (Ascii.eqb "{" "{") with true. cbn [negb]. cbv iota.
    destruct (Rfc8259.ws t) as [|c' t'] eqn:Ew'; [discriminate|].
    pose proof (rfc_ws_length t) as Hw'. rewrite Ew' in Hw'. simpl in Hw'.
    destruct (Ascii.eqb_spec c' "}") as [->|Hn].
    - rewrite (peek_rfc_ws t "}" t' Ew' eq_refl).
      change (Ascii.eqb "}" "}") with true. cbv iota.
      rewrite next_head by reflexivity. injection H as <-. simpl. eauto.
    - assert (c' = dquote) as ->.
      { destruct n as [|n']; [discriminate|]. cbn [Rfc8259.members] in H.
        cbn [Rfc8259.ws] in H. rewrite (rfc_ws_first t c' t' Ew') in H.
        destruct (Ascii.eqb_spec c' dquote); [assumption | discriminate]. }
      rewrite (peek_rfc_ws t dquote t' Ew' eq_refl).
      change (Ascii.eqb dquote "}") with false. cbv iota.
      destruct (rfc_members_parsed fuel (Rfc8259.value n)
                  (fun q r Hq => IH q r fuel Hq) n fuel (String dquote t') rest [])
        as (v & Ev); simpl; try lia; [exact H|].
      exists v, rest. split; [exact Ev | reflexivity]. }
  destruct (rfc_number_parsed c t rest H) as (Hh & v & r & Ep & Hr).
  rewrite (parse_value_number fuel c t Hh). eauto.
Qed.

(** ** White space and trailing input *)

Lemma read_digits_count_app (s rest : string) (a c : Z) :
  snd (fst (read_digits s a c)) <= snd (fst (read_digits (s ++ rest) a c)).
Proof.
  revert a c. induction s as [|x s IH]; intros a c; cbn [append read_digits].
  - pose proof (read_digits_spec rest a c) as H.
    destruct (read_digits rest a c) as [[v n] r]. simpl. lia.
  - destruct (isdigit x); [apply IH | simpl; lia].
Qed.

Lemma read_sign_trailing (c : ascii) (t rest : string) :
  read_sign (String c t ++ rest)
  = (fst (read_sign (String c t)), snd (read_sign (String c t)) ++ rest).
Proof.
  simpl. destruct (Ascii.eqb c "-"); [reflexivity|]. now destruct (Ascii.eqb c "+").
Qed.

(** A number is read whatever follows its text. *)
Lemma strtoll_trailing (c : ascii) (t rest : string) :
  isspace c = false ->
  strtoll (String c t) <> None -> strtoll (String c t ++ rest) <> None.
Proof.
  intros Hc. unfold strtoll.
  change (String c t ++ rest) with (String c (t ++ rest)).
  rewrite !(skip_space_head c _ Hc).
  change (String c (t ++ rest)) with (String c t ++ rest).
  rewrite read_sign_trailing.
  destruct (read_sign (String c t)) as [neg s1]. cbn [fst snd].
  pose proof (read_digits_count_app s1 rest 0 0) as H.
  pose proof (read_digits_spec s1 0 0) as H1.
  destruct (read_digits s1 0 0) as [[v n] r].
  destruct (read_digits (s1 ++ rest) 0 0) as [[v' n'] r']. simpl in H.
  destruct (Z.eqb_spec n 0); [congruence|]. intros _.
  destruct (Z.eqb_spec n' 0); [lia | discriminate].
Qed.

Lemma parse_number_parsed (p : string) :
  strtoll (skip_space p) <> None <-> exists v r, parse_number p = Parsed v r.
Proof.
  unfold parse_number, skip_whitespace.
  destruct (strtoll (skip_space p)) as [[n e]|].
  - split; [intros _|discriminate]. destruct (is_float_mark e); [|eauto].
    destruct (strtod (skip_space p)) as [[d e']|]; eauto.
  - split; [congruence|]. now intros (v & r & H).
Qed.

Lemma parse_number_trailing (c : ascii) (t rest : string) (v : glyph_value_t)
    (r : string) :
  number_head c = true ->
  parse_number (String c t) = Parsed v r ->
  exists v' r', parse_number (String c t ++ rest) = Parsed v' r'.
Proof.
  intros Hc H. pose proof (number_head_not_space c Hc) as Hs.
  apply parse_number_parsed.
  change (String c t ++ rest) with (String c (t ++ rest)).
  rewrite (skip_space_head c _ Hs).
  apply (strtoll_trailing c t rest Hs).
  rewrite <- (skip_space_head c t Hs). apply parse_number_parsed. eauto.
Qed.

Lemma number_text_head (v : glyph_value_t) :
  is_number v = true -> json_ok v = true ->
  exists c t, write_json_value v = String c t /\ number_head c = true.
Proof.
  destruct v as [| |n|f| | | | | | | | ]; try discriminate; intros _ Hok.
  - apply fmt_ld_head.
  - unfold json_ok, stable_floats, float_stable in Hok. simpl in Hok.
    cbn [write_json_value]. unfold reread_float in Hok.
    destruct (fmt_g15 f) as [|c t]; [discriminate|].
    destruct (number_head c) eqn:Hc; [eauto | discriminate].
Qed.

(** The parser reads a JSON text of a value whatever follows it; what it
    builds is the image of the value when a number is not followed by a
    character that continues it. *)
Lemma json_text_accepted (v : glyph_value_t) (s rest : string) (fuel : nat) :
  forall_nodes json_ok v = true -> json_text v s ->
  (String.length s < fuel)%nat ->
  exists v' r,
    parse_value fuel (s ++ rest) = Parsed v' r
    /\ (tail_ok v rest -> v' = json_image v /\ r = rest).
Proof.
  intros Hok Hs Hf.
  assert (exists v' r, parse_value fuel (s ++ rest) = Parsed v' r) as (v' & r & E).
  { destruct (is_number v) eqn:Hn.
    - pose proof (forall_nodes_top _ _ Hok) as Hv.
      destruct (number_text_head v Hn Hv) as (c & t & Et & Hc).
      assert (is_scalar v = true) as Hsc by (now destruct v).
      pose proof (parse_scalar 0 v "" Hsc Hv (fun _ => I)) as Hp.
      rewrite append_nil_r, Et, (parse_value_number 0 c t Hc) in Hp.
      inversion Hs as [w v0 Hw _| | | |]; subst; try discriminate.
      destruct fuel as [|fuel]; [lia|].
      rewrite append_assoc, (parse_value_ws _ w _ Hw), Et.
      change (String c t ++ rest) with (String c (t ++ rest)).
      rewrite (parse_value_number fuel c _ Hc).
      apply (parse_number_trailing c t rest _ _ Hc Hp).
    - exists (json_image v), rest. apply json_text_parses; trivial.
      unfold tail_ok. congruence. }
  exists v', r. split; [exact E|]. intros Ht.
  rewrite (json_text_parses v Hok s rest fuel Hs Hf Ht) in E.
  now injection E as <- <-.
Qed.

(** What [glyph_from_json] returns a value for begins with a value of
    the lenient grammar. *)
Lemma glyph_from_json_lenient (input : string) (v : glyph_value_t) :
  glyph_from_json (Some input) = Some v -> lenient_prefix (c_str input).
Proof.
  unfold glyph_from_json.
  destruct (parse_value _ _) as [v' r| |] eqn:E; try discriminate.
  intros _. apply parse_value_split in E as (s & E & Hs). now exists s, r.
Qed.

(** C8, as the code has it.  The result of [glyph_from_json] is absent
    for every input that does not begin, after white space, with a value
    of the lenient grammar: the structure of JSON, with the numbers of
    [strtoll] and [strtod] and strings in which a backslash takes any
    byte with it.  Every input that has a well-formed JSON value at its
    start is given a value, whatever the white space between its tokens
    and whatever follows the value.  For a text that [glyph_to_json]
    writes, with white space added between its tokens and any input
    after it, the value built is the image of the value written, as long
    as a number at the top is followed by a delimiter or the end of the
    input. *)
Theorem C8_structural_errors_only (input : string) :
  (~ lenient_prefix (c_str input) -> glyph_from_json (Some input) = None)
  /\ (Rfc8259.well_formed_prefix (c_str input) = true ->
      exists v, glyph_from_json (Some input) = Some v)
  /\ (forall v s rest,
         input = s ++ rest -> is_c_str input = true ->
         json_text v s -> forall_nodes json_ok v = true ->
         exists v', glyph_from_json (Some input) = Some v'
                    /\ (tail_ok v rest -> v' = json_image v)).
Proof.
  split; [|split].
  - intros Hn. destruct (glyph_from_json (Some input)) as [v|] eqn:E; [|reflexivity].
    destruct Hn. now apply (glyph_from_json_lenient input v).
  - unfold Rfc8259.well_formed_prefix, glyph_from_json.
    destruct (Rfc8259.value _ _) as [rest|] eqn:E; [|discriminate]. intros _.
    destruct (rfc_value_accepted _ _ rest (fuel_for (c_str input))
                (Nat.lt_succ_diag_r _) E) as (v & r & -> & _).
    now exists v.
  - intros v s rest -> Hc Hs Hok. unfold glyph_from_json.
    rewrite (c_str_id _ Hc).
    destruct (json_text_accepted v s rest (fuel_for (s ++ rest)) Hok Hs)
      as (v' & r & E & Hv).
    { unfold fuel_for. rewrite append_length. lia. }
    rewrite E. exists v'. split; [reflexivity|]. intros Ht. now apply Hv.
Qed.

Lemma C8_structural_errors_only_witness :
  let input := " [ 1 , true ] trailing" in
  (exists v, glyph_from_json (Some input) = Some v)
  /\ exists v', glyph_from_json (Some input) = Some v'
                /\ v' = VList [VInt 1; VBool true].
Proof.
  intros input.
  destruct (C8_structural_errors_only input) as (_ & HA & HB). split.
  - apply HA. vm_compute. reflexivity.
  - destruct (HB (VList [VInt 1; VBool true]) " [ 1 , true ]" " trailing")
      as (v' & E & Hv).
    + reflexivity.
    + vm_compute. reflexivity.
    + exact (JT_list " " [VInt 1; VBool true] " 1 , true " eq_refl
               (JE_cons (VInt 1) [VBool true] " 1" " " " true "
                  (JT_scalar " " (VInt 1) eq_refl eq_refl) eq_refl
                  (JE_last (VBool true) " true" " "
                     (JT_scalar " " (VBool true) eq_refl eq_refl) eq_refl))).
    + vm_compute. reflexivity.
    + exists v'. split; [exact E|]. rewrite Hv; [reflexivity|].
      intros H. discriminate H.
Defined.

(** Input with a structural error has no value; input after a complete
    value is not looked at, except that a number goes on as far as
    [strtoll] and [strtod] read and that [\u] takes the four bytes after
    it when the input has them. *)
Example structural_error_samples :
  let q := str1 dquote in
  glyph_from_json None = None
  /\ glyph_from_json (Some "") = None
  /\ glyph_from_json (Some "   ") = None
  /\ glyph_from_json (Some "nul") = None
  /\ glyph_from_json (Some "-") = None
  /\ glyph_from_json (Some "+1") = None
  /\ glyph_from_json (Some ".5") = None
  /\ glyph_from_json (Some "[1") = None
  /\ glyph_from_json (Some "[1 2]") = None
  /\ glyph_from_json (Some "[1,]") = None
  /\ glyph_from_json (Some "[1,[2,{}],@]") = None
  /\ glyph_from_json (Some ("{" ++ q ++ "a" ++ q ++ " 1}")) = None
  /\ glyph_from_json (Some ("{" ++ q ++ "a" ++ q ++ ":1,}")) = None
  /\ glyph_from_json (Some "{a:1}") = None
  /\ glyph_from_json (Some (q ++ "open")) = None
  /\ glyph_from_json (Some "1 ]") = Some (VInt 1)
  /\ glyph_from_json (Some "null,") = Some VNull
  /\ glyph_from_json (Some "nullx") = Some VNull
  /\ glyph_from_json (Some "[] []") = Some (VList [])
  /\ glyph_from_json (Some "12") = Some (VInt 12)
  /\ glyph_from_json (Some (q ++ "\u" ++ q)) = Some (VStr (Some "u"))
  /\ glyph_from_json (Some (q ++ "\u" ++ q ++ " []")) = None.
Proof. vm_compute. repeat split. Qed.

(** * More of the codec

    The output buffers of [glyph.c] and [json.c] with their capacity,
    [glyph_as_float] and [glyph_hash_loose], and properties of the
    accessors, the writers and the parser. *)

(** ** The output buffers *)

Module StrBuf.

(** [strbuf_t]: the bytes stored in front of the terminating NUL, the
    length kept in [len] and the size [cap] of the allocated block.
    Sizes are natural numbers as they stand: no [size_t] wraps at the
    capacities a text reaches.  A function that would write outside the
    block ([memcpy] past [cap]) has no result, and neither has a loop
    that does not end. *)
Record strbuf_t := mk_strbuf { data : string; len : Z; cap : Z }.

Definition strbuf_init : strbuf_t := {| data := ""; len := 0; cap := 256 |}.

(** [while (target >= new_cap) new_cap *= 2;] *)
Fixpoint grow_loop (fuel : nat) (new_cap target : Z) : option Z :=
  match fuel with
  | O => None
  | S fuel' =>
      if new_cap <=? target then grow_loop fuel' (new_cap * 2) target
      else Some new_cap
  end.

(** Rounds enough for the loop when the capacity is positive. *)
Definition grow_fuel (target : Z) : nat := S (Z.to_nat target).

Definition strbuf_grow (buf : strbuf_t) (need : Z) : option strbuf_t :=
  if cap buf <=? len buf + need then
    match grow_loop (grow_fuel (len buf + need)) (cap buf * 2) (len buf + need) with
    | Some new_cap => Some {| data := data buf; len := len buf; cap := new_cap |}
    | None => None
    end
  else Some buf.

(** The bytes of the block in front of offset [n]. *)
Definition upto (n : Z) (d : string) : string := substring 0 (Z.to_nat n) d.

Definition strlen (s : string) : Z := Z.of_nat (String.length (c_str s)).

Definition strbuf_append (buf : strbuf_t) (s : string) : option strbuf_t :=
  let n := strlen s in
  match strbuf_grow buf (n + 1) with
  | Some buf =>
      if len buf + (n + 1) <=? cap buf then
        Some {| data := upto (len buf) (data buf) ++ c_str s;
                len := len buf + n;
                cap := cap buf |}
      else None
  | None => None
  end.

Definition strbuf_append_char (buf : strbuf_t) (c : ascii) : option strbuf_t :=
  match strbuf_grow buf 2 with
  | Some buf =>
      if len buf + 2 <=? cap buf then
        Some {| data := upto (len buf) (data buf) ++ str1 c;
                len := len buf + 1;
                cap := cap buf |}
      else None
  | None => None
  end.

Definition strbuf_finish (buf : strbuf_t) : string := data buf.

(** [json_buf_t] of [json.c] is the same structure; its [json_buf_grow]
    doubles [cap] itself, from its present value on. *)
Definition json_buf_init : strbuf_t := {| data := ""; len := 0; cap := 256 |}.

Definition json_buf_grow (buf : strbuf_t) (need : Z) : option strbuf_t :=
  if cap buf <=? len buf + need then
    match grow_loop (grow_fuel (len buf + need)) (cap buf) (len buf + need) with
    | Some new_cap => Some {| data := data buf; len := len buf; cap := new_cap |}
    | None => None
    end
  else Some buf.

Definition json_buf_append (buf : strbuf_t) (s : string) : option strbuf_t :=
  let n := strlen s in
  match json_buf_grow buf (n + 1) with
  | Some buf =>
      if len buf + (n + 1) <=? cap buf then
        Some {| data := upto (len buf) (data buf) ++ c_str s;
                len := len buf + n;
                cap := cap buf |}
      else None
  | None => None
  end.

Definition json_buf_append_char (buf : strbuf_t) (c : ascii) : option strbuf_t :=
  match json_buf_grow buf 2 with
  | Some buf =>
      if len buf + 2 <=? cap buf then
        Some {| data := upto (len buf) (data buf) ++ str1 c;
                len := len buf + 1;
                cap := cap buf |}
      else None
  | None => None
  end.

(** One call on a buffer: [strbuf_append] or [strbuf_append_char]. *)
Inductive write_t :=
| Append (s : string)
| AppendChar (c : ascii).

Definition piece (w : write_t) : string :=
  match w with
  | Append s => c_str s
  | AppendChar c => str1 c
  end.

Definition strbuf_write (buf : option strbuf_t) (w : write_t) : option strbuf_t :=
  match buf, w with
  | Some buf, Append s => strbuf_append buf s
  | Some buf, AppendChar c => strbuf_append_char buf c
  | None, _ => None
  end.

Definition json_buf_write (buf : option strbuf_t) (w : write_t) : option strbuf_t :=
  match buf, w with
  | Some buf, Append s => json_buf_append buf s
  | Some buf, AppendChar c => json_buf_append_char buf c
  | None, _ => None
  end.

End StrBuf.

(** ** [glyph_as_float] and [glyph_hash_loose] *)

Definition glyph_as_float (v : option glyph_value_t) : double :=
  match v with Some (VFloat f) => f | _ => d_0 end.





(** ** Containers: what is stored and what is found *)

Lemma find_entry_app {A : Type} (l1 l2 : list (string * A)) (key : string) :
  find_entry (l1 ++ l2) key
  = match find_entry l1 key with
    | Some x => Some x
    | None => find_entry l2 key
    end.
Proof.
  induction l1 as [|[k v] t IH]; [reflexivity|]. simpl.
  now destruct (strcmp k key =? 0).
Qed.

(** X1. [glyph_map_set] and [glyph_struct_set] add the pair at the end
    and [glyph_get] returns the first match: after a key is set, a lookup
    gives the value stored first under the key looked up, the new value
    only when that key was not there and is the key set; a later value
    for a key never replaces an earlier one. *)
Theorem X1_get_after_set (type_name : option string)
    (entries : list glyph_map_entry_t) (k key : string) (v : glyph_value_t) :
  let found (before : option glyph_value_t) :=
    match before with
    | Some old => Some old
    | None => if strcmp (c_str k) key =? 0 then Some v else None
    end in
  let m := Some (VMap entries) in
  let s := Some (VStruct type_name entries) in
  glyph_get (glyph_map_set m (Some k) (Some v)) (Some key)
  = found (glyph_get m (Some key))
  /\ glyph_get (glyph_struct_set s (Some k) (Some v)) (Some key)
     = found (glyph_get s (Some key))
  /\ (glyph_get (glyph_map_set m (Some k) (Some v)) (Some (c_str k)) = Some v
      <-> glyph_get m (Some (c_str k)) = None \/ glyph_get m (Some (c_str k)) = Some v).
Proof.
  cbn zeta. cbn [glyph_map_set glyph_struct_set glyph_get].
  rewrite !find_entry_app. cbn [find_entry]. rewrite strcmp_refl.
  change (0 =? 0) with true. cbv iota.
  repeat split.
  - destruct (find_entry entries (c_str k)); intros H; [now right | now left].
  - destruct (find_entry entries (c_str k)); intros [H|H]; congruence.
Qed.

(** X2. [glyph_list_append] puts the item at index [glyph_list_len] and
    moves nothing: the length grows by one, the items in front are where
    they were, and [glyph_list_get] is [NULL] at every index from the
    length on. *)
Theorem X2_list_append_get (items : list glyph_value_t) (x : glyph_value_t)
    (index : Z) :
  let list := Some (VList items) in
  let list' := glyph_list_append list (Some x) in
  0 <= index ->
  glyph_list_len list' = glyph_list_len list + 1
  /\ glyph_list_get list' (glyph_list_len list) = Some x
  /\ (index < glyph_list_len list ->
      glyph_list_get list' index = glyph_list_get list index
      /\ exists y, glyph_list_get list index = Some y)
  /\ (glyph_list_len list <= index -> glyph_list_get list index = None)
  /\ (glyph_list_len list' <= index -> glyph_list_get list' index = None).
Proof.
  intros list list' Hi. subst list list'. cbn [glyph_list_append glyph_list_len].
  rewrite length_app. cbn [List.length]. repeat split.
  - lia.
  - unfold glyph_list_get. rewrite length_app. cbn [List.length].
    destruct (Z.ltb_spec (Z.of_nat (List.length items)) 0); [lia|].
    destruct (Z.leb_spec (Z.of_nat (List.length items + 1)) (Z.of_nat (List.length items)));
      [lia|]. cbn [orb]. rewrite Nat2Z.id, nth_error_app2, Nat.sub_diag by lia.
    reflexivity.
  - unfold glyph_list_get. rewrite length_app. cbn [List.length].
    destruct (Z.ltb_spec index 0); [lia|].
    destruct (Z.leb_spec (Z.of_nat (List.length items + 1)) index); [lia|].
    destruct (Z.leb_spec (Z.of_nat (List.length items)) index); [lia|].
    cbn [orb]. now rewrite nth_error_app1 by lia.
  - unfold glyph_list_get.
    destruct (Z.ltb_spec index 0); [lia|].
    destruct (Z.leb_spec (Z.of_nat (List.length items)) index); [lia|]. cbn [orb].
    destruct (nth_error items (Z.to_nat index)) as [y|] eqn:E; [eauto|].
    apply nth_error_None in E. lia.
  - intros H. unfold glyph_list_get.
    destruct (Z.leb_spec (Z.of_nat (List.length items)) index); [|lia].
    now rewrite orb_true_r.
  - intros H. unfold glyph_list_get. rewrite length_app. cbn [List.length].
    destruct (Z.leb_spec (Z.of_nat (List.length items + 1)) index); [|lia].
    now rewrite orb_true_r.
Qed.

Lemma X2_list_append_get_witness :
  let list := Some (VList [VInt 7; VBool true]) in
  let list' := glyph_list_append list (Some VNull) in
  glyph_list_len list' = 3
  /\ glyph_list_get list' 2 = Some VNull
  /\ glyph_list_get list' 1 = Some (VBool true)
  /\ glyph_list_get list 2 = None.
Proof.
  destruct (X2_list_append_get [VInt 7; VBool true] VNull 1) as (H1 & H2 & H3 & _);
    [lia|].
  destruct (X2_list_append_get [VInt 7; VBool true] VNull 2) as (_ & _ & _ & H4 & _);
    [lia|].
  split; [exact H1|]. split; [exact H2|]. split.
  - rewrite (proj1 (H3 ltac:(simpl; lia))). reflexivity.
  - apply H4. simpl. lia.
Defined.

(** X3. On C-string keys [glyph_get] finds the first entry stored under
    the key, and is [NULL] exactly when no entry has it. *)
Theorem X3_get_first_entry (obj : glyph_value_t)
    (entries : list glyph_map_entry_t) (key : string) :
  item_entries obj = Some entries ->
  Forall c_str_key entries -> is_c_str key = true ->
  (glyph_get (Some obj) (Some key) = None <-> ~ In key (map fst entries))
  /\ forall x, glyph_get (Some obj) (Some key) = Some x ->
               exists front back,
                 entries = (front ++ (key, x) :: back)%list
                 /\ ~ In key (map fst front).
Proof.
  intros Hobj Hc Hk.
  assert (glyph_get (Some obj) (Some key) = find_entry entries key) as ->.
  { destruct obj; try discriminate; injection Hobj as ->; reflexivity. }
  clear Hobj. induction Hc as [|[k v] t Hkv Ht IH]; simpl.
  - split; [tauto | discriminate].
  - unfold c_str_key in Hkv. simpl in Hkv. destruct IH as [IH1 IH2].
    destruct (Z.eqb_spec (strcmp k key) 0) as [E|E].
    + apply strcmp_eq in E; trivial. subst k. split.
      * split; [discriminate | tauto].
      * intros x [= <-]. exists [], t. split; [reflexivity | tauto].
    + assert (k <> key) as Hne by (intros ->; now rewrite strcmp_refl in E).
      split; [rewrite IH1; tauto|].
      intros x Hx. destruct (IH2 x Hx) as (front & back & -> & Hf).
      exists ((k, v) :: front), back. split; [reflexivity|].
      simpl. tauto.
Qed.

Lemma X3_get_first_entry_witness :
  let s := VStruct (Some "P") [("x", VInt 1); ("y", VInt 2); ("x", VInt 3)] in
  (glyph_get (Some s) (Some "z") = None)
  /\ exists front back,
       [("x", VInt 1); ("y", VInt 2); ("x", VInt 3)]
       = (front ++ ("y", VInt 2) :: back)%list
       /\ ~ In "y" (map fst front).
Proof.
  intros s. split.
  - apply (X3_get_first_entry s _ "z" eq_refl); [repeat constructor | reflexivity|].
    simpl. intros [H|[H|[H|[]]]]; discriminate H.
  - apply (X3_get_first_entry s _ "y" eq_refl); [repeat constructor | |];
      reflexivity.
Defined.

(** ** The order of the entries written *)

Definition key_le {A : Type} (a b : string * A) : Prop :=
  strcmp (fst a) (fst b) <= 0.

Lemma c_str_key_positions {A : Type} (entries : list (string * A)) :
  Forall c_str_key entries -> Forall c_str_key (positions entries).
Proof.
  intros H. unfold c_str_key in *.
  apply (proj1 (Forall_map fst (fun k => is_c_str k = true) _)).
  rewrite positions_keys. now apply Forall_map.
Qed.

Lemma StronglySorted_impl {A : Type} (R R' : A -> A -> Prop) (l : list A) :
  (forall a b, R a b -> R' a b) -> StronglySorted R l -> StronglySorted R' l.
Proof.
  intros H. induction 1 as [|a t Hs IH Ha]; constructor; trivial.
  eapply Forall_impl; [|exact Ha]. intros b. apply H.
Qed.

(** X4. A Map, and a Struct after its type name, is written as the
    entries stored, each once with the position it is stored at, in
    ascending [strcmp] order of the keys. *)
Theorem X4_entries_written_in_key_order (pl : placement)
    (opts : glyph_canon_opts_t) (type_name : option string)
    (entries : list glyph_map_entry_t) :
  Forall c_str_key entries ->
  exists written : list (string * (nat * glyph_value_t)),
    Permutation (positions entries) written
    /\ StronglySorted key_le written
    /\ glyph_canonicalize_loose_with_opts pl (Some (VMap entries)) opts
       = Some ("{" ++ concat " " (map (write_entry (write_child pl opts)) written)
                 ++ "}")
    /\ glyph_canonicalize_loose_with_opts pl (Some (VStruct type_name entries)) opts
       = Some (or_empty type_name ++ "{"
               ++ concat " " (map (write_entry (write_child pl opts)) written)
               ++ "}").
Proof.
  intros Hc. exists (qsort compare_entries (positions entries)).
  split; [apply qsort_perm|]. split.
  - apply (StronglySorted_impl (cmp_le compare_entries c_str_key)).
    + now intros a b (_ & _ & H).
    + apply qsort_sorted; [| |now apply c_str_key_positions].
      * intros a b _ _. apply strcmp_total.
      * intros a b c. apply strcmp_trans.
  - unfold glyph_canonicalize_loose_with_opts, write_canon_value_at.
    now rewrite write_canon_value_VMap, write_canon_value_VStruct.
Qed.

Lemma X4_entries_written_in_key_order_witness :
  exists written : list (string * (nat * glyph_value_t)),
    Permutation (positions [("b", VInt 2); ("a", VNull); ("b", VInt 1)]) written
    /\ StronglySorted key_le written
    /\ glyph_canonicalize_loose ascending
         (Some (VMap [("b", VInt 2); ("a", VNull); ("b", VInt 1)]))
       = Some ("{" ++ concat " "
                        (map (write_entry
                                (write_child ascending glyph_canon_opts_default))
                             written) ++ "}").
Proof.
  destruct (X4_entries_written_in_key_order ascending glyph_canon_opts_default None
              [("b", VInt 2); ("a", VNull); ("b", VInt 1)])
    as (written & Hp & Hs & Hm & _).
  - repeat constructor.
  - exists written. split; [exact Hp|]. split; [exact Hs | exact Hm].
Defined.

(** ** When a list becomes a table *)

Lemma list_form_not_table (t out : string) :
  out = "[" ++ t -> begins_with "[" out /\ ~ begins_with "@tab " out.
Proof.
  intros ->. split; [now exists t|]. intros H.
  apply begins_with_first in H. discriminate H.
Qed.

Lemma table_form_not_list {A : Type} (f : A -> string) (opts : glyph_canon_opts_t)
    (items : list (option (list (string * A)))) (cols : list string) :
  begins_with "@tab " (write_tabular f opts items cols)
  /\ ~ begins_with "[" (write_tabular f opts items cols).
Proof.
  split; [apply write_tabular_shape|]. intros H. unfold write_tabular in H.
  apply begins_with_first in H. discriminate H.
Qed.

(** X5. Under any options a list is written as a table exactly when
    [auto_tabular] is set, the list has [min_rows] elements or more, each
    a Map or a Struct, the keys of the elements are between one and
    [max_cols] in number, and at least half of them are keys of every
    element; it is written in brackets otherwise. *)
Theorem X5_table_exactly_when (pl : placement) (opts : glyph_canon_opts_t)
    (items : list glyph_value_t) (cols common : list string) :
  Forall c_str_keys items -> key_union items cols -> common_keys items common ->
  exists out : string,
    glyph_canonicalize_loose_with_opts pl (Some (VList items)) opts = Some out
    /\ (begins_with "@tab " out
        <-> auto_tabular opts = true
            /\ min_rows opts <= Z.of_nat (List.length items)
            /\ Forall is_object items
            /\ 1 <= Z.of_nat (List.length cols) <= max_cols opts
            /\ Z.of_nat (List.length cols) <= 2 * Z.of_nat (List.length common))
    /\ (begins_with "@tab " out \/ begins_with "[" out).
Proof.
  intros Hc Hu Hk. eexists. split; [reflexivity|].
  unfold write_canon_value_at. rewrite write_canon_value_VList.
  unfold write_canon_list. rewrite check_homogeneous_rows.
  unfold check_homogeneous. rewrite length_map.
  assert (forall t (P : Prop), ~ P ->
             (begins_with "@tab " ("[" ++ t) <-> P)
             /\ (begins_with "@tab " ("[" ++ t) \/ begins_with "[" ("[" ++ t)))
    as Hlist.
  { intros t P HP. destruct (list_form_not_table t _ eq_refl) as [H1 H2].
    split; [tauto | now right]. }
  destruct (auto_tabular opts); [|apply Hlist; intros (H & _); discriminate H].
  destruct (Z.ltb_spec (Z.of_nat (List.length items)) (min_rows opts));
    [apply Hlist; lia|].
  destruct (collect_keys (map item_entries items) []) as [keys|] eqn:E.
  2:{ apply Hlist. intros (_ & _ & Hobj & _).
      apply collect_keys_objects, in_map_iff in E as (item & E & Hin).
      rewrite Forall_forall in Hobj. now destruct (Hobj item Hin). }
  destruct (collected_keys_are_union items cols common keys Hc Hu Hk E) as [L1 L2].
  unfold common_count. rewrite L2, L1.
  destruct (Z.eqb_spec (Z.of_nat (List.length cols)) 0); [apply Hlist; lia|].
  destruct (Z.ltb_spec (max_cols opts) (Z.of_nat (List.length cols)));
    [apply Hlist; lia|]. cbn [orb].
  destruct (Z.ltb_spec (Z.of_nat (List.length common) * 2)
                       (Z.of_nat (List.length cols))); [apply Hlist; lia|].
  destruct (table_form_not_list (write_cell_value pl opts) opts
              (map row_entries (numbered items)) (sort_columns (pl []) keys))
    as [T1 T2].
  split; [|now left]. split; [intros _|intros _; exact T1].
  repeat split; try lia.
  assert (~ In None (map item_entries items)) as Hobj.
  { intros Hin. apply (collect_keys_objects _ []) in Hin. congruence. }
  rewrite Forall_forall. intros item Hin Hnone. apply Hobj.
  rewrite <- Hnone. now apply in_map.
Qed.

Definition two_rows : list glyph_value_t :=
  [VMap [("k", VInt 1)]; VMap [("k", VInt 2); ("j", VInt 3)]].

Definition opts_two_rows : glyph_canon_opts_t :=
  {| auto_tabular := true; min_rows := 2; max_cols := 2;
     allow_missing := true; null_style := GLYPH_NULL_UNDERSCORE |}.

Lemma X5_table_exactly_when_witness :
  (exists out,
      glyph_canonicalize_loose_with_opts descending (Some (VList two_rows))
        opts_two_rows
      = Some out /\ begins_with "@tab " out)
  /\ (exists out,
         glyph_canonicalize_loose descending (Some (VList two_rows)) = Some out
         /\ ~ begins_with "@tab " out).
Proof.
  assert (Forall c_str_keys two_rows) as Hc
    by (repeat constructor; intros es [= <-]; repeat constructor).
  assert (key_union two_rows ["k"; "j"]) as Hu by (unfold key_union, two_rows; key_sets).
  assert (common_keys two_rows ["k"]) as Hk by (unfold common_keys, two_rows; key_sets).
  split.
  - destruct (X5_table_exactly_when descending opts_two_rows two_rows _ _ Hc Hu Hk)
      as (out & E & Htab & _).
    exists out. split; [exact E|]. apply Htab. simpl.
    repeat split; try lia. repeat constructor; discriminate.
  - destruct (X5_table_exactly_when descending glyph_canon_opts_default two_rows
                _ _ Hc Hu Hk)
      as (out & E & Htab & _).
    exists out. split; [exact E|]. rewrite Htab. simpl. lia.
Defined.

(** ** The text of a string *)

Lemma all_bytes_impl (p q : ascii -> bool) (s : string) :
  (forall c, p c = true -> q c = true) ->
  all_bytes p s = true -> all_bytes q s = true.
Proof.
  intros H. induction s as [|c s IH]; simpl; [trivial|].
  destruct (p c) eqn:E; [|discriminate]. now rewrite (H c E).
Qed.

Lemma all_bytes_app (p : ascii -> bool) (a b : string) :
  all_bytes p (a ++ b) = all_bytes p a && all_bytes p b.
Proof.
  induction a as [|c a IH]; simpl; [reflexivity|]. now destruct (p c).
Qed.

Lemma bare_safe_first (s : string) :
  is_bare_safe (Some s) = true ->
  exists c t, s = String c t /\ c <> dquote /\ all_bytes bare_byte s = true.
Proof.
  unfold is_bare_safe. destruct s as [|c t]; [discriminate|].
  destruct (Ascii.eqb_spec c dquote) as [->|Hc]; [discriminate|].
  destruct (_ || _); [discriminate|]. destruct (_ || _); [discriminate|].
  intros H. now exists c, t.
Qed.

Lemma quoted_body_inj (s1 s2 : string) :
  quoted_body s1 = quoted_body s2 -> s1 = s2.
Proof.
  intros H. pose proof (parse_quoted_body s1 "") as H1.
  rewrite H, parse_quoted_body in H1. now injection H1.
Qed.

(** X6. Different strings have different canonical texts, and the text
    of a string is never that of a Bool or of the null glyph [_]: the
    words that stand for those are written in quotes. *)
Theorem X6_canon_string_injective (s1 s2 : string) :
  (s1 <> s2 -> write_canon_string s1 <> write_canon_string s2)
  /\ ~ In (write_canon_string s1) ["t"; "f"; "_"; "true"; "false"; "null"].
Proof.
  unfold write_canon_string, write_quoted_string. split.
  - intros Hne Heq. apply Hne. revert Heq.
    destruct (is_bare_safe (Some s1)) eqn:E1, (is_bare_safe (Some s2)) eqn:E2;
      trivial.
    + apply bare_safe_first in E1 as (c & t & -> & Hc & _).
      intros H. injection H as -> _. now destruct Hc.
    + apply bare_safe_first in E2 as (c & t & -> & Hc & _).
      intros H. injection H as <- _. now destruct Hc.
    + intros H. injection H as H. apply quoted_body_inj.
      rewrite <- (append_nil_r (quoted_body s1)), <- (append_nil_r (quoted_body s2)).
      apply (f_equal (fun x => fst (match parse_string_loop x with
                                    | Some r => r
                                    | None => (""%string, ""%string)
                                    end))) in H.
      unfold str1 in H. rewrite !parse_quoted_body in H. simpl in H. now subst.
  - destruct (is_bare_safe (Some s1)) eqn:E1.
    + simpl. intros H.
      repeat (destruct H as [<-|H]; [discriminate E1|]). exact H.
    + simpl. intros H. repeat (destruct H as [H|H]; [discriminate H|]). exact H.
Qed.

Lemma X6_canon_string_injective_witness :
  write_canon_string "a b" <> write_canon_string "a  b"
  /\ write_canon_string "t" <> "t"%string.
Proof.
  destruct (X6_canon_string_injective "a b" "a  b") as [H _].
  destruct (X6_canon_string_injective "t" "t") as [_ Hn].
  split; [apply H; discriminate|]. intros E. apply Hn. rewrite E. now left.
Defined.

Definition printable (c : ascii) : bool := 32 <=? uchar c.

Lemma quoted_byte_printable (c : ascii) :
  all_bytes printable (quoted_byte c) = true.
Proof. destruct c as [[] [] [] [] [] [] [] []]; reflexivity. Qed.

Lemma bare_byte_printable (c : ascii) : bare_byte c = true -> printable c = true.
Proof.
  destruct c as [[] [] [] [] [] [] [] []]; intros H;
    first [reflexivity | discriminate H].
Qed.

(** X7. No control character is written for a string: in the quoted
    form every byte below [0x20] is escaped, and a bare string has none.
    A line feed in a string therefore never ends a row of a table. *)
Theorem X7_no_control_bytes (s : string) :
  all_bytes printable (write_quoted_string s) = true
  /\ all_bytes printable (write_canon_string s) = true
  /\ all_bytes printable (write_json_string s) = true.
Proof.
  assert (all_bytes printable (write_quoted_string s) = true) as H.
  { unfold write_quoted_string. rewrite !all_bytes_app. simpl.
    rewrite andb_true_r. change (printable dquote) with true. cbv iota.
    induction s as [|c s IH]; [reflexivity|]. cbn [quoted_body].
    now rewrite all_bytes_app, quoted_byte_printable, IH. }
  split; [exact H|]. split; [|exact H].
  unfold write_canon_string. destruct (is_bare_safe (Some s)) eqn:E; [|exact H].
  apply bare_safe_first in E as (c & t & -> & _ & Hb).
  exact (all_bytes_impl _ _ _ bare_byte_printable Hb).
Qed.

Lemma c_str_app (a b : string) : is_c_str a = true -> c_str (a ++ b) = a ++ c_str b.
Proof.
  induction a as [|c a IH]; [reflexivity|]. intros H.
  apply is_c_str_cons in H as [Hc Ha]. simpl.
  destruct (Z.eqb_spec (uchar c) 0); [contradiction|]. now rewrite IH.
Qed.

(** X8. The quoted form that the canonical writer and the JSON writer
    give a string is read back by [parse_string] as the bytes of the
    string, with the input after the closing quote left; as a JSON text
    it is parsed into the Str of a C string, whatever follows. *)
Theorem X8_quoted_string_read_back (s rest : string) :
  write_json_string s = write_quoted_string s
  /\ parse_string (write_quoted_string s ++ rest) = Some (s, rest)
  /\ (is_c_str s = true ->
      glyph_from_json (Some (write_quoted_string s ++ rest)) = Some (VStr (Some s))).
Proof.
  split; [reflexivity|]. split; [apply (parse_json_string s rest)|].
  intros Hs. unfold glyph_from_json.
  rewrite (c_str_app (write_quoted_string s) rest (is_c_str_json_string s)).
  pose proof (parse_scalar (String.length (write_quoted_string s ++ c_str rest))
                (VStr (Some s)) (c_str rest) eq_refl) as H.
  unfold fuel_for. cbn [write_json_value or_empty] in H.
  change (write_json_string s) with (write_quoted_string s) in H.
  rewrite H; [reflexivity | |intros E; discriminate E].
  unfold json_ok. simpl. now rewrite Hs.
Qed.

Lemma X8_quoted_string_read_back_witness :
  glyph_from_json (Some (write_quoted_string ("tab" ++ str1 tab ++ "é") ++ " , 1"))
  = Some (VStr (Some ("tab" ++ str1 tab ++ "é"))).
Proof.
  apply (X8_quoted_string_read_back ("tab" ++ str1 tab ++ "é") " , 1").
  reflexivity.
Defined.

(** ** The text of an Int *)

(** X9. Different Ints have different canonical texts: the text of an
    Int, in the range of [int64_t], is the one [strtoll] reads back as
    that number. *)
Theorem X9_int_text_injective (pl pl' : placement) (opts : glyph_canon_opts_t)
    (a b : Z) :
  LLONG_MIN <= a <= LLONG_MAX -> LLONG_MIN <= b <= LLONG_MAX ->
  (a <> b ->
   glyph_canonicalize_loose_with_opts pl (Some (VInt a)) opts
   <> glyph_canonicalize_loose_with_opts pl' (Some (VInt b)) opts)
  /\ strtoll (write_canon_value pl opts (VInt a)) = Some (a, "").
Proof.
  intros Ha Hb. unfold LLONG_MIN, LLONG_MAX in *.
  assert (forall p z, - 2 ^ 63 <= z <= 2 ^ 63 - 1 ->
                      strtoll (write_canon_value p opts (VInt z)) = Some (z, ""))
    as Hz.
  { intros p z H. cbn [write_canon_value]. rewrite to_long_small by lia.
    rewrite <- (append_nil_r (fmt_ld z)).
    apply strtoll_fmt_ld; [unfold LLONG_MIN, LLONG_MAX; lia | exact I]. }
  split; [|now apply Hz].
  intros Hne H. apply Hne. injection H as H.
  change (write_canon_value pl opts (VInt a) = write_canon_value pl' opts (VInt b))
    in H.
  pose proof (Hz pl a Ha) as E. rewrite H, (Hz pl' b Hb) in E. now injection E.
Qed.

Lemma X9_int_text_injective_witness :
  glyph_canonicalize_loose ascending (Some (VInt (-9223372036854775808)))
  <> glyph_canonicalize_loose descending (Some (VInt 9223372036854775807))
  /\ strtoll (write_canon_value ascending glyph_canon_opts_default
                (VInt (-9223372036854775808)))
     = Some (-9223372036854775808, "").
Proof.
  destruct (X9_int_text_injective ascending descending glyph_canon_opts_default
              (-9223372036854775808) 9223372036854775807) as [H1 H2];
    [unfold LLONG_MIN, LLONG_MAX; lia | unfold LLONG_MIN, LLONG_MAX; lia|].
  split; [apply H1; lia | exact H2].
Defined.

(** ** Base64 *)

Definition sextet (n s : Z) : Z := Z.land (Z.shiftr n s) 63.

Lemma sextet_value (n s : Z) : 0 <= s -> sextet n s = (n / 2 ^ s) mod 64.
Proof.
  intros Hs. unfold sextet. rewrite Z.shiftr_div_pow2 by assumption.
  change 63 with (Z.ones 6). now rewrite Z.land_ones by lia.
Qed.

Lemma sextet_range (n s : Z) : 0 <= s -> 0 <= sextet n s < 64.
Proof. intros Hs. rewrite sextet_value by assumption. now apply Z.mod_pos_bound. Qed.

Definition sextets : list Z := map Z.of_nat (seq 0 64).

Lemma In_sextets (i : Z) : 0 <= i < 64 -> In i sextets.
Proof.
  intros H. unfold sextets. apply in_map_iff. exists (Z.to_nat i).
  split; [lia|]. apply in_seq. lia.
Qed.

(** A character of the alphabet: a letter, a digit, [+] or [/]. *)
Definition b64_char (c : ascii) : bool :=
  isalnum c || Ascii.eqb c "+" || Ascii.eqb c "/".

Lemma b64_at_char (i : Z) : 0 <= i < 64 -> b64_char (b64_at i) = true.
Proof.
  intros H. apply In_sextets in H. revert i H.
  apply (proj1 (forallb_forall (fun i => b64_char (b64_at i)) sextets)).
  vm_compute. reflexivity.
Qed.

Lemma b64_at_inj (i j : Z) :
  0 <= i < 64 -> 0 <= j < 64 -> b64_at i = b64_at j -> i = j.
Proof.
  intros Hi Hj E. apply In_sextets in Hi, Hj.
  assert (forallb (fun a => forallb (fun b => implb (Ascii.eqb (b64_at a) (b64_at b))
                                                   (a =? b)) sextets) sextets = true)
    as H by (vm_compute; reflexivity).
  rewrite forallb_forall in H. specialize (H i Hi).
  rewrite forallb_forall in H. specialize (H j Hj).
  rewrite E, Ascii.eqb_refl in H. now apply Z.eqb_eq.
Qed.

Lemma b64_char_not_pad (c : ascii) : b64_char c = true -> c <> "="%char.
Proof. intros H ->. discriminate H. Qed.

Lemma byte_val_range (b : Byte.byte) : 0 <= byte_val b < 256.
Proof.
  unfold byte_val. pose proof (Byte.to_N_bounded b). lia.
Qed.

Lemma byte_val_inj (a b : Byte.byte) : byte_val a = byte_val b -> a = b.
Proof.
  unfold byte_val. intros H. apply N2Z.inj in H.
  pose proof (Byte.of_to_N a) as Ha. rewrite H, Byte.of_to_N in Ha.
  now injection Ha.
Qed.

Lemma land_disjoint (x k b : Z) :
  0 <= k -> 0 <= b < 2 ^ k -> Z.land (x * 2 ^ k) b = 0.
Proof.
  intros Hk Hb. apply Z.bits_inj'. intros i Hi.
  rewrite Z.land_spec, Z.bits_0.
  destruct (Z.lt_ge_cases i k) as [Hlt|Hge].
  - now rewrite Z.mul_pow2_bits_low.
  - destruct (Z.eq_dec b 0) as [->|Hz]; [now rewrite Z.bits_0, andb_false_r|].
    rewrite (Z.bits_above_log2 b i), andb_false_r; [reflexivity | lia|].
    apply Z.log2_lt_pow2; [lia|].
    apply Z.lt_le_trans with (2 ^ k); [lia|]. apply Z.pow_le_mono_r; lia.
Qed.

Lemma lor_disjoint (x k b : Z) :
  0 <= k -> 0 <= b < 2 ^ k -> Z.lor (x * 2 ^ k) b = x * 2 ^ k + b.
Proof.
  intros Hk Hb. pose proof (Z.add_lor_land (x * 2 ^ k) b) as H.
  rewrite (land_disjoint x k b Hk Hb) in H. lia.
Qed.

(** The 24 bits of a group of three bytes. *)
Lemma group_value (x y z : Z) :
  0 <= x < 256 -> 0 <= y < 256 -> 0 <= z < 256 ->
  Z.lor (Z.lor (Z.shiftl x 16) (Z.shiftl y 8)) z = x * 65536 + y * 256 + z
  /\ Z.lor (Z.shiftl x 16) (Z.shiftl y 8) = x * 65536 + y * 256
  /\ Z.shiftl x 16 = x * 65536.
Proof.
  intros Hx Hy Hz. rewrite !Z.shiftl_mul_pow2 by lia.
  change (2 ^ 16) with 65536. change (2 ^ 8) with 256.
  assert (Z.lor (x * 65536) (y * 256) = x * 65536 + y * 256) as E1.
  { change 65536 with (2 ^ 16). apply lor_disjoint; lia. }
  split; [|split; [exact E1 | reflexivity]].
  rewrite E1. replace (x * 65536 + y * 256) with ((x * 256 + y) * 2 ^ 8) by lia.
  rewrite lor_disjoint; lia.
Qed.

(** The sextets of a group determine it. *)
Lemma sextets_inj (n m : Z) :
  0 <= n < 2 ^ 24 -> 0 <= m < 2 ^ 24 ->
  sextet n 18 = sextet m 18 -> sextet n 12 = sextet m 12 ->
  sextet n 6 = sextet m 6 -> sextet n 0 = sextet m 0 -> n = m.
Proof.
  intros Hn Hm. rewrite !sextet_value by lia.
  change (2 ^ 18) with 262144. change (2 ^ 12) with 4096.
  change (2 ^ 6) with 64. change (2 ^ 0) with 1. change (2 ^ 24) with 16777216 in *.
  rewrite !Z.div_1_r. intros H1 H2 H3 H4.
  Z.to_euclidean_division_equations. lia.
Qed.

Definition group1 (x : Byte.byte) : Z := Z.shiftl (byte_val x) 16.
Definition group2 (x y : Byte.byte) : Z :=
  Z.lor (Z.shiftl (byte_val x) 16) (Z.shiftl (byte_val y) 8).
Definition group3 (x y z : Byte.byte) : Z :=
  Z.lor (Z.lor (Z.shiftl (byte_val x) 16) (Z.shiftl (byte_val y) 8)) (byte_val z).

Definition b64_sextet (n s : Z) : ascii := b64_at (sextet n s).

Lemma base64_1 (x : Byte.byte) :
  base64 [x]
  = String (b64_sextet (group1 x) 18) (String (b64_sextet (group1 x) 12) "==").
Proof. reflexivity. Qed.

Lemma base64_2 (x y : Byte.byte) :
  base64 [x; y]
  = String (b64_sextet (group2 x y) 18)
      (String (b64_sextet (group2 x y) 12)
         (String (b64_sextet (group2 x y) 6) "=")).
Proof. reflexivity. Qed.

Lemma base64_3 (x y z : Byte.byte) (t : list Byte.byte) :
  base64 (x :: y :: z :: t)
  = String (b64_sextet (group3 x y z) 18)
      (String (b64_sextet (group3 x y z) 12)
         (String (b64_sextet (group3 x y z) 6)
            (String (b64_sextet (group3 x y z) 0) (base64 t)))).
Proof. reflexivity. Qed.

Lemma b64_sextet_char (n s : Z) : 0 <= s -> b64_char (b64_sextet n s) = true.
Proof. intros Hs. apply b64_at_char. now apply sextet_range. Qed.

Lemma b64_sextet_inj (n m s : Z) :
  0 <= s -> b64_sextet n s = b64_sextet m s -> sextet n s = sextet m s.
Proof. intros Hs. apply b64_at_inj; now apply sextet_range. Qed.

Lemma b64_sextet_not_pad (n s : Z) : 0 <= s -> b64_sextet n s <> "="%char.
Proof. intros Hs. now apply b64_char_not_pad, b64_sextet_char. Qed.

Lemma group1_inj (x x' : Byte.byte) :
  sextet (group1 x) 18 = sextet (group1 x') 18 ->
  sextet (group1 x) 12 = sextet (group1 x') 12 -> x = x'.
Proof.
  pose proof (byte_val_range x) as Hx. pose proof (byte_val_range x') as Hx'.
  unfold group1. rewrite !sextet_value, !Z.shiftl_mul_pow2 by lia.
  change (2 ^ 18) with 262144. change (2 ^ 12) with 4096.
  change (2 ^ 16) with 65536. intros H1 H2. apply byte_val_inj.
  Z.to_euclidean_division_equations. lia.
Qed.

Lemma group2_inj (x y x' y' : Byte.byte) :
  sextet (group2 x y) 18 = sextet (group2 x' y') 18 ->
  sextet (group2 x y) 12 = sextet (group2 x' y') 12 ->
  sextet (group2 x y) 6 = sextet (group2 x' y') 6 -> x = x' /\ y = y'.
Proof.
  pose proof (byte_val_range x) as Hx. pose proof (byte_val_range x') as Hx'.
  pose proof (byte_val_range y) as Hy. pose proof (byte_val_range y') as Hy'.
  unfold group2.
  rewrite (proj1 (proj2 (group_value _ _ 0 Hx Hy ltac:(lia)))).
  rewrite (proj1 (proj2 (group_value _ _ 0 Hx' Hy' ltac:(lia)))).
  rewrite !sextet_value by lia.
  change (2 ^ 18) with 262144. change (2 ^ 12) with 4096. change (2 ^ 6) with 64.
  intros H1 H2 H3.
  assert (byte_val x = byte_val x' /\ byte_val y = byte_val y') as [E1 E2]
    by (Z.to_euclidean_division_equations; lia).
  split; now apply byte_val_inj.
Qed.

Lemma group3_inj (x y z x' y' z' : Byte.byte) :
  sextet (group3 x y z) 18 = sextet (group3 x' y' z') 18 ->
  sextet (group3 x y z) 12 = sextet (group3 x' y' z') 12 ->
  sextet (group3 x y z) 6 = sextet (group3 x' y' z') 6 ->
  sextet (group3 x y z) 0 = sextet (group3 x' y' z') 0 ->
  x = x' /\ y = y' /\ z = z'.
Proof.
  pose proof (byte_val_range x) as Hx. pose proof (byte_val_range x') as Hx'.
  pose proof (byte_val_range y) as Hy. pose proof (byte_val_range y') as Hy'.
  pose proof (byte_val_range z) as Hz. pose proof (byte_val_range z') as Hz'.
  unfold group3.
  rewrite (proj1 (group_value _ _ _ Hx Hy Hz)), (proj1 (group_value _ _ _ Hx' Hy' Hz')).
  intros H1 H2 H3 H4.
  assert (byte_val x * 65536 + byte_val y * 256 + byte_val z
          = byte_val x' * 65536 + byte_val y' * 256 + byte_val z') as E
    by (apply sextets_inj; trivial; change (2 ^ 24) with 16777216; lia).
  assert (byte_val x = byte_val x' /\ byte_val y = byte_val y'
          /\ byte_val z = byte_val z') as (E1 & E2 & E3) by lia.
  repeat split; now apply byte_val_inj.
Qed.

Lemma list_ind3 {A : Type} (P : list A -> Prop) :
  P [] -> (forall x, P [x]) -> (forall x y, P [x; y]) ->
  (forall x y z t, P t -> P (x :: y :: z :: t)) -> forall l, P l.
Proof.
  intros H0 H1 H2 H3.
  assert (forall l, P l /\ (forall x, P (x :: l)) /\ (forall x y, P (x :: y :: l)))
    as H.
  { induction l as [|a l (IH0 & IH1 & IH2)].
    - repeat split; auto.
    - repeat split; auto. }
  intros l. apply H.
Qed.

Ltac pad_clash :=
  match goal with
  | E : b64_sextet _ _ = "="%char |- _ =>
      apply b64_sextet_not_pad in E; [contradiction | lia]
  | E : "="%char = b64_sextet _ _ |- _ =>
      symmetry in E; apply b64_sextet_not_pad in E; [contradiction | lia]
  end.

Ltac same_sextets :=
  repeat match goal with
         | E : b64_sextet _ ?s = b64_sextet _ ?s |- _ =>
             apply b64_sextet_inj in E; [|lia]
         end.

Lemma base64_inj (d1 d2 : list Byte.byte) : base64 d1 = base64 d2 -> d1 = d2.
Proof.
  revert d2. induction d1 as [|x|x y|x y z t IH] using list_ind3;
    intros [|x' [|y' [|z' t']]];
    rewrite ?base64_1, ?base64_2, ?base64_3; intros H;
    try reflexivity; try discriminate H;
    injection H; intros; try pad_clash; same_sextets.
  - f_equal. now apply group1_inj.
  - destruct (group2_inj x y x' y') as [-> ->]; trivial.
  - destruct (group3_inj x y z x' y' z') as (-> & -> & ->); trivial.
    repeat f_equal. now apply IH.
Qed.

Lemma base64_chars (data : list Byte.byte) :
  all_bytes (fun c => b64_char c || Ascii.eqb c "=") (base64 data) = true.
Proof.
  induction data as [|x|x y|x y z t IH] using list_ind3;
    rewrite ?base64_1, ?base64_2, ?base64_3; cbn [all_bytes];
    rewrite ?b64_sextet_char by lia; try reflexivity. exact IH.
Qed.

(** X10. The Base64 text of the bytes of a Bytes value has four
    characters for every three bytes begun, each a letter, a digit, [+],
    [/] or the padding [=], and different byte sequences have different
    texts, so that different Bytes values have different canonical
    forms. *)
Theorem X10_base64_text (pl pl' : placement) (opts : glyph_canon_opts_t)
    (d1 d2 : list Byte.byte) :
  Z.of_nat (String.length (base64 d1)) = 4 * ((Z.of_nat (List.length d1) + 2) / 3)
  /\ all_bytes (fun c => b64_char c || Ascii.eqb c "=") (base64 d1) = true
  /\ (d1 <> d2 ->
      glyph_canonicalize_loose_with_opts pl (Some (VBytes d1)) opts
      <> glyph_canonicalize_loose_with_opts pl' (Some (VBytes d2)) opts).
Proof.
  split; [|split].
  - induction d1 as [|x|x y|x y z t IH] using list_ind3; try reflexivity.
    rewrite base64_3.
    change (String.length (String ?a (String ?b (String ?c (String ?d ?r)))))
      with (S (S (S (S (String.length r))))).
    change (List.length (x :: y :: z :: t)) with (S (S (S (List.length t)))).
    rewrite !Nat2Z.inj_succ.
    replace (Z.succ (Z.succ (Z.succ (Z.of_nat (List.length t)))) + 2)
      with (Z.of_nat (List.length t) + 2 + 1 * 3) by lia.
    rewrite Z.div_add by lia. lia.
  - apply base64_chars.
  - intros Hne H. apply Hne. injection H as H.
    apply base64_inj. revert H. generalize (base64 d1) (base64 d2). clear.
    induction s as [|c s IH]; intros [|c' s']; simpl; intros H;
      try reflexivity; try discriminate H.
    + destruct s'; discriminate H.
    + destruct s; discriminate H.
    + injection H as -> H. f_equal. now apply IH.
Qed.

Lemma X10_base64_text_witness :
  glyph_canonicalize_loose ascending (Some (VBytes [Byte.x00]))
  <> glyph_canonicalize_loose descending (Some (VBytes [Byte.x00; Byte.x00])).
Proof.
  apply (X10_base64_text ascending descending glyph_canon_opts_default
           [Byte.x00] [Byte.x00; Byte.x00]).
  discriminate.
Defined.

(** ** The output buffers stay within their blocks *)

Import StrBuf.

Lemma grow_loop_spec (fuel : nat) :
  forall new_cap target,
    0 < new_cap -> (Z.to_nat (target + 1 - new_cap) < fuel)%nat ->
    exists c k, grow_loop fuel new_cap target = Some c
                /\ target < c /\ 0 <= k /\ c = new_cap * 2 ^ k.
Proof.
  induction fuel as [|fuel IH]; intros new_cap target Hc Hf; [lia|].
  cbn [grow_loop]. destruct (Z.leb_spec new_cap target) as [Hle|Hgt].
  - destruct (IH (new_cap * 2) target) as (c & k & E & H1 & H2 & H3); [lia | lia|].
    exists c, (k + 1). repeat split; trivial; [lia|].
    rewrite Z.pow_add_r, H3 by lia. lia.
  - exists new_cap, 0. repeat split; trivial; lia.
Qed.

(** What every call keeps: [len] is the number of bytes stored, the
    terminating NUL has its place in the block, and the capacity is 256
    doubled some number of times. *)
Definition well_formed (buf : strbuf_t) : Prop :=
  len buf = Z.of_nat (String.length (data buf))
  /\ len buf < cap buf
  /\ exists k, 0 <= k /\ cap buf = 256 * 2 ^ k.

Lemma upto_all (d : string) : upto (Z.of_nat (String.length d)) d = d.
Proof.
  unfold upto. rewrite Nat2Z.id. induction d as [|c d IH]; [reflexivity|].
  simpl. now rewrite IH.
Qed.

Lemma grow_spec (first : Z -> Z) (buf : strbuf_t) (need : Z) :
  (first (cap buf) = cap buf \/ first (cap buf) = cap buf * 2) ->
  well_formed buf -> 0 <= need ->
  exists c,
    (if cap buf <=? len buf + need then
       match grow_loop (grow_fuel (len buf + need)) (first (cap buf))
                       (len buf + need) with
       | Some new_cap => Some {| data := data buf; len := len buf; cap := new_cap |}
       | None => None
       end
     else Some buf)
    = Some {| data := data buf; len := len buf; cap := c |}
    /\ len buf + need < c
    /\ exists k, 0 <= k /\ c = 256 * 2 ^ k.
Proof.
  intros Hfirst (Hlen & Hcap & k & Hk & Ek) Hneed.
  assert (0 < cap buf) as Hpos by (rewrite Ek; pose proof (Z.pow_pos_nonneg 2 k); lia).
  destruct (Z.leb_spec (cap buf) (len buf + need)) as [Hle|Hgt].
  - destruct (grow_loop_spec (grow_fuel (len buf + need)) (first (cap buf))
                (len buf + need)) as (c & j & E & H1 & H2 & H3).
    + destruct Hfirst as [->| ->]; lia.
    + unfold grow_fuel. destruct Hfirst as [->| ->]; lia.
    + rewrite E. exists c. split; [reflexivity|]. split; [exact H1|].
      destruct Hfirst as [Hf|Hf]; rewrite Hf, Ek in H3.
      * exists (k + j). split; [lia|]. rewrite Z.pow_add_r by lia. lia.
      * exists (k + 1 + j). split; [lia|]. rewrite !Z.pow_add_r by lia. lia.
  - exists (cap buf). split; [now destruct buf|]. split; [lia|]. eauto.
Qed.

Lemma concat_empty_cons (x : string) (l : list string) :
  concat "" (x :: l) = x ++ concat "" l.
Proof. destruct l; simpl; [now rewrite append_nil_r | reflexivity]. Qed.

Section Writes.
Variable write : option strbuf_t -> write_t -> option strbuf_t.
Hypothesis write_none : forall w, write None w = None.
Hypothesis write_some :
  forall buf w, well_formed buf ->
    exists buf', write (Some buf) w = Some buf'
                 /\ well_formed buf' /\ data buf' = data buf ++ piece w.

Lemma writes_spec (writes : list write_t) :
  forall buf, well_formed buf ->
    exists buf', fold_left write writes (Some buf) = Some buf'
                 /\ well_formed buf'
                 /\ data buf' = data buf ++ concat "" (map piece writes).
Proof.
  induction writes as [|w t IH]; intros buf Hb; cbn [fold_left map].
  - exists buf. cbn [concat]. rewrite append_nil_r. split; [reflexivity|].
    split; [exact Hb | reflexivity].
  - destruct (write_some buf w Hb) as (b1 & -> & H1 & E1).
    destruct (IH b1 H1) as (b2 & -> & H2 & E2).
    exists b2. split; [reflexivity|]. split; [exact H2|].
    now rewrite concat_empty_cons, E2, E1, append_assoc.
Qed.
End Writes.

Lemma store_spec (first : Z -> Z) (buf : strbuf_t) (s : string) :
  (first (cap buf) = cap buf \/ first (cap buf) = cap buf * 2) ->
  well_formed buf ->
  let n := Z.of_nat (String.length s) in
  exists buf',
    match (if cap buf <=? len buf + (n + 1) then
             match grow_loop (grow_fuel (len buf + (n + 1))) (first (cap buf))
                             (len buf + (n + 1)) with
             | Some new_cap =>
                 Some {| data := data buf; len := len buf; cap := new_cap |}
             | None => None
             end
           else Some buf) with
    | Some buf =>
        if len buf + (n + 1) <=? cap buf then
          Some {| data := upto (len buf) (data buf) ++ s;
                  len := len buf + n;
                  cap := cap buf |}
        else None
    | None => None
    end = Some buf'
    /\ well_formed buf' /\ data buf' = data buf ++ s.
Proof.
  intros Hfirst Hb n.
  destruct (grow_spec first buf (n + 1) Hfirst Hb ltac:(lia)) as (c & -> & Hc & Hk).
  cbn [len cap data]. destruct Hb as (Hlen & Hcap & Hk0).
  destruct (Z.leb_spec (len buf + (n + 1)) c); [|lia].
  rewrite Hlen, upto_all. eexists. split; [reflexivity|].
  unfold well_formed. cbn [len cap data]. rewrite append_length, Nat2Z.inj_add.
  split; [split; [lia | split; [lia | exact Hk]] | reflexivity].
Qed.

Lemma strbuf_write_spec (buf : strbuf_t) (w : write_t) :
  well_formed buf ->
  exists buf', strbuf_write (Some buf) w = Some buf'
               /\ well_formed buf' /\ data buf' = data buf ++ piece w.
Proof.
  intros Hb. destruct w as [s|c]; cbn [strbuf_write piece].
  - apply (store_spec (fun c => c * 2) buf (c_str s)); auto.
  - apply (store_spec (fun c => c * 2) buf (str1 c)); auto.
Qed.

Lemma json_buf_write_spec (buf : strbuf_t) (w : write_t) :
  well_formed buf ->
  exists buf', json_buf_write (Some buf) w = Some buf'
               /\ well_formed buf' /\ data buf' = data buf ++ piece w.
Proof.
  intros Hb. destruct w as [s|c]; cbn [json_buf_write piece].
  - apply (store_spec (fun c => c) buf (c_str s)); auto.
  - apply (store_spec (fun c => c) buf (str1 c)); auto.
Qed.

(** X11. Whatever is appended to a new buffer, every call finds room:
    the loop of [strbuf_grow] ends with a capacity above the length
    needed, no [memcpy] or store goes past the block, and the buffer
    holds the texts appended one after the other, [len] bytes with the
    NUL inside a block of 256 doubled.  The same holds for the buffer of
    [json.c]. *)
Theorem X11_buffer_append_in_bounds (writes : list write_t) :
  (exists buf,
      fold_left strbuf_write writes (Some strbuf_init) = Some buf
      /\ strbuf_finish buf = concat "" (map piece writes)
      /\ len buf = Z.of_nat (String.length (data buf))
      /\ len buf < cap buf
      /\ exists k, 0 <= k /\ cap buf = 256 * 2 ^ k)
  /\ (exists buf,
         fold_left json_buf_write writes (Some json_buf_init) = Some buf
         /\ data buf = concat "" (map piece writes)
         /\ len buf = Z.of_nat (String.length (data buf))
         /\ len buf < cap buf
         /\ exists k, 0 <= k /\ cap buf = 256 * 2 ^ k).
Proof.
  assert (well_formed strbuf_init) as H0.
  { split; [reflexivity|]. split; [reflexivity|].
    exists 0. split; [lia | reflexivity]. }
  split.
  - destruct (writes_spec strbuf_write strbuf_write_spec writes strbuf_init H0)
      as (buf & E & (H1 & H2 & H3) & H4).
    exists buf. split; [exact E|]. split; [exact H4|]. split; [exact H1|].
    split; [exact H2 | exact H3].
  - destruct (writes_spec json_buf_write json_buf_write_spec writes json_buf_init H0)
      as (buf & E & (H1 & H2 & H3) & H4).
    exists buf. split; [exact E|]. split; [exact H4|]. split; [exact H1|].
    split; [exact H2 | exact H3].
Qed.

(** ** The hash of the canonical form *)









(** ** What comes back from JSON *)

(** [glyph_from_json] after [glyph_to_json] on a tree of the JSON kinds
    gives the image of the tree. *)
Lemma round_trip_image (v : glyph_value_t) :
  forall_nodes json_kind v = true -> forall_nodes c_strings v = true ->
  forall_nodes stable_floats v = true ->
  glyph_from_json (glyph_to_json (Some v)) = Some (json_image v).
Proof.
  intros Hk Hc Hf. pose proof (json_ok_split v Hk Hc Hf) as Hok.
  unfold glyph_to_json, glyph_from_json.
  rewrite (c_str_id _ (write_json_c_str v Hok)).
  pose proof (glyph_from_json_text v (write_json_value v) "" Hok
                (json_text_compact v Hk) (fun _ => I)) as H.
  rewrite append_nil_r in H. now rewrite H.
Qed.

Lemma concat_comma_cons (x : string) (l : list string) :
  concat "," (x :: l) = x ++ concat "" (map (fun e => "," ++ e) l).
Proof.
  revert x. induction l as [|y l IH]; intros x; [simpl; now rewrite append_nil_r|].
  change (concat "," (x :: y :: l)) with (x ++ "," ++ concat "," (y :: l)).
  rewrite IH. cbn [map]. rewrite concat_empty_cons. now rewrite !append_assoc.
Qed.

Lemma write_json_value_VStruct (type_name : option string)
    (fields : list (string * glyph_value_t)) :
  write_json_value (VStruct type_name fields)
  = "{" ++ str1 dquote ++ "_type" ++ str1 dquote ++ ":"
    ++ write_json_string (or_empty type_name)
    ++ concat "" (map (fun e => "," ++ write_json_entry write_json_value e) fields)
    ++ "}".
Proof. reflexivity. Qed.

(** X13. A Struct goes to JSON as the Map of its fields with the key
    [_type] in front, and a Sum as the Map of [_tag] and, when it has a
    value, [_value]: the texts are the same byte for byte, and what
    [glyph_from_json] makes of the text of a Struct is a Map. *)
Theorem X13_struct_and_sum_as_objects (type_name tag : option string)
    (fields : list glyph_map_entry_t) (inner : glyph_value_t) :
  let as_map := VMap (("_type", VStr type_name) :: fields) in
  glyph_to_json (Some (VStruct type_name fields)) = glyph_to_json (Some as_map)
  /\ glyph_to_json (Some (VSum tag (Some inner)))
     = glyph_to_json (Some (VMap [("_tag", VStr tag); ("_value", inner)]))
  /\ glyph_to_json (Some (VSum tag None))
     = glyph_to_json (Some (VMap [("_tag", VStr tag)]))
  /\ (forall_nodes json_kind as_map = true ->
      forall_nodes c_strings as_map = true ->
      forall_nodes stable_floats as_map = true ->
      glyph_from_json (glyph_to_json (Some (VStruct type_name fields)))
      = Some (VMap (("_type", VStr (Some (or_empty type_name)))
                      :: map (fun e => (fst e, json_image (snd e))) fields))).
Proof.
  intros as_map.
  assert (glyph_to_json (Some (VStruct type_name fields))
          = glyph_to_json (Some as_map)) as E.
  { unfold glyph_to_json, as_map. f_equal.
    rewrite write_json_value_VStruct, write_json_value_VMap. cbn [map].
    rewrite concat_comma_cons, map_map.
    unfold write_json_entry at 2. cbn [fst snd write_json_value].
    change (write_json_string "_type") with (str1 dquote ++ "_type" ++ str1 dquote).
    now rewrite !append_assoc. }
  split; [exact E|]. split; [|split].
  - unfold glyph_to_json. f_equal. rewrite write_json_value_VMap.
    unfold write_json_entry. cbn [map concat fst snd write_json_value].
    change (write_json_string "_tag") with (str1 dquote ++ "_tag" ++ str1 dquote).
    change (write_json_string "_value") with (str1 dquote ++ "_value" ++ str1 dquote).
    now rewrite !append_assoc.
  - reflexivity.
  - intros Hk Hc Hf. rewrite E. now rewrite (round_trip_image as_map Hk Hc Hf).
Qed.

Lemma X13_struct_and_sum_as_objects_witness :
  glyph_from_json
    (glyph_to_json (Some (VStruct (Some "Point") [("x", VInt 1); ("y", VInt 2)])))
  = Some (VMap [("_type", VStr (Some "Point")); ("x", VInt 1); ("y", VInt 2)]).
Proof.
  apply (X13_struct_and_sum_as_objects (Some "Point") None
           [("x", VInt 1); ("y", VInt 2)] VNull); reflexivity.
Defined.

(** Characters that [write_json_string] writes as they are. *)
Definition plain (c : ascii) : bool := String.eqb (quoted_byte c) (str1 c).

Lemma quoted_body_plain (s : string) :
  all_bytes plain s = true -> quoted_body s = s.
Proof.
  induction s as [|c s IH]; [reflexivity|]. simpl. unfold plain at 1.
  destruct (String.eqb_spec (quoted_byte c) (str1 c)) as [E|]; [|discriminate].
  intros H. now rewrite E, IH.
Qed.

Lemma plain_c_str (s : string) : all_bytes plain s = true -> is_c_str s = true.
Proof.
  apply all_bytes_impl. intros c.
  destruct c as [[] [] [] [] [] [] [] []]; intros H;
    first [reflexivity | discriminate H].
Qed.

Lemma b64_plain (c : ascii) : b64_char c || Ascii.eqb c "=" = true -> plain c = true.
Proof.
  destruct c as [[] [] [] [] [] [] [] []]; intros H;
    first [reflexivity | discriminate H].
Qed.

Definition time_char (c : ascii) : bool :=
  isdigit c || Ascii.eqb c "-" || Ascii.eqb c ":" || Ascii.eqb c "T"
  || Ascii.eqb c "Z".

Lemma time_plain (c : ascii) : time_char c = true -> plain c = true.
Proof.
  destruct c as [[] [] [] [] [] [] [] []]; intros H;
    first [reflexivity | discriminate H].
Qed.

Lemma dec_digits_chars (fuel : nat) (n : Z) (acc : string) :
  all_bytes time_char acc = true -> all_bytes time_char (dec_digits fuel n acc) = true.
Proof.
  revert n acc. induction fuel as [|fuel IH]; intros n acc Hacc; [exact Hacc|].
  cbn [dec_digits].
  assert (all_bytes time_char (String (digit_char (n mod 10)) acc) = true) as H.
  { simpl. destruct (digit_char_spec (n mod 10)) as [Hd _];
      [apply Z.mod_pos_bound; lia|].
    unfold time_char. now rewrite Hd. }
  destruct (n <? 10); [exact H | now apply IH].
Qed.

Lemma fmt_lu_chars (n : Z) : all_bytes time_char (fmt_lu n) = true.
Proof. now apply dec_digits_chars. Qed.

Lemma fmt_ld_chars (n : Z) : all_bytes time_char (fmt_ld n) = true.
Proof.
  unfold fmt_ld. destruct (n <? 0); [|apply fmt_lu_chars].
  cbn [all_bytes]. change (time_char "-") with true. apply fmt_lu_chars.
Qed.

Lemma fmt_02d_chars (n : Z) : all_bytes time_char (fmt_02d n) = true.
Proof.
  unfold fmt_02d. rewrite all_bytes_app, fmt_lu_chars, andb_true_r.
  now destruct (n <? 10).
Qed.

Lemma strftime_iso_chars (t : tm) : all_bytes time_char (strftime_iso t) = true.
Proof.
  unfold strftime_iso.
  rewrite !all_bytes_app, fmt_ld_chars, !fmt_02d_chars. reflexivity.
Qed.

Lemma from_json_plain_string (s : string) :
  all_bytes plain s = true ->
  glyph_from_json (Some (str1 dquote ++ s ++ str1 dquote)) = Some (VStr (Some s)).
Proof.
  intros H. pose proof (plain_c_str s H) as Hc. unfold glyph_from_json.
  rewrite <- (quoted_body_plain s H) at 1 2.
  change (str1 dquote ++ quoted_body s ++ str1 dquote) with (write_json_string s).
  rewrite (c_str_id _ (is_c_str_json_string s)).
  pose proof (parse_scalar (String.length (write_json_string s)) (VStr (Some s)) ""
                eq_refl) as P.
  cbn [write_json_value or_empty] in P. rewrite append_nil_r in P.
  unfold fuel_for. rewrite P; [reflexivity | |intros E; discriminate E].
  unfold json_ok. simpl. now rewrite Hc.
Qed.

(** X14. Bytes and Time values go to JSON as strings and come back as
    Str values: the Str of the Base64 text for Bytes, the Str of the
    canonical text for a Time. *)
Theorem X14_bytes_and_time_come_back_as_str (pl : placement)
    (opts : glyph_canon_opts_t) (data : list Byte.byte) (time_val : Z) :
  glyph_from_json (glyph_to_json (Some (VBytes data)))
  = Some (VStr (Some (base64 data)))
  /\ glyph_canonicalize_loose_with_opts pl (Some (VBytes data)) opts
     = Some ("b64" ++ str1 dquote ++ base64 data ++ str1 dquote)
  /\ glyph_from_json (glyph_to_json (Some (VTime time_val)))
     = Some (VStr (Some (write_canon_value pl opts (VTime time_val)))).
Proof.
  split; [|split; [reflexivity|]].
  - apply from_json_plain_string.
    exact (all_bytes_impl _ _ _ b64_plain (base64_chars data)).
  - apply from_json_plain_string.
    exact (all_bytes_impl _ _ _ time_plain (strftime_iso_chars _)).
Qed.

(** ** The values the parser builds *)

(** A node as [glyph_from_json] makes them: of a JSON kind, an Int in the
    range of [long long], a string that is there, keys and strings
    without a NUL. *)
Definition parsed_node (v : glyph_value_t) : bool :=
  match v with
  | VNull | VBool _ | VFloat _ | VList _ => true
  | VInt n => (LLONG_MIN <=? n) && (n <=? LLONG_MAX)
  | VStr (Some s) => is_c_str s
  | VMap entries => forallb (fun e => is_c_str (fst e)) entries
  | _ => false
  end.

Definition parsed_tree (v : glyph_value_t) : Prop := forall_nodes parsed_node v = true.

Lemma is_c_str_c_str (s : string) : is_c_str (c_str s) = true.
Proof.
  induction s as [|c s IH]; [reflexivity|]. simpl.
  destruct (Z.eqb_spec (uchar c) 0) as [|Hc]; [reflexivity|].
  apply is_c_str_cons. now split.
Qed.

Lemma parsed_tree_list (items : list glyph_value_t) :
  parsed_tree (VList items) <-> Forall parsed_tree items.
Proof.
  unfold parsed_tree. simpl. now rewrite forallb_forall, Forall_forall.
Qed.

Lemma parsed_tree_map (entries : list glyph_map_entry_t) :
  parsed_tree (VMap entries)
  <-> Forall (fun e => is_c_str (fst e) = true /\ parsed_tree (snd e)) entries.
Proof.
  unfold parsed_tree. simpl. rewrite andb_true_iff, !forallb_forall, Forall_forall.
  split; [intros [H1 H2] e He | intros H; split; intros e He; apply (H e He)];
    auto.
Qed.

Lemma parse_number_parsed_tree (p : string) (v : glyph_value_t) (r : string) :
  parse_number p = Parsed v r -> parsed_tree v.
Proof.
  unfold parse_number, strtoll.
  destruct (read_sign _) as [neg s1]. destruct (read_digits s1 0 0) as [[x cnt] rest].
  destruct (cnt =? 0); [discriminate|].
  destruct (is_float_mark rest).
  - destruct (strtod _) as [[d e]|]; now intros [= <- _].
  - intros [= <- _]. unfold parsed_tree, glyph_int. simpl.
    unfold LLONG_MIN, LLONG_MAX. rewrite andb_true_r. apply andb_true_iff. lia.
Qed.

Section ParsedLoops.
Variable pv : string -> parse_result glyph_value_t.
Hypothesis pv_parsed : forall p v r, pv p = Parsed v r -> parsed_tree v.

Lemma ret_value (l : option glyph_value_t) (p : string) (v : glyph_value_t)
    (r : string) : ret l p = Parsed v r -> l = Some v.
Proof. destruct l; [now intros [= -> _] | discriminate]. Qed.

Lemma parse_array_loop_parsed (n : nat) :
  forall items p v r,
    Forall parsed_tree items ->
    parse_array_loop pv n (Some (VList items)) p = Parsed v r -> parsed_tree v.
Proof.
  induction n as [|n IH]; intros items p v r Hi; [discriminate|].
  cbn [parse_array_loop]. destruct (pv p) as [item p1| |] eqn:E; try discriminate.
  apply pv_parsed in E. cbn [glyph_list_append].
  assert (Forall parsed_tree (items ++ [item])) as Hi'
    by (apply Forall_app; split; [assumption | now constructor]).
  destruct (peek (skip_whitespace p1)) as [c p2].
  destruct (Ascii.eqb c "]").
  { intros H. apply ret_value in H. injection H as <-. now apply parsed_tree_list. }
  destruct (negb _); [discriminate|]. now apply IH.
Qed.

Lemma parse_array_parsed (n : nat) (p : string) (v : glyph_value_t) (r : string) :
  parse_array pv n p = Parsed v r -> parsed_tree v.
Proof.
  unfold parse_array, glyph_list_new. destruct (next p) as [c p1].
  destruct (negb _); [discriminate|].
  destruct (peek (skip_whitespace p1)) as [c2 p2].
  destruct (Ascii.eqb c2 "]").
  - intros H. apply ret_value in H. now injection H as <-.
  - now apply parse_array_loop_parsed.
Qed.

Lemma parse_object_loop_parsed (n : nat) :
  forall entries p v r,
    parsed_tree (VMap entries) ->
    parse_object_loop pv n (Some (VMap entries)) p = Parsed v r -> parsed_tree v.
Proof.
  induction n as [|n IH]; intros entries p v r He; [discriminate|].
  cbn [parse_object_loop].
  destruct (peek (skip_whitespace p)) as [c p1].
  destruct (negb _); [discriminate|].
  destruct (parse_string p1) as [[key p2]|]; [|discriminate].
  destruct (next (skip_whitespace p2)) as [c3 p3].
  destruct (negb _); [discriminate|].
  destruct (pv p3) as [value p4| |] eqn:E; try discriminate.
  apply pv_parsed in E. cbn [glyph_map_set].
  assert (parsed_tree (VMap (entries ++ [(c_str key, value)]))) as He'.
  { apply parsed_tree_map, Forall_app. split; [now apply parsed_tree_map|].
    constructor; [|constructor]. split; [apply is_c_str_c_str | exact E]. }
  destruct (peek (skip_whitespace p4)) as [c5 p5].
  destruct (Ascii.eqb c5 "}").
  { intros H. apply ret_value in H. now injection H as <-. }
  destruct (negb _); [discriminate|]. now apply IH.
Qed.

Lemma parse_object_parsed (n : nat) (p : string) (v : glyph_value_t) (r : string) :
  parse_object pv n p = Parsed v r -> parsed_tree v.
Proof.
  unfold parse_object, glyph_map_new. destruct (next p) as [c p1].
  destruct (negb _); [discriminate|].
  destruct (peek (skip_whitespace p1)) as [c2 p2].
  destruct (Ascii.eqb c2 "}").
  - intros H. apply ret_value in H. now injection H as <-.
  - now apply parse_object_loop_parsed.
Qed.
End ParsedLoops.

Lemma parse_value_parsed (fuel : nat) :
  forall p v r, parse_value fuel p = Parsed v r -> parsed_tree v.
Proof.
  induction fuel as [|fuel IH]; intros p v r; [discriminate|].
  cbn [parse_value]. destruct (peek (skip_whitespace p)) as [c p1].
  destruct (if Ascii.eqb c "n" then _ else _); [now intros [= <- _]|].
  destruct (if Ascii.eqb c "t" then _ else _); [now intros [= <- _]|].
  destruct (if Ascii.eqb c "f" then _ else _); [now intros [= <- _]|].
  destruct (Ascii.eqb c dquote).
  { destruct (parse_string p1) as [[s q]|]; [|discriminate]. intros [= <- _].
    unfold parsed_tree, glyph_str, strdup_safe. simpl.
    now rewrite is_c_str_c_str. }
  destruct (Ascii.eqb c "["); [apply (parse_array_parsed _ IH)|].
  destruct (Ascii.eqb c "{"); [apply (parse_object_parsed _ IH)|].
  destruct (_ || _); [apply parse_number_parsed_tree | discriminate].
Qed.

(** X15. Whatever the input, a value that [glyph_from_json] returns is
    built of Null, Bool, Int, Float, Str, List and Map only: no Bytes,
    Time, Id, Struct or Sum comes out of JSON, no Str without a string,
    and every Int lies in the range of [long long]. *)
Theorem X15_parsed_values_are_json_kinds (json : option string) (v : glyph_value_t) :
  glyph_from_json json = Some v ->
  forall_nodes parsed_node v = true /\ forall_nodes json_kind v = true.
Proof.
  destruct json as [input|]; [|discriminate]. unfold glyph_from_json.
  destruct (parse_value _ _) as [v' r| |] eqn:E; try discriminate.
  intros [= <-]. apply parse_value_parsed in E. split; [exact E|].
  revert E. apply forall_nodes_weaken. now intros [| | | |[]| | | | | | | ].
Qed.

Lemma X15_parsed_values_are_json_kinds_witness :
  let v := VList [VInt 9223372036854775807; VMap [("k", VStr (Some "u"))]] in
  forall_nodes parsed_node v = true /\ forall_nodes json_kind v = true.
Proof.
  apply (X15_parsed_values_are_json_kinds
           (Some ("[99999999999999999999, {" ++ str1 dquote ++ "k" ++ str1 dquote
                  ++ ": " ++ str1 dquote ++ "\u" ++ str1 dquote ++ "}]"))).
  vm_compute. reflexivity.
Defined.

(** ** Integers out of range *)

(** X16. A number too large for [long long] is not an error: the digits
    of [n] are read as the Int [LLONG_MAX] when [n] is above it, and a
    minus sign and the digits as [LLONG_MIN] when [-n] is below that;
    within the range the Int is the number written. *)
Theorem X16_integers_saturate (n : Z) :
  0 <= n ->
  glyph_from_json (Some (fmt_lu n)) = Some (VInt (Z.min n LLONG_MAX))
  /\ glyph_from_json (Some ("-" ++ fmt_lu n)) = Some (VInt (Z.max (- n) LLONG_MIN)).
Proof.
  intros Hn. destruct (fmt_lu_head n Hn) as (d & t & E & Hd).
  assert (is_c_str (fmt_lu n) = true) as Hc
    by (now apply is_c_str_dec_digits).
  destruct (strtoll_fmt_lu n "" Hn I) as [R Hcnt]. rewrite append_nil_r in R, Hcnt.
  unfold glyph_from_json, fuel_for. split.
  - rewrite (c_str_id _ Hc), E.
    rewrite parse_value_number by (unfold number_head; now rewrite Hd, orb_true_r).
    unfold parse_number, skip_whitespace, strtoll.
    rewrite !(skip_space_head d t (isdigit_not_space d Hd)), (isdigit_not_sign d t Hd).
    rewrite <- E, R.
    destruct (Z.eqb_spec (snd (fst (read_digits (fmt_lu n) 0 0))) 0); [lia|].
    cbn [is_float_mark]. unfold glyph_int, LLONG_MIN, LLONG_MAX. do 2 f_equal. lia.
  - assert (is_c_str ("-" ++ fmt_lu n) = true) as Hc'
      by (now rewrite is_c_str_app, Hc).
    rewrite (c_str_id _ Hc'). change ("-" ++ fmt_lu n) with (String "-" (fmt_lu n)).
    rewrite parse_value_number by reflexivity.
    unfold parse_number, skip_whitespace, strtoll.
    rewrite !(skip_space_head "-" (fmt_lu n) eq_refl).
    cbn [read_sign]. change (Ascii.eqb "-" "-") with true. cbv iota. rewrite R.
    destruct (Z.eqb_spec (snd (fst (read_digits (fmt_lu n) 0 0))) 0); [lia|].
    cbn [is_float_mark]. unfold glyph_int, LLONG_MIN, LLONG_MAX. do 2 f_equal. lia.
Qed.

Lemma X16_integers_saturate_witness :
  glyph_from_json (Some "18446744073709551616") = Some (VInt 9223372036854775807)
  /\ glyph_from_json (Some "-18446744073709551616")
     = Some (VInt (-9223372036854775808)).
Proof. apply (X16_integers_saturate (2 ^ 64)). lia. Defined.

(** ** Trees that come back as they were *)

Definition exact_node (v : glyph_value_t) : bool :=
  match v with
  | VFloat _ => false
  | _ => parsed_node v
  end.

Lemma json_image_exact (v : glyph_value_t) :
  forall_nodes exact_node v = true -> json_image v = v.
Proof.
  induction v using glyph_value_induction; intros Hv;
    try (apply forall_nodes_top in Hv; discriminate); try reflexivity.
  - apply forall_nodes_top in Hv. simpl in Hv. cbn [json_image].
    f_equal. apply to_long_small. unfold LLONG_MIN, LLONG_MAX in Hv. lia.
  - apply forall_nodes_top in Hv. now destruct s.
  - apply forall_nodes_list in Hv as [_ Hi]. cbn [json_image]. f_equal.
    rewrite <- (map_id items) at 2. apply map_ext_Forall.
    rewrite Forall_forall in H, Hi |- *. intros x Hx. now apply H, Hi.
  - apply forall_nodes_map in Hv as [_ Hi]. cbn [json_image]. f_equal.
    rewrite <- (map_id entries) at 2. apply map_ext_Forall.
    rewrite Forall_forall in H, Hi |- *. intros [k x] Hx.
    simpl. f_equal. now apply (H (k, x) Hx), (Hi (k, x) Hx).
Qed.

(** X17. A tree without Floats, of Null, Bool, Str, List, Map and Ints
    in the range of [long long], with strings that are there and have
    no NUL, comes back from [glyph_to_json] and [glyph_from_json] as the
    same tree, and not only as one with the same canonical form. *)
Theorem X17_exact_round_trip (v : glyph_value_t) :
  forall_nodes exact_node v = true ->
  glyph_from_json (glyph_to_json (Some v)) = Some v.
Proof.
  intros Hv. rewrite <- (json_image_exact v Hv) at 2.
  apply round_trip_image; revert Hv; apply forall_nodes_weaken.
  - now intros [| | | |[]| | | | | | | ].
  - intros [| | | |[s|]| | | | | | | ]; simpl; trivial; discriminate.
  - now intros [| | | |[]| | | | | | | ].
Qed.

Lemma X17_exact_round_trip_witness :
  let v := VMap [("id", VInt (-9223372036854775808));
                 ("tags", VList [VStr (Some "a b"); VNull; VBool false]);
                 ("nested", VMap [("", VList [])])] in
  glyph_from_json (glyph_to_json (Some v)) = Some v.
Proof.
  apply (X17_exact_round_trip
           (VMap [("id", VInt (-9223372036854775808));
                  ("tags", VList [VStr (Some "a b"); VNull; VBool false]);
                  ("nested", VMap [("", VList [])])])).
  reflexivity.
Defined.

(** ** Strings written as they are *)

Lemma bare_byte_cases (c : ascii) :
  bare_byte c = true ->
  isalnum c = true \/ In c bareword_extra \/ 127 < uchar c.
Proof.
  unfold bare_byte, bareword_extra. rewrite !orb_true_iff, !Ascii.eqb_eq, Z.ltb_lt.
  simpl. intuition auto.
Qed.

Lemma all_bytes_In (p : ascii -> bool) (s : string) (c : ascii) :
  all_bytes p s = true -> In c (list_ascii_of_string s) -> p c = true.
Proof.
  induction s as [|x s IH]; simpl; [contradiction|].
  destruct (p x) eqn:E; [|discriminate]. intros H [<-|Hin]; auto.
Qed.

Lemma is_bare_safe_bareword (s : string) :
  is_bare_safe (Some s) = true -> bareword s.
Proof.
  unfold is_bare_safe. destruct s as [|c t]; [discriminate|]. intros H.
  destruct (isdigit c) eqn:Hd; [discriminate H|].
  destruct (Ascii.eqb_spec c dquote) as [|Hq]; [discriminate H|].
  destruct (Ascii.eqb_spec c "'") as [|Ha]; [discriminate H|].
  destruct (Ascii.eqb_spec c "-") as [|Hm]; [discriminate H|].
  cbn [orb] in H.
  assert (forall w, In w reserved_tokens -> strcmp (String c t) w <> 0) as Hres.
  { intros w Hw E. unfold reserved_tokens in Hw. simpl in Hw.
    repeat (destruct Hw as [<-|Hw];
            [rewrite E in H; cbn [Z.eqb orb] in H;
             rewrite ?orb_true_r in H; discriminate H|]).
    exact Hw. }
  destruct (_ || _); [discriminate H|].
  split; [discriminate|]. split; [|split].
  - intros c' t' [= <- <-]. auto.
  - intros Hin. apply (Hres _ Hin), strcmp_refl.
  - intros x Hx. apply bare_byte_cases. exact (all_bytes_In _ _ _ H Hx).
Qed.

Lemma quoted_body_length (s : string) :
  (String.length s <= String.length (quoted_body s))%nat.
Proof.
  induction s as [|c s IH]; [simpl; lia|]. cbn [quoted_body].
  rewrite append_length. simpl String.length.
  assert (1 <= String.length (quoted_byte c))%nat
    by (destruct c as [[] [] [] [] [] [] [] []]; simpl; lia).
  lia.
Qed.

(** X18. Only a bareword is written as it is: the canonical text of a
    string is the string itself exactly when the string meets the
    bareword conditions, and is the quoted form otherwise. *)
Theorem X18_verbatim_exactly_barewords (pl : placement)
    (opts : glyph_canon_opts_t) (s : string) :
  (glyph_canonicalize_loose_with_opts pl (Some (VStr (Some s))) opts = Some s
   <-> bareword s)
  /\ (~ bareword s ->
      glyph_canonicalize_loose_with_opts pl (Some (VStr (Some s))) opts
      = Some (write_quoted_string s)).
Proof.
  unfold glyph_canonicalize_loose_with_opts. simpl. unfold write_canon_string.
  destruct (is_bare_safe (Some s)) eqn:E.
  - pose proof (is_bare_safe_bareword s E) as Hb.
    split; [tauto | intros Hn; now destruct Hn].
  - split; [|reflexivity]. split.
    + intros [= H]. apply (f_equal String.length) in H.
      unfold write_quoted_string in H. rewrite !append_length in H.
      pose proof (quoted_body_length s). simpl in H. lia.
    + intros Hb. apply bareword_is_bare_safe in Hb. congruence.
Qed.

Lemma X18_verbatim_exactly_barewords_witness :
  glyph_canonicalize_loose ascending (Some (VStr (Some "two words")))
  = Some (write_quoted_string "two words").
Proof.
  apply (X18_verbatim_exactly_barewords ascending glyph_canon_opts_default
           "two words").
  intros (_ & _ & _ & H). destruct (H " "%char) as [E|[E|E]].
  - simpl. tauto.
  - discriminate E.
  - simpl in E. intuition discriminate.
  - vm_compute in E. discriminate E.
Defined.

(** ** The parser ends *)

(** [r'] is [r] unless [r] ran out of fuel. *)
Definition settled {A : Type} (r r' : parse_result A) : Prop :=
  r = OutOfFuel \/ r' = r.

Section MoreFuel.
Variables pv pv' : string -> parse_result glyph_value_t.
Hypothesis pv_settled : forall p, settled (pv p) (pv' p).

Lemma parse_array_loop_settled (n : nat) :
  forall list p,
    settled (parse_array_loop pv n list p) (parse_array_loop pv' (S n) list p).
Proof.
  induction n as [|n IH]; intros list p; [now left|].
  cbn [parse_array_loop] in *. destruct (pv_settled p) as [E|E].
  - rewrite E. now left.
  - rewrite E. destruct (pv p) as [item p1| |]; try (now right).
    destruct (peek (skip_whitespace p1)) as [c p2].
    destruct (Ascii.eqb c "]"); [now right|].
    destruct (negb _); [now right|]. apply IH.
Qed.

Lemma parse_object_loop_settled (n : nat) :
  forall map p,
    settled (parse_object_loop pv n map p) (parse_object_loop pv' (S n) map p).
Proof.
  induction n as [|n IH]; intros map p; [now left|].
  cbn [parse_object_loop] in *.
  destruct (peek (skip_whitespace p)) as [c p1].
  destruct (negb _); [now right|].
  destruct (parse_string p1) as [[key p2]|]; [|now right].
  destruct (next (skip_whitespace p2)) as [c3 p3].
  destruct (negb _); [now right|].
  destruct (pv_settled p3) as [E|E].
  - rewrite E. now left.
  - rewrite E. destruct (pv p3) as [value p4| |]; try (now right).
    destruct (peek (skip_whitespace p4)) as [c5 p5].
    destruct (Ascii.eqb c5 "}"); [now right|].
    destruct (negb _); [now right|]. apply IH.
Qed.
End MoreFuel.

Lemma parse_value_settled (fuel : nat) :
  forall p, settled (parse_value fuel p) (parse_value (S fuel) p).
Proof.
  induction fuel as [|fuel IH]; intros p; [now left|].
  cbn [parse_value] in *. destruct (peek (skip_whitespace p)) as [c p1].
  destruct (if Ascii.eqb c "n" then _ else _); [now right|].
  destruct (if Ascii.eqb c "t" then _ else _); [now right|].
  destruct (if Ascii.eqb c "f" then _ else _); [now right|].
  destruct (Ascii.eqb c dquote); [now right|].
  destruct (Ascii.eqb c "[").
  { unfold parse_array. destruct (next p1) as [c1 q1].
    destruct (negb _); [now right|].
    destruct (peek (skip_whitespace q1)) as [c2 q2].
    destruct (Ascii.eqb c2 "]"); [now right|].
    exact (parse_array_loop_settled _ _ IH fuel _ _). }
  destruct (Ascii.eqb c "{"); [|now right].
  unfold parse_object. destruct (next p1) as [c1 q1].
  destruct (negb _); [now right|].
  destruct (peek (skip_whitespace q1)) as [c2 q2].
  destruct (Ascii.eqb c2 "}"); [now right|].
  exact (parse_object_loop_settled _ _ IH fuel _ _).
Qed.

(** X19. The parser ends on every input, with a value or with a
    failure: its nesting and its loops stay within the length of the
    input, every value read takes at least one byte of it, and the result
    is the same for every bound above that length. *)
Theorem X19_parser_ends (p : string) (fuel : nat) :
  (String.length p < fuel)%nat ->
  parse_value fuel p <> OutOfFuel
  /\ parse_value fuel p = parse_value (fuel_for p) p
  /\ forall v rest, parse_value fuel p = Parsed v rest ->
                    (String.length rest < String.length p)%nat.
Proof.
  intros Hf. split; [now apply parse_value_fuel|]. split.
  - unfold fuel_for. induction fuel as [|fuel IH]; [lia|].
    destruct (Nat.eq_dec fuel (String.length p)) as [->|Hne]; [reflexivity|].
    rewrite <- IH by lia.
    destruct (parse_value_settled fuel p) as [E|E]; [|exact E].
    apply parse_value_fuel in E; [contradiction | lia].
  - intros v rest. apply parse_value_consumes.
Qed.

Lemma X19_parser_ends_witness :
  parse_value 1000 "[[[[1]]]]" = parse_value (fuel_for "[[[[1]]]]") "[[[[1]]]]".
Proof. apply (X19_parser_ends "[[[[1]]]]" 1000). simpl. lia. Defined.

(** ** Values that hold no table *)

Definition is_object_b (item : glyph_value_t) : bool :=
  match item_entries item with Some _ => true | None => false end.

(** A list that [check_homogeneous] turns down at once: shorter than
    [min_rows], or with an element that is neither Map nor Struct. *)
Definition no_table_node (opts : glyph_canon_opts_t) (v : glyph_value_t) : bool :=
  match v with
  | VList items =>
      (Z.of_nat (List.length items) <? min_rows opts)
      || existsb (fun item => negb (is_object_b item)) items
  | _ => true
  end.

Definition without_tabular (opts : glyph_canon_opts_t) : glyph_canon_opts_t :=
  {| auto_tabular := false;
     min_rows := min_rows opts;
     max_cols := max_cols opts;
     allow_missing := allow_missing opts;
     null_style := null_style opts |}.

Lemma no_table_check (opts : glyph_canon_opts_t) (place : nat -> Z)
    (items : list glyph_value_t) :
  no_table_node opts (VList items) = true ->
  check_homogeneous opts place (map item_entries items) = None.
Proof.
  unfold no_table_node, check_homogeneous. rewrite length_map.
  destruct (_ <? min_rows opts); [reflexivity|]. cbn [orb]. intros H.
  apply existsb_exists in H as (item & Hin & Hno).
  assert (collect_keys (map item_entries items) [] = None) as ->; [|reflexivity].
  apply collect_keys_objects, in_map_iff. exists item. split; [|exact Hin].
  unfold is_object_b in Hno. now destruct (item_entries item).
Qed.

Lemma no_table_value (opts : glyph_canon_opts_t) (v : glyph_value_t) :
  forall_nodes (no_table_node opts) v = true ->
  forall pl pl' : placement,
    write_canon_value pl opts v = write_canon_value pl' (without_tabular opts) v.
Proof.
  induction v using glyph_value_induction; intros Hv pl pl';
    try reflexivity.
  - apply forall_nodes_list in Hv as [Hn Hi].
    rewrite !write_canon_value_VList. unfold write_canon_list.
    rewrite check_homogeneous_rows, (no_table_check opts (pl []) items Hn).
    cbn [auto_tabular without_tabular].
    destruct (auto_tabular opts);
      (rewrite (Forall_map_ext (write_child pl opts)
                  (write_child pl' (without_tabular opts))); [reflexivity|]);
      rewrite Forall_forall in H, Hi |- *; intros r Hr;
      apply In_numbered in Hr; now apply H, Hi.
  - apply forall_nodes_map in Hv as [_ Hi]. rewrite !write_canon_value_VMap.
    apply write_canon_map_ext. rewrite Forall_forall in H, Hi |- *.
    intros e He. apply In_positions in He. now apply (H _ He), (Hi _ He).
  - apply forall_nodes_struct in Hv as [_ Hi].
    rewrite !write_canon_value_VStruct. f_equal.
    apply write_canon_map_ext. rewrite Forall_forall in H, Hi |- *.
    intros e He. apply In_positions in He. now apply (H _ He), (Hi _ He).
  - simpl in Hv |- *. now rewrite (IHv Hv (below pl 0) (below pl' 0)).
Qed.

(** X20. A value in which every list is shorter than [min_rows] or has
    an element that is neither Map nor Struct holds no table: its
    canonical form is the same with [auto_tabular] set and unset,
    whatever the two calls find in memory, and under the default options
    it is what [glyph_canonicalize_loose_no_tabular] returns. *)
Theorem X20_no_table_without_rows (pl pl' : placement) (opts : glyph_canon_opts_t)
    (v : glyph_value_t) :
  forall_nodes (no_table_node opts) v = true ->
  glyph_canonicalize_loose_with_opts pl (Some v) opts
  = glyph_canonicalize_loose_with_opts pl' (Some v) (without_tabular opts)
  /\ (opts = glyph_canon_opts_default ->
      glyph_canonicalize_loose pl (Some v)
      = glyph_canonicalize_loose_no_tabular pl' (Some v)).
Proof.
  intros Hv. unfold glyph_canonicalize_loose, glyph_canonicalize_loose_no_tabular,
    glyph_canonicalize_loose_with_opts, write_canon_value_at.
  split; [now rewrite (no_table_value opts v Hv pl pl')|].
  intros ->. now rewrite (no_table_value _ v Hv pl pl').
Qed.

Lemma X20_no_table_without_rows_witness :
  let v := VMap [("pair", VList [VMap [("x", VInt 1)]; VMap [("x", VInt 2)]]);
                 ("mixed", VList [VMap [("x", VInt 1)]; VMap [("x", VInt 2)];
                                  VInt 3; VMap [("x", VInt 4)]])] in
  glyph_canonicalize_loose ascending (Some v)
  = glyph_canonicalize_loose_no_tabular descending (Some v).
Proof.
  intros v.
  apply (X20_no_table_without_rows ascending descending glyph_canon_opts_default v);
    reflexivity.
Defined.

(** ** Unicode escapes *)

Lemma hex_value_digit (c : ascii) (d : Z) :
  hex_value c = Some d ->
  0 <= d < 16 /\ isspace c = false
  /\ Ascii.eqb c "-" = false /\ Ascii.eqb c "+" = false
  /\ Ascii.eqb c "x" = false /\ Ascii.eqb c "X" = false.
Proof.
  destruct c as [[] [] [] [] [] [] [] []]; intros H; vm_compute in H;
    first [discriminate H
          | injection H as <-; repeat split; first [reflexivity | lia]].
Qed.

Lemma strtoul16_digits (h1 h2 h3 h4 : ascii) (d1 d2 d3 d4 : Z) :
  hex_value h1 = Some d1 -> hex_value h2 = Some d2 ->
  hex_value h3 = Some d3 -> hex_value h4 = Some d4 ->
  strtoul16 (String h1 (String h2 (String h3 (str1 h4))))
  = 4096 * d1 + 256 * d2 + 16 * d3 + d4.
Proof.
  intros H1 H2 H3 H4.
  destruct (hex_value_digit h1 d1 H1) as (R1 & S1 & M1 & P1 & _).
  destruct (hex_value_digit h2 d2 H2) as (R2 & _ & _ & _ & X2 & X2').
  destruct (hex_value_digit h3 d3 H3) as (R3 & _).
  destruct (hex_value_digit h4 d4 H4) as (R4 & _).
  unfold strtoul16. rewrite (skip_space_head h1 _ S1).
  unfold read_sign. rewrite M1, P1.
  assert (match String h1 (String h2 (String h3 (str1 h4))) with
          | String "0" (String x (String h t)) =>
              if (Ascii.eqb x "x" || Ascii.eqb x "X")
                 && match hex_value h with Some _ => true | None => false end
              then String h t else String h1 (String h2 (String h3 (str1 h4)))
          | _ => String h1 (String h2 (String h3 (str1 h4)))
          end = String h1 (String h2 (String h3 (str1 h4)))) as E.
  { destruct h1 as [[] [] [] [] [] [] [] []]; try reflexivity.
    unfold str1. now rewrite X2, X2'. }
  unfold str1 in *. rewrite E. cbn [read_hex]. rewrite H1, H2, H3, H4.
  change (2 ^ 64) with 18446744073709551616. change (2 ^ 32) with 4294967296.
  rewrite (Z.mod_small _ 18446744073709551616) by lia.
  rewrite Z.mod_small by lia. lia.
Qed.

Lemma uchar_chr (n : Z) : 0 <= n < 256 -> uchar (chr n) = n.
Proof.
  intros H. unfold uchar, chr. rewrite Z.mod_small by lia.
  rewrite nat_ascii_embedding by lia. lia.
Qed.

Lemma low_six (n : Z) : Z.land n 63 = n mod 64.
Proof. change 63 with (Z.ones 6). now rewrite Z.land_ones by lia. Qed.

(** The bytes of [utf8_bytes]: a lead byte and continuation bytes that
    carry the bits of the code, six to a continuation byte. *)
Lemma utf8_bytes_layout (code : Z) :
  0 <= code < 65536 ->
  (code < 128 ->
   utf8_bytes code = str1 (chr code) /\ uchar (chr code) = code)
  /\ (128 <= code < 2048 ->
      exists b1 b2,
        utf8_bytes code = String b1 (str1 b2)
        /\ uchar b1 = 192 + code / 64 /\ uchar b2 = 128 + code mod 64)
  /\ (2048 <= code ->
      exists b1 b2 b3,
        utf8_bytes code = String b1 (String b2 (str1 b3))
        /\ uchar b1 = 224 + code / 4096
        /\ uchar b2 = 128 + (code / 64) mod 64
        /\ uchar b3 = 128 + code mod 64).
Proof.
  intros Hc. unfold utf8_bytes.
  assert (forall m, 0 <= m < 64 -> uchar (chr (Z.lor 128 m)) = 128 + m) as Hcont.
  { intros m Hm. change 128 with (1 * 2 ^ 7) at 1.
    rewrite lor_disjoint by (change (2 ^ 7) with 128; lia).
    change (1 * 2 ^ 7) with 128. apply uchar_chr. lia. }
  rewrite !Z.shiftr_div_pow2, !low_six by lia.
  change (2 ^ 6) with 64. change (2 ^ 12) with 4096.
  pose proof (Z.mod_pos_bound code 64 ltac:(lia)) as M1.
  pose proof (Z.mod_pos_bound (code / 64) 64 ltac:(lia)) as M2.
  split; [|split].
  - intros H. destruct (Z.ltb_spec code 128); [|lia].
    split; [reflexivity | apply uchar_chr; lia].
  - intros H. destruct (Z.ltb_spec code 128); [lia|].
    destruct (Z.ltb_spec code 2048); [|lia].
    eexists _, _. split; [reflexivity|]. split; [|now apply Hcont].
    assert (0 <= code / 64 < 32) as Hq by (Z.to_euclidean_division_equations; lia).
    change 192 with (3 * 2 ^ 6) at 1.
    rewrite lor_disjoint by (change (2 ^ 6) with 64; lia).
    change (3 * 2 ^ 6) with 192. apply uchar_chr. lia.
  - intros H. destruct (Z.ltb_spec code 128); [lia|].
    destruct (Z.ltb_spec code 2048); [lia|].
    eexists _, _, _. split; [reflexivity|].
    split; [|split; now apply Hcont].
    assert (0 <= code / 4096 < 16) as Hq by (Z.to_euclidean_division_equations; lia).
    change 224 with (7 * 2 ^ 5) at 1.
    rewrite lor_disjoint by (change (2 ^ 5) with 32; lia).
    change (7 * 2 ^ 5) with 224. apply uchar_chr. lia.
Qed.

(** X21. An escape [\u] with four hexadecimal digits is stored as the
    UTF-8 bytes of the code the digits spell: one byte below [0x80], two
    bytes [110xxxxx 10xxxxxx] below [0x800], three bytes
    [1110xxxx 10xxxxxx 10xxxxxx] from there on, the payload bits being
    those of the code. *)
Theorem X21_unicode_escape_as_utf8 (h1 h2 h3 h4 : ascii) (d1 d2 d3 d4 : Z)
    (rest : string) :
  hex_value h1 = Some d1 -> hex_value h2 = Some d2 ->
  hex_value h3 = Some d3 -> hex_value h4 = Some d4 ->
  let code := 4096 * d1 + 256 * d2 + 16 * d3 + d4 in
  parse_string_loop
    (String backslash (String "u" (String h1 (String h2 (String h3 (String h4 rest))))))
  = push (utf8_bytes code) (parse_string_loop rest)
  /\ (code < 128 -> utf8_bytes code = str1 (chr code) /\ uchar (chr code) = code)
  /\ (128 <= code < 2048 ->
      exists b1 b2,
        utf8_bytes code = String b1 (str1 b2)
        /\ uchar b1 = 192 + code / 64 /\ uchar b2 = 128 + code mod 64)
  /\ (2048 <= code ->
      exists b1 b2 b3,
        utf8_bytes code = String b1 (String b2 (str1 b3))
        /\ uchar b1 = 224 + code / 4096
        /\ uchar b2 = 128 + (code / 64) mod 64
        /\ uchar b3 = 128 + code mod 64).
Proof.
  intros H1 H2 H3 H4 code. split.
  - cbn [parse_string_loop]. change (Ascii.eqb backslash dquote) with false.
    change (Ascii.eqb backslash backslash) with true.
    change (Ascii.eqb "u" "u") with true. cbv iota.
    now rewrite (strtoul16_digits h1 h2 h3 h4 d1 d2 d3 d4 H1 H2 H3 H4).
  - destruct (hex_value_digit h1 d1 H1) as (R1 & _).
    destruct (hex_value_digit h2 d2 H2) as (R2 & _).
    destruct (hex_value_digit h3 d3 H3) as (R3 & _).
    destruct (hex_value_digit h4 d4 H4) as (R4 & _).
    apply utf8_bytes_layout. subst code. lia.
Qed.

Lemma X21_unicode_escape_as_utf8_witness :
  parse_string_loop ("é" ++ str1 dquote) = Some ("é"%string, ""%string)
  /\ exists b1 b2, utf8_bytes 233 = String b1 (str1 b2)
                   /\ uchar b1 = 195 /\ uchar b2 = 169.
Proof.
  destruct (X21_unicode_escape_as_utf8 "0" "0" "E" "9" 0 0 14 9 (str1 dquote)
              eq_refl eq_refl eq_refl eq_refl) as (H & _ & Htwo & _).
  split; [exact H|]. cbn zeta in Htwo.
  destruct (Htwo ltac:(lia)) as (b1 & b2 & E & U1 & U2).
  exists b1, b2. split; [exact E|]. split; [exact U1 | exact U2].
Defined.
